(** * youtube-i: session pool, admission gate, retrying executor,
      growing caches and the continuation walker

    A shallow embedding of the resource-management core of
    [src/handlers/channelHandlers.js] and of the channel-video cache
    ([channelallvideosHandlers.js]), with the properties of the design
    document stated and settled against it.

    Conventions.
    - JavaScript numbers that hold counters and millisecond clocks are [Z].
    - [Date.now()] is an explicit argument [now].
    - A [Map] is a [gmap], a [Set] a [gset]; arrays are lists.
    - Code between two [await]s runs atomically; every [await] is a point
      where other tasks may run.  Concurrent behaviour is therefore given
      as a list of atomic segments (the schedule) applied to a state. *)

From Stdlib Require Import ZArith Lia Ascii.
From stdpp Require Import base numbers option list strings gmap fin_maps.

Local Open Scope Z_scope.

(** ** CONFIG *)

Module CONFIG.
Definition POOL_SIZE : nat := 5.
Definition MAX_CONCURRENT_REQUESTS : Z := 20.
Definition MAX_REQUESTS_PER_INSTANCE : Z := 4.
Definition INSTANCE_TIMEOUT : Z := 30000.
Definition REQUEST_TIMEOUT : Z := 25000.
Definition INSTANCE_MAX_REQUESTS : Z := 100.
Definition INSTANCE_MAX_AGE : Z := 1000 * 60 * 15.
Definition MAX_RETRIES : nat := 2.
Definition RETRY_DELAY : Z := 500.
Definition CACHE_EXPIRY : Z := 1000 * 60 * 30.
(* second CONFIG block (search handlers) *)
Definition SEARCH_CACHE_TTL : Z := 5 * 60 * 1000.
Definition VIDEO_CACHE_TTL : Z := 30 * 60 * 1000.
Definition COMMENT_CACHE_TTL : Z := 10 * 60 * 1000.
Definition MAX_RESULTS_PER_SEARCH : nat := 500.
Definition BACKGROUND_FETCH_DELAY : Z := 50.
End CONFIG.

(** ** RequestSemaphore *)

Module RequestSemaphore.

(** A waiter is the [resolve] callback pushed on [waitingQueue]; it is
    identified by a number. *)
Definition Waiter := nat.

Record t := mk {
  maxConcurrent : Z;
  currentCount : Z;
  waitingQueue : list Waiter
}.

(** [constructor(maxConcurrent)] *)
Definition new (maxConcurrent : Z) : t :=
  {| maxConcurrent := maxConcurrent; currentCount := 0; waitingQueue := [] |}.

(** [acquire()]: the boolean tells whether the promise is resolved at
    once ([true]) or the caller is parked on the queue ([false]). *)
Definition acquire (w : Waiter) (s : t) : bool * t :=
  if currentCount s <? maxConcurrent s then
    (true, {| maxConcurrent := maxConcurrent s;
              currentCount := currentCount s + 1;
              waitingQueue := waitingQueue s |})
  else
    (false, {| maxConcurrent := maxConcurrent s;
               currentCount := currentCount s;
               waitingQueue := waitingQueue s ++ [w] |}).

(** [release()]: returns the waiter whose [resolve] is called, if any. *)
Definition release (s : t) : option Waiter * t :=
  match waitingQueue s with
  | next :: rest =>
      (Some next, {| maxConcurrent := maxConcurrent s;
                     currentCount := currentCount s;
                     waitingQueue := rest |})
  | [] =>
      (None, {| maxConcurrent := maxConcurrent s;
                currentCount := Z.max 0 (currentCount s - 1);
                waitingQueue := [] |})
  end.

(** [getStats()] *)
Definition getStats (s : t) : Z * nat * Z :=
  (currentCount s, length (waitingQueue s), maxConcurrent s).

(** The calls other code can make on the semaphore. *)
Inductive call := Acquire (w : Waiter) | Release.

Definition step (c : call) (s : t) : t :=
  match c with
  | Acquire w => snd (acquire w s)
  | Release => snd (release s)
  end.

(** An interleaving of calls, oldest first. *)
Definition run (cs : list call) (s : t) : t :=
  fold_left (fun s c => step c s) cs s.

(** The invariant of the admission gate. *)
Definition inv (s : t) : Prop :=
  currentCount s <= maxConcurrent s /\
  (waitingQueue s <> [] -> currentCount s = maxConcurrent s).

End RequestSemaphore.

(** The process-wide gate: [new RequestSemaphore(CONFIG.MAX_CONCURRENT_REQUESTS)]. *)
Definition requestSemaphore : RequestSemaphore.t :=
  RequestSemaphore.new CONFIG.MAX_CONCURRENT_REQUESTS.


(** ** YouTubeInstancePool *)

Module YouTubeInstancePool.

(** The value stored in [instanceStats]. *)
Record InstanceStats := mkStats {
  createdAt : Z;
  requestCount : Z;
  activeRequests : Z;
  errors : Z;
  lastUsed : Z
}.

(** [{ id: instanceId, instance }]; the Innertube client is a handle. *)
Record Instance := mkInstance {
  id : string;
  instance : nat
}.

#[export] Instance Instance_eq_dec : EqDecision Instance.
Proof. solve_decision. Defined.

Record t := mk {
  instances : list Instance;
  instanceStats : gmap string InstanceStats;
  initPromise : bool;        (* [true] once [this.initPromise] is set *)
  isInitializing : bool
}.

(** [constructor()] *)
Definition new : t :=
  {| instances := []; instanceStats := ∅;
     initPromise := false; isInitializing := false |}.

Definition with_instances (l : list Instance) (p : t) : t :=
  {| instances := l; instanceStats := instanceStats p;
     initPromise := initPromise p; isInitializing := isInitializing p |}.

Definition with_stats (m : gmap string InstanceStats) (p : t) : t :=
  {| instances := instances p; instanceStats := m;
     initPromise := initPromise p; isInitializing := isInitializing p |}.

(** The statistics [createInstance] registers for a new instance. *)
Definition freshStats (now : Z) : InstanceStats :=
  {| createdAt := now; requestCount := 0; activeRequests := 0;
     errors := 0; lastUsed := now |}.

(** [createInstance()], the part after [await Innertube.create(...)]
    has succeeded with client [client]; [instanceId] is the generated
    [yt_<time>_<random>] string. *)
Definition createInstance (instanceId : string) (client : nat) (now : Z)
    (p : t) : Instance * t :=
  ({| id := instanceId; instance := client |},
   with_stats (<[instanceId := freshStats now]> (instanceStats p)) p).

(** [release(instanceId, hadError)] *)
Definition release (instanceId : string) (hadError : bool) (p : t) : t :=
  match instanceStats p !! instanceId with
  | Some stats =>
      with_stats
        (<[instanceId :=
             {| createdAt := createdAt stats;
                requestCount := requestCount stats + 1;
                activeRequests := Z.max 0 (activeRequests stats - 1);
                errors := if hadError then errors stats + 1 else errors stats;
                lastUsed := lastUsed stats |}]> (instanceStats p)) p
  | None => p
  end.

(** [needsRefresh] of [getInstance]. *)
Definition needsRefresh (now : Z) (stats : InstanceStats) : bool :=
  (CONFIG.INSTANCE_MAX_REQUESTS <=? requestCount stats)
  || (CONFIG.INSTANCE_MAX_AGE <=? now - createdAt stats).

(** [loadScore = activeRequests + errors * 0.5], kept exact by scaling
    with two; only comparisons of scores are made. *)
Definition loadScore2 (stats : InstanceStats) : Z :=
  2 * activeRequests stats + errors stats.

(** The locals of the selection loop of [getInstance]: [bestInstance],
    [lowestLoad] ([None] is [Infinity]) and the instances handed to
    [refreshInstance] on the way. *)
Record Round := mkRound {
  bestInstance : option Instance;
  lowestLoad : option Z;
  refreshCalls : list string
}.

Definition belowLoad (score : Z) (lowest : option Z) : bool :=
  match lowest with
  | None => true
  | Some l => score <? l
  end.

(** One iteration of [for (const inst of this.instances)]. *)
Definition roundStep (now : Z) (m : gmap string InstanceStats)
    (r : Round) (inst : Instance) : Round :=
  match m !! id inst with
  | None => r
  | Some stats =>
      if CONFIG.MAX_REQUESTS_PER_INSTANCE <=? activeRequests stats then r
      else if needsRefresh now stats && (activeRequests stats =? 0) then
        {| bestInstance := bestInstance r; lowestLoad := lowestLoad r;
           refreshCalls := refreshCalls r ++ [id inst] |}
      else if belowLoad (loadScore2 stats) (lowestLoad r) then
        {| bestInstance := Some inst; lowestLoad := Some (loadScore2 stats);
           refreshCalls := refreshCalls r |}
      else r
  end.

Definition selectionLoop (now : Z) (p : t) : Round :=
  fold_left (roundStep now (instanceStats p)) (instances p)
    {| bestInstance := None; lowestLoad := None; refreshCalls := [] |}.

(** [this.instances.findIndex(i => i.id === instanceId)] *)
Fixpoint findIndex (instanceId : string) (l : list Instance) : option nat :=
  match l with
  | [] => None
  | i :: l' =>
      if decide (id i = instanceId) then Some 0%nat
      else S <$> findIndex instanceId l'
  end.

(** The pool together with what is in flight around it. *)
Record Sys := mkSys {
  pool : t;
  (** [createInstance()] calls of [initialize] not yet settled *)
  creating : nat;
  (** [refreshInstance] calls waiting in [await this.createInstance()]:
      the id to retire and the index found before the [await] *)
  refreshing : list (string * nat);
  (** tasks whose [getInstance()] has returned an instance and whose
      [acquire()] has not resumed yet after [await this.getInstance()] *)
  selected : list (nat * Instance)
}.

Definition start : Sys :=
  {| pool := new; creating := 0%nat; refreshing := []; selected := [] |}.

Definition with_pool (p : t) (s : Sys) : Sys :=
  {| pool := p; creating := creating s; refreshing := refreshing s;
     selected := selected s |}.

(** [initialize()] up to its first [await]. *)
Definition initialize (s : Sys) : Sys :=
  if initPromise (pool s) then s
  else if (CONFIG.POOL_SIZE <=? length (instances (pool s)))%nat then s
  else
    {| pool := {| instances := instances (pool s);
                  instanceStats := instanceStats (pool s);
                  initPromise := true; isInitializing := true |};
       creating := CONFIG.POOL_SIZE;
       refreshing := refreshing s; selected := selected s |}.

(** A [createInstance()] promise of [initialize] settles: [Some] is the
    [.then] branch (the instance is pushed), [None] the [.catch] branch.
    When the last one settles, [Promise.allSettled] resumes the
    initializer, which clears [isInitializing]. *)
Definition created (r : option (string * nat)) (now : Z) (s : Sys) : Sys :=
  match creating s with
  | O => s
  | S n =>
      let p1 :=
        match r with
        | Some (instanceId, client) =>
            let '(inst, p') := createInstance instanceId client now (pool s) in
            with_instances (instances p' ++ [inst]) p'
        | None => pool s
        end in
      let p2 :=
        match n with
        | O => {| instances := instances p1; instanceStats := instanceStats p1;
                  initPromise := initPromise p1; isInitializing := false |}
        | S _ => p1
        end in
      {| pool := p2; creating := n; refreshing := refreshing s;
         selected := selected s |}
  end.

(** The settled value of one pass through [getInstance] after
    [await this.initialize()]. *)
Inductive RoundResult :=
| RThrow                       (* 'No YouTube instances available' *)
| RFound (inst : Instance)     (* [return bestInstance] *)
| RBusy.                       (* wait 100 ms and call [getInstance] again *)

(** [refreshInstance(instanceId)] up to [await this.createInstance()]. *)
Definition refreshInstance (instanceId : string) (s : Sys) : Sys :=
  match findIndex instanceId (instances (pool s)) with
  | None => s
  | Some index =>
      {| pool := pool s; creating := creating s;
         refreshing := refreshing s ++ [(instanceId, index)];
         selected := selected s |}
  end.

(** Whether [await this.initialize()] has something settled to resume
    from. *)
Definition initialized (s : Sys) : bool :=
  (initPromise (pool s) && (creating s =? 0)%nat)
  || (negb (initPromise (pool s))
      && (CONFIG.POOL_SIZE <=? length (instances (pool s)))%nat).

(** [getInstance()] from the resumption after [await this.initialize()]
    to its [return], [throw] or [await new Promise(setTimeout 100)]. *)
Definition getInstanceRound (now : Z) (s : Sys) : RoundResult * Sys :=
  match instances (pool s) with
  | [] => (RThrow, s)
  | _ :: _ =>
      let r := selectionLoop now (pool s) in
      let s' := fold_left (fun s i => refreshInstance i s) (refreshCalls r) s in
      match bestInstance r with
      | Some inst => (RFound inst, s')
      | None => (RBusy, s')
      end
  end.

(** [acquire()] after [await this.getInstance()] has produced [inst]. *)
Definition acquireResume (inst : Instance) (now : Z) (p : t) : t :=
  match instanceStats p !! id inst with
  | Some stats =>
      with_stats
        (<[id inst :=
             {| createdAt := createdAt stats;
                requestCount := requestCount stats;
                activeRequests := activeRequests stats + 1;
                errors := errors stats;
                lastUsed := now |}]> (instanceStats p)) p
  | None => p
  end.

(** [refreshInstance] after [await this.createInstance()]: [Some] is a
    new instance, [None] the [catch] branch. *)
Definition refreshed (oldId : string) (index : nat)
    (r : option (string * nat)) (now : Z) (p : t) : t :=
  match r with
  | None => p
  | Some (instanceId, client) =>
      let '(newInst, p1) := createInstance instanceId client now p in
      let p2 := with_stats (delete oldId (instanceStats p1)) p1 in
      with_instances (<[index := newInst]> (instances p2)) p2
  end.

Fixpoint removeFirst (task : nat) (l : list (nat * Instance))
    : option Instance * list (nat * Instance) :=
  match l with
  | [] => (None, [])
  | (t', i) :: l' =>
      if decide (t' = task) then (Some i, l')
      else let '(found, rest) := removeFirst task l' in (found, (t', i) :: rest)
  end.

(** The atomic segments out of which every execution is made. *)
Inductive segment :=
| SInitialize                                        (* a call of [initialize()] *)
| SCreated (r : option (string * nat)) (now : Z)     (* an initial [createInstance] settles *)
| SGetInstance (task : nat) (now : Z)                (* [getInstance] resumes and selects *)
| SAcquireResume (task : nat) (now : Z)              (* [acquire] resumes with its instance *)
| SRelease (instanceId : string) (hadError : bool)   (* a call of [release] *)
| SRefreshed (k : nat) (r : option (string * nat)) (now : Z).
                                     (* the [k]-th pending refresh settles *)

Definition step (g : segment) (s : Sys) : Sys :=
  match g with
  | SInitialize => initialize s
  | SCreated r now => created r now s
  | SGetInstance task now =>
      if initialized s then
        match getInstanceRound now s with
        | (RFound inst, s') =>
            {| pool := pool s'; creating := creating s';
               refreshing := refreshing s';
               selected := selected s' ++ [(task, inst)] |}
        | (_, s') => s'
        end
      else s
  | SAcquireResume task now =>
      match removeFirst task (selected s) with
      | (Some inst, rest) =>
          {| pool := acquireResume inst now (pool s); creating := creating s;
             refreshing := refreshing s; selected := rest |}
      | (None, _) => s
      end
  | SRelease instanceId hadError =>
      with_pool (release instanceId hadError (pool s)) s
  | SRefreshed k r now =>
      match refreshing s !! k with
      | None => s
      | Some (oldId, index) =>
          {| pool := refreshed oldId index r now (pool s);
             creating := creating s; refreshing := delete k (refreshing s);
             selected := selected s |}
      end
  end.

(** A schedule, oldest segment first. *)
Definition run (gs : list segment) (s : Sys) : Sys :=
  fold_left (fun s g => step g s) gs s.

(** What the size bound rests on: instances are only pushed by the
    [POOL_SIZE] creations that [initialize] starts, and it starts them
    once. *)
Definition sizeInv (s : Sys) : Prop :=
  (length (instances (pool s)) + creating s <= CONFIG.POOL_SIZE)%nat /\
  (initPromise (pool s) = false ->
   creating s = 0%nat /\ instances (pool s) = []).

(** Schedules in which no other segment comes between the selection of
    a [getInstance] and the counting of its [acquire]. *)
Definition acquirePart (g : segment) : bool :=
  match g with
  | SGetInstance _ _ | SAcquireResume _ _ => true
  | _ => false
  end.

Inductive atomicAcquires : list segment -> Prop :=
| atomic_nil : atomicAcquires []
| atomic_acquire task now now' gs :
    atomicAcquires gs ->
    atomicAcquires (SGetInstance task now :: SAcquireResume task now' :: gs)
| atomic_other g gs :
    acquirePart g = false -> atomicAcquires gs -> atomicAcquires (g :: gs).

(** No acquire is half-way, and every counter is within the cap. *)
Definition capInv (s : Sys) : Prop :=
  selected s = [] /\
  forall i st, instanceStats (pool s) !! i = Some st ->
    activeRequests st <= CONFIG.MAX_REQUESTS_PER_INSTANCE.

(** The outcome of a call of [getInstance()]. *)
Inductive GetResult :=
| Resolved (inst : Instance)
| Rejected
| Initializing   (* still in [await this.initialize()] *)
| Polling.       (* still in the wait-and-retry recursion *)

(** [getInstance()], followed for at most [polls] passes.  Every pass
    begins with [await this.initialize()]: the call of [initialize()]
    runs at once, and the pass goes on only when the promise it awaits
    has settled; until then the call is [Initializing].  [others now] is
    what the rest of the program does during the 100 ms wait that
    starts at [now]. *)
Fixpoint getInstance (polls : nat) (others : Z -> list segment)
    (now : Z) (s : Sys) : GetResult * Sys :=
  match polls with
  | O => (Polling, s)
  | S polls' =>
      let s0 := initialize s in
      if initialized s0 then
        match getInstanceRound now s0 with
        | (RThrow, s') => (Rejected, s')
        | (RFound inst, s') => (Resolved inst, s')
        | (RBusy, s') =>
            getInstance polls' others (now + 100) (run (others now) s')
        end
      else (Initializing, s0)
  end.

End YouTubeInstancePool.

(** [const instancePool = new YouTubeInstancePool()] *)
Definition instancePool : YouTubeInstancePool.Sys := YouTubeInstancePool.start.

(** ** Scenarios on the pool *)

Module Scenario.
Import YouTubeInstancePool.

(** Five requests reach the pool while it is still being created (the
    first requests after start-up, [POOL_SIZE] creations in flight).
    All of them wait on the same [initPromise]; when it resolves, the
    five [getInstance] calls resume one after the other, and each
    [acquire] resumes only after the [getInstance] it awaits has
    returned, that is, after all five selections. *)
Definition coldStart : list segment :=
  [ SInitialize;
    SCreated (Some ("yt_a", 1%nat)) 10; SCreated (Some ("yt_b", 2%nat)) 11;
    SCreated (Some ("yt_c", 3%nat)) 12; SCreated (Some ("yt_d", 4%nat)) 13;
    SCreated (Some ("yt_e", 5%nat)) 14;
    SGetInstance 1 20; SGetInstance 2 20; SGetInstance 3 20;
    SGetInstance 4 20; SGetInstance 5 20;
    SAcquireResume 1 20; SAcquireResume 2 20; SAcquireResume 3 20;
    SAcquireResume 4 20; SAcquireResume 5 20 ].

(** A pool in which one creation succeeded at time 0 and four failed. *)
Definition oneInstance : Sys :=
  run [ SInitialize; SCreated (Some ("yt_a", 1%nat)) 0; SCreated None 0;
        SCreated None 0; SCreated None 0; SCreated None 0 ] start.

(** A pool all of whose creations failed. *)
Definition noInstance : Sys :=
  run [ SInitialize; SCreated None 0; SCreated None 0; SCreated None 0;
        SCreated None 0; SCreated None 0 ] start.

(** The upstream is unreachable: every pending refresh fails during the
    wait. *)
Definition refreshFails (now : Z) : list segment := [ SRefreshed 0 None now ].

(** Nothing else runs during a wait. *)
Definition quiet (now : Z) : list segment := [].

(** A sequence of [release] calls. *)
Definition releaseAll (calls : list (string * bool)) (p : t) : t :=
  fold_left (fun p c => release (fst c) (snd c) p) calls p.

(** How many of the calls name [instanceId], and how many of those
    report an error. *)
Definition callsOn (instanceId : string) (calls : list (string * bool)) : Z :=
  Z.of_nat (length (filter (fun c => fst c = instanceId) calls)).

Definition errorsOn (instanceId : string) (calls : list (string * bool)) : Z :=
  Z.of_nat (length (filter (fun c => fst c = instanceId /\ snd c = true) calls)).

End Scenario.

(** ** executeWithInstance *)

Module Executor.
Import YouTubeInstancePool.

(** What [catch (error)] receives: an [Error] with its [message]. *)
Record Error := mkError { message : string }.

(** The value an operation resolves with is not inspected. *)
Definition Value := nat.

Record Options := mkOptions {
  retries : nat;
  timeout : Z
}.

(** [options = {}]: the defaults of the destructuring. *)
Definition defaultOptions : Options :=
  {| retries := CONFIG.MAX_RETRIES; timeout := CONFIG.REQUEST_TIMEOUT |}.

(** How [await instancePool.acquire()] ends. *)
Inductive PoolReply :=
| Acquired (inst : Instance)
| AcquireThrew (e : Error)      (* 'No YouTube instances available' *)
| AcquireNever.                 (* [getInstance] keeps polling *)

(** How [await Promise.race([operation(inst.instance), timer])] ends;
    the timer rejects with 'Request timeout' after [timeout] ms, so the
    race always settles. *)
Inductive RaceReply :=
| Fulfilled (result : Value)
| Failed (e : Error).

(** What the rest of the system answers to one invocation. *)
Record Env := mkEnv {
  (** whether [await requestSemaphore.acquire()] ever resumes *)
  semGranted : bool;
  (** the reply to [instancePool.acquire()] when [attempts] has the
      given value *)
  poolAcquire : nat -> PoolReply;
  (** the reply to the race on that attempt with that instance *)
  race : nat -> Instance -> RaceReply
}.

(** What one invocation does to the shared objects, in order. *)
Inductive Event :=
| SemAcquire                                   (* [requestSemaphore.acquire()] *)
| SemRelease                                   (* [requestSemaphore.release()] *)
| PoolAcquire (inst : Instance)                (* [instancePool.acquire()] gave [inst] *)
| Operation (client : nat) (timeout : Z)       (* [operation(inst.instance)] raced *)
| PoolRelease (instanceId : string) (hadError : bool)
| Delay (ms : Z).                              (* [setTimeout(r, RETRY_DELAY * attempts)] *)

Inductive Outcome :=
| Returned (result : Value)
| Threw (lastError : option Error)   (* [None]: [lastError] was never assigned *)
| Hung                               (* an [await] that never resumes *)
| OutOfFuel.

(** [while (attempts <= retries) { ... } throw lastError], the body of
    the outer [try].  [fuel] bounds the iterations followed. *)
Fixpoint attemptLoop (fuel : nat) (env : Env) (o : Options)
    (attempts : nat) (lastError : option Error) : list Event * Outcome :=
  match fuel with
  | O => ([], OutOfFuel)
  | S fuel' =>
      if (attempts <=? retries o)%nat then
        match poolAcquire env attempts with
        | AcquireNever => ([], Hung)
        | AcquireThrew e => ([], Threw (Some e))
        | Acquired inst =>
            match race env attempts inst with
            | Fulfilled result =>
                ([PoolAcquire inst; Operation (instance inst) (timeout o);
                  PoolRelease (id inst) false],
                 Returned result)
            | Failed error =>
                let attempts' := S attempts in
                let backoff :=
                  if (attempts' <=? retries o)%nat
                  then [Delay (CONFIG.RETRY_DELAY * Z.of_nat attempts')]
                  else [] in
                let '(rest, out) :=
                  attemptLoop fuel' env o attempts' (Some error) in
                ([PoolAcquire inst; Operation (instance inst) (timeout o);
                  PoolRelease (id inst) true] ++ backoff ++ rest,
                 out)
            end
        end
      else ([], Threw lastError)
  end.

(** [executeWithInstance(operation, options)].  The [finally] block runs
    when the [try] block is left, by [return] or by [throw]. *)
Definition executeWithInstance (env : Env) (o : Options)
    : list Event * Outcome :=
  if semGranted env then
    let '(body, out) := attemptLoop (S (S (retries o))) env o 0%nat None in
    match out with
    | Returned _ | Threw _ => (SemAcquire :: body ++ [SemRelease], out)
    | Hung | OutOfFuel => (SemAcquire :: body, out)
    end
  else ([SemAcquire], Hung).

Definition isSemRelease (e : Event) : bool :=
  match e with SemRelease => true | _ => false end.

Definition isSemAcquire (e : Event) : bool :=
  match e with SemAcquire => true | _ => false end.

Definition isOperation (e : Event) : bool :=
  match e with Operation _ _ => true | _ => false end.

Definition isPoolAcquire (e : Event) : bool :=
  match e with PoolAcquire _ => true | _ => false end.

Definition isPoolRelease (hadError : bool) (e : Event) : bool :=
  match e with PoolRelease _ h => Bool.eqb h hadError | _ => false end.

Definition count (p : Event -> bool) (l : list Event) : nat :=
  length (List.filter p l).

(** The events of attempt number [k] of an invocation whose attempts
    all fail: [insts k] is the handle acquired, and a back-off follows
    unless it was the last attempt. *)
Definition failedAttempt (o : Options) (insts : nat -> Instance) (k : nat)
    : list Event :=
  [PoolAcquire (insts k); Operation (instance (insts k)) (timeout o);
   PoolRelease (id (insts k)) true]
  ++ (if (S k <=? retries o)%nat
      then [Delay (CONFIG.RETRY_DELAY * Z.of_nat (S k))] else []).

(** What the events of an invocation do to the semaphore and the pool
    when nothing else runs in between. *)
Definition perform (now : Z) (e : Event)
    (w : RequestSemaphore.t * YouTubeInstancePool.t)
    : RequestSemaphore.t * YouTubeInstancePool.t :=
  match e with
  | SemAcquire => (snd (RequestSemaphore.acquire 0%nat (fst w)), snd w)
  | SemRelease => (snd (RequestSemaphore.release (fst w)), snd w)
  | PoolAcquire inst => (fst w, acquireResume inst now (snd w))
  | PoolRelease instanceId hadError =>
      (fst w, release instanceId hadError (snd w))
  | Operation _ _ | Delay _ => w
  end.

Definition replay (now : Z) (events : list Event)
    (w : RequestSemaphore.t * YouTubeInstancePool.t)
    : RequestSemaphore.t * YouTubeInstancePool.t :=
  fold_left (fun w e => perform now e w) events w.

End Executor.

Module ExecutorScenario.
Import YouTubeInstancePool Executor.

Definition handle : Instance := {| id := "yt_a"; instance := 1%nat |}.

Definition timeoutError : Error := {| message := "Request timeout" |}.

Definition noInstanceError : Error :=
  {| message := "No YouTube instances available" |}.

(** Every attempt gets the same handle and times out. *)
Definition alwaysTimesOut : Env :=
  {| semGranted := true;
     poolAcquire := fun _ => Acquired handle;
     race := fun _ _ => Failed timeoutError |}.

(** The pool is empty: the first [acquire] throws. *)
Definition emptyPool : Env :=
  {| semGranted := true;
     poolAcquire := fun _ => AcquireThrew noInstanceError;
     race := fun _ _ => Fulfilled 0%nat |}.

(** Two time-outs, then success. *)
Definition thirdTimeLucky : Env :=
  {| semGranted := true;
     poolAcquire := fun _ => Acquired handle;
     race := fun k _ => if (k <? 2)%nat then Failed timeoutError
                        else Fulfilled 7%nat |}.

End ExecutorScenario.

(** ** JavaScript values as the handlers see them *)

Module Js.

(** A value is a primitive, a function, or a reference to an object of
    the heap.  Objects are reached by reference, so a payload may share
    nodes and may contain cycles. *)
Inductive Val :=
| Undefined
| Null
| Bool (b : bool)
| Num (n : Z)
| Str (s : string)
| Func
| Ref (l : positive).

(** An object is an array or a record; the fields of a record are
    listed in key-iteration order ([Object.keys]). *)
Inductive Obj :=
| Arr (elems : list Val)
| Rec (fields : list (string * Val)).

#[export] Instance Val_eq_dec : EqDecision Val.
Proof. solve_decision. Defined.

#[export] Instance Val_countable : Countable Val.
Proof.
  refine (inj_countable'
    (fun v => match v with
              | Undefined => inl (inl ())
              | Null => inl (inr ())
              | Bool b => inr (inl b)
              | Num n => inr (inr (inl n))
              | Str s => inr (inr (inr (inl s)))
              | Func => inr (inr (inr (inr (inl ()))))
              | Ref l => inr (inr (inr (inr (inr l))))
              end)
    (fun x => match x with
              | inl (inl _) => Undefined
              | inl (inr _) => Null
              | inr (inl b) => Bool b
              | inr (inr (inl n)) => Num n
              | inr (inr (inr (inl s))) => Str s
              | inr (inr (inr (inr (inl _)))) => Func
              | inr (inr (inr (inr (inr l)))) => Ref l
              end) _).
  intros []; reflexivity.
Defined.

Abbreviation Heap := (gmap positive Obj).

(** What a [throw] carries as far as the handlers look: a message. *)
Inductive Res (A : Type) :=
| Ok (a : A)
| Throw (msg : string).
Arguments Ok {A} a.
Arguments Throw {A} msg.

(** ToBoolean *)
Definition truthy (v : Val) : bool :=
  match v with
  | Undefined | Null => false
  | Bool b => b
  | Num n => negb (n =? 0)
  | Str s => negb (String.eqb s "")
  | Func | Ref _ => true
  end.

(** [a || b] when [b] is already a value. *)
Definition or (a b : Val) : Val := if truthy a then a else b.

Definition nullish (v : Val) : bool :=
  match v with Undefined | Null => true | _ => false end.

Definition isString (v : Val) : bool :=
  match v with Str _ => true | _ => false end.

Definition isFunction (v : Val) : bool :=
  match v with Func => true | _ => false end.

(** [v && typeof v === 'object'], for a value that is not [null]. *)
Definition isObject (v : Val) : bool :=
  match v with Ref _ => true | _ => false end.

(** The object a reference denotes; a reference outside the heap
    behaves as an empty record. *)
Definition deref (h : Heap) (l : positive) : Obj :=
  match h !! l with
  | Some o => o
  | None => Rec []
  end.

Definition isArray (h : Heap) (v : Val) : bool :=
  match v with
  | Ref l => match deref h l with Arr _ => true | Rec _ => false end
  | _ => false
  end.

Fixpoint assoc (k : string) (fs : list (string * Val)) : Val :=
  match fs with
  | [] => Undefined
  | (k', v) :: fs' => if String.eqb k' k then v else assoc k fs'
  end.

(** [v?.k]: never throws. *)
Definition field (h : Heap) (v : Val) (k : string) : Val :=
  match v with
  | Ref l =>
      match deref h l with
      | Rec fs => assoc k fs
      | Arr xs => if String.eqb k "length" then Num (Z.of_nat (length xs))
                  else Undefined
      end
  | Str s => if String.eqb k "length" then Num (Z.of_nat (String.length s))
             else Undefined
  | _ => Undefined
  end.

(** [v.k]: a TypeError on [undefined] and [null]. *)
Definition get (h : Heap) (v : Val) (k : string) : Res Val :=
  if nullish v then Throw "Cannot read properties of undefined"
  else Ok (field h v k).

(** [s.length] of a string. *)
Definition strlen (v : Val) : Z :=
  match v with
  | Str s => Z.of_nat (String.length s)
  | _ => 0
  end.

(** [key.startsWith('_')] *)
Definition startsWithUnderscore (k : string) : bool :=
  match k with
  | String c _ => Ascii.eqb c "_"%char
  | EmptyString => false
  end.

(** The one-character strings a string iterates over. *)
Fixpoint chars (s : string) : list Val :=
  match s with
  | EmptyString => []
  | String c s' => Str (String c EmptyString) :: chars s'
  end.

(** [for (const x of v)] and [...v]: the values iterated, or a
    TypeError when [v] is not iterable. *)
Definition iterate (h : Heap) (v : Val) : Res (list Val) :=
  match v with
  | Ref l =>
      match deref h l with
      | Arr xs => Ok xs
      | Rec _ => Throw "is not iterable"
      end
  | Str s => Ok (chars s)
  | _ => Throw "is not iterable"
  end.

End Js.

(** ** findContinuationToken *)

Module Walker.
Import Js.

(** [for (...) { const token = f(x); if (token) return token; }] followed
    by [return null]. *)
Fixpoint firstToken (f : Val -> Val) (xs : list Val) : Val :=
  match xs with
  | [] => Null
  | x :: xs' => let token := f x in
                if truthy token then token else firstToken f xs'
  end.

(** The two walkers of the repository differ in the test a node passes
    on its own ([self]) and in the keys they leave out ([skip]). *)
Record Variant := mkVariant {
  self : Heap -> Val -> option Val;
  skip : string * Val -> bool
}.

(** The values the loop over an object descends into, in order. *)
Definition children (w : Variant) (h : Heap) (l : positive) : list Val :=
  match deref h l with
  | Arr items => items
  | Rec fields => map snd (List.filter (fun kv => negb (skip w kv)) fields)
  end.

(** The walker with [budget = 16 - depth] levels left. *)
Fixpoint walk (w : Variant) (budget : nat) (h : Heap) (obj : Val) : Val :=
  match budget with
  | O => Null
  | S budget' =>
      match obj with
      | Ref l =>
          match self w h obj with
          | Some token => token
          | None => firstToken (walk w budget' h) (children w h l)
          end
      | _ => Null
      end
  end.

(** The three tests of the walker of the channel-video cache. *)
Definition selfVideos (h : Heap) (obj : Val) : option Val :=
  let token := field h obj "token" in
  if truthy token && isString token && (20 <? strlen token) then Some token
  else
    let continuation := field h obj "continuation" in
    if truthy continuation && isString continuation then Some continuation
    else
      let commandToken :=
        field h (field h obj "continuationCommand") "token" in
      if truthy commandToken then Some commandToken else None.

Definition videosWalker : Variant :=
  {| self := selfVideos;
     skip := fun kv => startsWithUnderscore (fst kv) || isFunction (snd kv) |}.

(** [findContinuationToken(obj, depth = 0)] of the channel-video cache. *)
Definition findContinuationToken (h : Heap) (obj : Val) (depth : nat) : Val :=
  walk videosWalker (16 - depth) h obj.

(** The two tests of the walker inside [getPlaylistsViaBrowse]. *)
Definition selfPlaylists (h : Heap) (obj : Val) : option Val :=
  let token := field h obj "token" in
  if truthy token && isString token && (20 <? strlen token) then Some token
  else
    let continuation := field h obj "continuation" in
    if truthy continuation && isString continuation
       && (20 <? strlen continuation)
    then Some continuation
    else None.

Definition playlistsWalker : Variant :=
  {| self := selfPlaylists;
     skip := fun kv => startsWithUnderscore (fst kv) |}.

(** [findContinuationToken] of [getPlaylistsViaBrowse]. *)
Definition findContinuationTokenBrowse (h : Heap) (obj : Val) (depth : nat)
    : Val :=
  walk playlistsWalker (16 - depth) h obj.

(** The order of visit as the design document words it, written out
    on the payload itself: the node, then the elements of an array by
    index, or the values of a mapping in key order without the keys
    that start with an underscore, each one followed by its own
    subtree; nothing beyond the depth bound. *)
Fixpoint visitOrder (budget : nat) (h : Heap) (obj : Val) : list Val :=
  match budget with
  | O => []
  | S budget' =>
      match obj with
      | Ref l =>
          obj ::
          match deref h l with
          | Arr items => flat_map (visitOrder budget' h) items
          | Rec fields =>
              flat_map
                (fun kv => if startsWithUnderscore (fst kv) then []
                           else visitOrder budget' h (snd kv))
                fields
          end
      | _ => []
      end
  end.

(** The first visited node that passes the test, and its token. *)
Fixpoint firstMatch (w : Variant) (h : Heap) (nodes : list Val) : Val :=
  match nodes with
  | [] => Null
  | n :: nodes' =>
      match self w h n with
      | Some token => token
      | None => firstMatch w h nodes'
      end
  end.

(** A test is sound when the token it returns is truthy, so that
    [if (token) return token] passes it on. *)
Definition soundSelf (w : Variant) : Prop :=
  forall h n token, self w h n = Some token -> truthy token = true.

(** A heap without the private fields of its records. *)
Definition dropPrivate (o : Obj) : Obj :=
  match o with
  | Arr xs => Arr xs
  | Rec fs => Rec (List.filter (fun kv => negb (startsWithUnderscore (fst kv))) fs)
  end.

Definition withoutPrivate (h : Heap) : Heap := dropPrivate <$> h.

(** A payload whose only object refers to itself. *)
Definition cyclic : Heap := {[ 1%positive := Rec [("next", Ref 1)] ]}.

(** [n + 1] nested records: location 1 carries a long token, location
    [k + 1] holds location [k] under the key [inner]. *)
Fixpoint chain (n : nat) : Heap :=
  match n with
  | O => {[ 1%positive := Rec [("token", Str "0123456789abcdefghijklmnop")] ]}
  | S n' => <[ Pos.of_nat (S (S n')) :=
                 Rec [("inner", Ref (Pos.of_nat (S n')))] ]> (chain n')
  end.

(** The outermost record of [chain n]; the token lies [n] levels below. *)
Definition chainRoot (n : nat) : Val := Ref (Pos.of_nat (S n)).

(** A payload with siblings: an array of three records.  The first
    refers to a token only under a private key; the second holds a
    plain title, then a record with a token, then another one; the
    third is itself a record with a token. *)
Definition siblings : Heap :=
  <[ 1%positive := Arr [Ref 2; Ref 3; Ref 4] ]>
  (<[ 2%positive := Rec [("_cursor", Ref 4); ("title", Str "none")] ]>
  (<[ 3%positive := Rec [("title", Str "a"); ("next", Ref 5);
                         ("last", Ref 4)] ]>
  (<[ 4%positive := Rec [("token", Str "second-token-0123456789")] ]>
  {[ 5%positive := Rec [("token", Str "first-token-00123456789")] ]}))).

End Walker.

(** ** The channel-video cache (channelallvideosHandlers.js) *)

Module ChannelVideos.
Import Js.

(** What the extraction relies on without fixing it: the
    presentation fields [formatVideo] derives from a raw item (title,
    thumbnail, duration, views, published, description), which may
    throw on an odd shape, and the depth of nested calls the engine
    allows before it throws a RangeError. *)
Class Runtime := {
  Fields : Type;
  formatFields : Heap -> Val -> Res Fields;
  stackLimit : nat
}.

Section WithRuntime.
Context {RT : Runtime}.

(** The object [formatVideo] returns. *)
Record Video := mkVideo {
  id : string;
  fields : Fields
}.

(** [/^[a-zA-Z0-9_-]+$/] on one character. *)
Definition idChar (c : ascii) : bool :=
  let n := nat_of_ascii c in
  ((97 <=? n) && (n <=? 122) || (65 <=? n) && (n <=? 90)
   || (48 <=? n) && (n <=? 57) || (n =? 95) || (n =? 45))%nat.

Fixpoint idChars (s : string) : bool :=
  match s with
  | EmptyString => true
  | String c s' => idChar c && idChars s'
  end.

(** The two early returns of [formatVideo]: a string of 11 characters
    of the id alphabet. *)
Definition validVideoId (videoId : Val) : option string :=
  match videoId with
  | Str s =>
      if truthy (Str s) && (String.length s =? 11)%nat && idChars s
      then Some s else None
  | _ => None
  end.

(** [formatVideo(v)]: [None] is [return null]. *)
Definition formatVideo (h : Heap) (v : Val) : Res (option Video) :=
  match get h v "id" with
  | Throw m => Throw m
  | Ok x =>
      let videoId := or (or x (field h v "video_id")) (field h v "videoId") in
      match validVideoId videoId with
      | None => Ok None
      | Some s =>
          match formatFields h v with
          | Throw m => Throw m
          | Ok f => Ok (Some {| id := s; fields := f |})
          end
      end
  end.

(** The objects an extraction mutates: the [seenIds] set it is given
    and its local array [videos]. *)
Record St := mkSt {
  seen : gset Val;
  out : list Video
}.

(** A piece of extraction code: it may throw, and what it did to
    [seenIds] before stays done. *)
Definition M (A : Type) : Type := St -> Res A * St.

Definition ret {A} (a : A) : M A := fun st => (Ok a, st).

Definition bind {A B} (m : M A) (k : A -> M B) : M B :=
  fun st => match m st with
            | (Ok a, st') => k a st'
            | (Throw msg, st') => (Throw msg, st')
            end.

Definition lift {A} (r : Res A) : M A := fun st => (r, st).

Definition when (b : bool) (m : M unit) : M unit := if b then m else ret tt.

(** [for (const x of xs) f(x)] *)
Fixpoint forEach (f : Val -> M unit) (xs : list Val) : M unit :=
  match xs with
  | [] => ret tt
  | x :: xs' => bind (f x) (fun _ => forEach f xs')
  end.

(** [for (const x of v) f(x)] for a value [v]. *)
Definition forOf (h : Heap) (v : Val) (f : Val -> M unit) : M unit :=
  bind (lift (iterate h v)) (forEach f).

(** [seenIds.has(id)] *)
Definition has (id : Val) : M bool := fun st => (Ok (bool_decide (id ∈ seen st)), st).

(** [seenIds.add(id); const formatted = formatVideo(v);
     if (formatted) videos.push(formatted);] *)
Definition addVideo (h : Heap) (id : Val) (v : Val) : M unit :=
  fun st =>
    let st1 := {| seen := {[ id ]} ∪ seen st; out := out st |} in
    match formatVideo h v with
    | Throw m => (Throw m, st1)
    | Ok None => (Ok tt, st1)
    | Ok (Some formatted) =>
        (Ok tt, {| seen := seen st1; out := out st1 ++ [formatted] |})
    end.

(** The body of the loops of methods 1 and 2 for the item [v]. *)
Definition considerItem (h : Heap) (v : Val) : M unit :=
  bind (lift (get h v "id")) (fun x =>
  let id := or x (field h v "video_id") in
  bind (has id) (fun known =>
  when (truthy id && negb known) (addVideo h id v))).

(** The test and push of method 3 for [v = item.content || item]. *)
Definition considerContent (h : Heap) (v : Val) : M unit :=
  let id := or (or (field h v "id") (field h v "video_id"))
               (field h v "videoId") in
  bind (has id) (fun known =>
  when (truthy id && negb known
        && truthy (or (field h v "title") (field h v "thumbnails")))
       (addVideo h id v)).

(** [processContents(contents)]; [stack] is the number of nested calls
    still allowed. *)
Fixpoint processContents (stack : nat) (h : Heap) (contents : Val) : M unit :=
  match stack with
  | O => lift (Throw "Maximum call stack size exceeded")
  | S stack' =>
      if isArray h contents then
        forOf h contents (fun item =>
          bind (lift (get h item "content")) (fun content =>
          bind (considerContent h (or content item)) (fun _ =>
          bind (when (truthy (field h item "contents"))
                  (processContents stack' h (field h item "contents")))
               (fun _ =>
          when (truthy (field h item "items"))
            (processContents stack' h (field h item "items"))))))
      else ret tt
  end.

(** Method 1: [data.videos]. *)
Definition fromVideos (h : Heap) (data : Val) : M unit :=
  bind (lift (get h data "videos")) (fun videos =>
  when (truthy videos && isArray h videos)
    (forOf h videos (considerItem h))).

(** Method 2: [data.current_tab?.content?.contents]. *)
Definition fromCurrentTab (h : Heap) (data : Val) : M unit :=
  let sections := field h (field h (field h data "current_tab") "content")
                    "contents" in
  when (truthy sections)
    (forOf h sections (fun section =>
       bind (lift (get h section "contents")) (fun contents =>
       let items := or contents (field h section "items") in
       when (truthy items)
         (forOf h items (fun item =>
            bind (lift (get h item "content")) (fun content =>
            considerItem h (or content item))))))).

(** Method 3: [data.contents]. *)
Definition fromContents (h : Heap) (data : Val) : M unit :=
  when (truthy (field h data "contents"))
    (processContents stackLimit h (field h data "contents")).

(** [extractVideosFromTab(data, seenIds)]: the array returned (or the
    exception) and [seenIds] afterwards. *)
Definition extractVideosFromTab (h : Heap) (data : Val) (seenIds : gset Val)
    : Res (list Video) * gset Val :=
  let '(r, st) :=
    bind (fromVideos h data) (fun _ =>
    bind (fromCurrentTab h data) (fun _ =>
    fromContents h data))
      {| seen := seenIds; out := [] |} in
  match r with
  | Ok _ => (Ok (out st), seen st)
  | Throw m => (Throw m, seen st)
  end.

(** [xs?.[0]] *)
Definition first (h : Heap) (v : Val) : Val :=
  match v with
  | Ref l => match deref h l with
             | Arr (x :: _) => x
             | Arr [] => Undefined
             | Rec fs => assoc "0" fs
             end
  | _ => Undefined
  end.

(** An object literal: a record at a location the payload does not
    use. *)
Definition literal (h : Heap) (fs : list (string * Val)) : Heap * Val :=
  let l := fresh (dom h) in (<[ l := Rec fs ]> h, Ref l).

(** [formatVideo({ id, ... })] on an object literal. *)
Definition addLiteral (h : Heap) (id : Val) (fs : list (string * Val))
    : M unit :=
  let '(h', videoData) := literal h (("id", id) :: fs) in
  addVideo h' id videoData.

(** The first block of [findVideos]: the node is a video itself. *)
Definition considerNode (h : Heap) (obj : Val) : M unit :=
  let id := or (or (field h obj "videoId") (field h obj "id"))
               (field h obj "video_id") in
  when (truthy id && isString id && (strlen id =? 11))
    (bind (has id) (fun known =>
     when (negb known
           && truthy (or (or (field h obj "title") (field h obj "thumbnail"))
                         (field h obj "thumbnails")))
       (addLiteral h id
          [ ("title", field h obj "title");
            ("thumbnails", or (field h (field h obj "thumbnail") "thumbnails")
                              (field h obj "thumbnails"));
            ("duration", or (or (field h obj "lengthText")
                                (field h obj "duration"))
                            (field h obj "length_text"));
            ("view_count", or (or (field h obj "viewCountText")
                                  (field h obj "view_count"))
                              (field h obj "shortViewCountText"));
            ("published", or (field h obj "publishedTimeText")
                             (field h obj "published"));
            ("description_snippet",
               or (or (field h obj "descriptionSnippet")
                      (field h obj "description_snippet"))
                  (field h obj "snippetText")) ]))).

(** The second and third blocks of [findVideos]: [vr] is
    [obj.richItemRenderer.content.videoRenderer] or
    [obj.gridVideoRenderer]; [duration] is what the literal gets as
    [duration]. *)
Definition considerRenderer (h : Heap) (vr : Val) (duration : Val) : M unit :=
  when (truthy vr)
    (let id := field h vr "videoId" in
     bind (has id) (fun known =>
     when (truthy id && negb known)
       (addLiteral h id
          [ ("title", field h vr "title");
            ("thumbnails", field h (field h vr "thumbnail") "thumbnails");
            ("duration", duration);
            ("view_count", or (field h vr "viewCountText")
                              (field h vr "shortViewCountText"));
            ("published", field h vr "publishedTimeText");
            ("description_snippet", field h vr "descriptionSnippet") ]))).

(** The values [findVideos] descends into. *)
Definition descendants (h : Heap) (l : positive) : list Val :=
  match deref h l with
  | Arr items => items
  | Rec fs =>
      map snd
        (List.filter
           (fun kv => negb (startsWithUnderscore (fst kv) || isFunction (snd kv))
                      && truthy (snd kv) && isObject (snd kv)) fs)
  end.

(** [findVideos(obj, depth)] with [budget = 16 - depth]. *)
Fixpoint findVideos (budget : nat) (h : Heap) (obj : Val) : M unit :=
  match budget with
  | O => ret tt
  | S budget' =>
      match obj with
      | Ref l =>
          bind (considerNode h obj) (fun _ =>
          bind (let vr := field h (field h (field h obj "richItemRenderer")
                                     "content") "videoRenderer" in
                considerRenderer h vr (field h vr "lengthText")) (fun _ =>
          bind (let vr := field h obj "gridVideoRenderer" in
                considerRenderer h vr
                  (or (field h vr "lengthText")
                      (field h (field h (first h (field h vr "thumbnailOverlays"))
                                  "thumbnailOverlayTimeStatusRenderer")
                         "text"))) (fun _ =>
          forEach (findVideos budget' h) (descendants h l))))
      | _ => ret tt
      end
  end.

(** [extractVideosFromBrowse(data, seenIds)] *)
Definition extractVideosFromBrowse (h : Heap) (data : Val)
    (seenIds : gset Val) : Res (list Video) * gset Val :=
  if truthy data then
    let '(r, st) := findVideos 16 h data {| seen := seenIds; out := [] |} in
    match r with
    | Ok _ => (Ok (out st), seen st)
    | Throw m => (Throw m, seen st)
    end
  else (Ok [], seenIds).

(** *** Cache entries *)

Record CacheEntry := mkEntry {
  videos : list Video;
  seenIds : gset Val;
  isComplete : bool;
  isFetching : bool;
  lastUpdate : Z;
  error : option string
}.

(** The object [initCache] stores for a new channel. *)
Definition emptyEntry (now : Z) : CacheEntry :=
  {| videos := []; seenIds := ∅; isComplete := false; isFetching := false;
     lastUpdate := now; error := None |}.

(** [initCache(channelId)]: the entry and the map afterwards. *)
Definition initCache (channelId : string) (now : Z)
    (channelCache : gmap string CacheEntry)
    : CacheEntry * gmap string CacheEntry :=
  match channelCache !! channelId with
  | Some entry => (entry, channelCache)
  | None => (emptyEntry now, <[ channelId := emptyEntry now ]> channelCache)
  end.

(** [getCacheStatus(channelId)]: [None] is [{ exists: false }]. *)
Definition getCacheStatus (channelId : string)
    (channelCache : gmap string CacheEntry)
    : option (nat * bool * bool * Z * option string) :=
  match channelCache !! channelId with
  | None => None
  | Some cache =>
      Some (length (videos cache), isComplete cache, isFetching cache,
            lastUpdate cache, error cache)
  end.

(** [clearCache(channelId = null)]: [if (channelId)] takes the empty
    string for no argument. *)
Definition clearCache (channelId : option string)
    (channelCache : gmap string CacheEntry) : gmap string CacheEntry :=
  match channelId with
  | Some c => if truthy (Str c) then delete c channelCache else ∅
  | None => ∅
  end.

(** *** The page loops of [backgroundFetchVideos] *)

(** A page as upstream returns it: a payload and the object to read. *)
Record Page := mkPage {
  heap : Heap;
  root : Val
}.

(** What the four loops differ in. *)
Record Loop := mkLoop {
  (** the literal of [count < cap] *)
  cap : nat;
  (** the literal of [consecutiveEmpty < N], for the loops that have it *)
  stuck : option nat;
  (** the extraction applied to the page *)
  extract : Page -> gset Val -> Res (list Video) * gset Val;
  (** what follows the merge: [None] is the [break] for want of a
      continuation, [Some] the settled [await] of the next page, asked
      for when [pageCount] pages have been merged *)
  next : Page -> nat -> option (Res Page)
}.

Inductive Stop :=
| NoContinuation          (* no cursor: [break] *)
| PageCap                 (* [count < cap] is false *)
| StuckPagination         (* [consecutiveEmpty < N] is false *)
| PaginationError         (* the continuation threw: [break] *)
| ExtractionThrew (msg : string).    (* leaves the loop by exception *)

Record LoopEnd := mkLoopEnd {
  entry : CacheEntry;
  stop : Stop;
  pageCount : nat;          (* pages merged *)
  continuations : nat;      (* continuation calls made *)
  emptyRun : nat;           (* [consecutiveEmpty] at the end *)
  merges : list CacheEntry  (* the entry after each merge, oldest first *)
}.

Definition belowStuck (L : Loop) (consecutiveEmpty : nat) : bool :=
  match stuck L with
  | Some n => (consecutiveEmpty <? n)%nat
  | None => true
  end.

(** [cache.videos.push(...pageVideos); cache.lastUpdate = Date.now()] *)
Definition merge (pageVideos : list Video) (seenIds' : gset Val) (now : Z)
    (c : CacheEntry) : CacheEntry :=
  {| videos := videos c ++ pageVideos; seenIds := seenIds';
     isComplete := isComplete c; isFetching := isFetching c;
     lastUpdate := now; error := error c |}.

Definition withSeen (seenIds' : gset Val) (c : CacheEntry) : CacheEntry :=
  {| videos := videos c; seenIds := seenIds';
     isComplete := isComplete c; isFetching := isFetching c;
     lastUpdate := lastUpdate c; error := error c |}.

(** [while (pageCount < cap && consecutiveEmpty < N) { ... }].
    [clock k] is [Date.now()] at the merge number [k] of the fetch;
    [done] lists the merges made so far. *)
Fixpoint pageLoop (fuel : nat) (L : Loop) (clock : nat -> Z) (page : Page)
    (pageCount consecutiveEmpty calls : nat) (c : CacheEntry)
    (done : list CacheEntry) : option LoopEnd :=
  match fuel with
  | O => None
  | S fuel' =>
      if (pageCount <? cap L)%nat && belowStuck L consecutiveEmpty then
        let pageCount := S pageCount in
        let beforeCount := length (videos c) in
        match extract L page (seenIds c) with
        | (Throw msg, seen') =>
            Some {| entry := withSeen seen' c; stop := ExtractionThrew msg;
                    pageCount := pageCount; continuations := calls;
                    emptyRun := consecutiveEmpty; merges := done |}
        | (Ok pageVideos, seen') =>
            let c' := merge pageVideos seen' (clock (length done)) c in
            let done' := done ++ [c'] in
            let newCount := (length (videos c') - beforeCount)%nat in
            let consecutiveEmpty :=
              if (newCount =? 0)%nat then S consecutiveEmpty else 0%nat in
            match next L page pageCount with
            | None =>
                Some {| entry := c'; stop := NoContinuation;
                        pageCount := pageCount; continuations := calls;
                        emptyRun := consecutiveEmpty; merges := done' |}
            | Some (Throw _) =>
                Some {| entry := c'; stop := PaginationError;
                        pageCount := pageCount; continuations := S calls;
                        emptyRun := consecutiveEmpty; merges := done' |}
            | Some (Ok page') =>
                pageLoop fuel' L clock page' pageCount consecutiveEmpty
                  (S calls) c' done'
            end
        end
      else
        Some {| entry := c;
                stop := if (pageCount <? cap L)%nat then StuckPagination
                        else PageCap;
                pageCount := pageCount; continuations := calls;
                emptyRun := consecutiveEmpty; merges := done |}
  end.

(** The longest run of merges in a row that added nothing, read off
    the entries after each merge: [len] is the number of videos before
    the first of them and [run] the number of such merges just before
    it. *)
Fixpoint emptyStreak (len run : nat) (ms : list CacheEntry) : nat :=
  match ms with
  | [] => run
  | m :: ms' =>
      Nat.max run
        (emptyStreak (length (videos m))
           (if (length (videos m) =? len)%nat then S run else 0%nat) ms')
  end.

(** A loop from its first page; [cap + 1] rounds of fuel cover the
    [cap] iterations and the last test of the guard. *)
Definition runLoop (L : Loop) (clock : nat -> Z) (first : Page)
    (c : CacheEntry) (done : list CacheEntry) : option LoopEnd :=
  pageLoop (S (cap L)) L clock first 0 0 0 c done.

(** What upstream (the client library) answers during one fetch.  The
    continuation replies are indexed by the number of pages merged when
    they are asked for. *)
Record Upstream := mkUpstream {
  (** [await youtube.getChannel(channelId)] then [await channel.getVideos()] *)
  getVideos : Res Page;
  (** [await videosTab.getContinuation()] *)
  videosContinuation : nat -> Res Page;
  (** [await youtube.actions.execute('/browse', { browseId, params })] *)
  browse : Res Page;
  (** [await youtube.actions.execute('/browse', { continuation })] *)
  browseContinuation : nat -> Val -> Res Page;
  (** [getChannel] then [channel.getShorts()], and its continuations *)
  getShorts : Res Page;
  shortsContinuation : nat -> Res Page;
  (** [getChannel] then [channel.getLiveStreams()], and its continuations *)
  getLiveStreams : Res Page;
  liveContinuation : nat -> Res Page;
  (** [Date.now()] at each merge *)
  clock : nat -> Z
}.

(** [page.has_continuation] *)
Definition has_continuation (p : Page) : bool :=
  truthy (field (heap p) (root p) "has_continuation").

(** The loop over the videos tab. *)
Definition videosLoop (u : Upstream) : Loop :=
  {| cap := 1000; stuck := Some 5%nat;
     extract := fun p s => extractVideosFromTab (heap p) (root p) s;
     next := fun p k => if has_continuation p
                        then Some (videosContinuation u k) else None |}.

(** The fall-back loop over the browse endpoint; the page object is
    [browseData] and the payload [browseData?.data]. *)
Definition browseLoop (u : Upstream) : Loop :=
  {| cap := 1000; stuck := Some 5%nat;
     extract := fun p s =>
       extractVideosFromBrowse (heap p) (field (heap p) (root p) "data") s;
     next := fun p k =>
       let continuationToken :=
         Walker.findContinuationToken (heap p)
           (field (heap p) (root p) "data") 0 in
       if truthy continuationToken
       then Some (browseContinuation u k continuationToken) else None |}.

(** The loop over the Shorts tab. *)
Definition shortsLoop (u : Upstream) : Loop :=
  {| cap := 200; stuck := None;
     extract := fun p s => extractVideosFromTab (heap p) (root p) s;
     next := fun p k => if has_continuation p
                        then Some (shortsContinuation u k) else None |}.

(** The loop over the live streams tab. *)
Definition liveLoop (u : Upstream) : Loop :=
  {| cap := 100; stuck := None;
     extract := fun p s => extractVideosFromTab (heap p) (root p) s;
     next := fun p k => if has_continuation p
                        then Some (liveContinuation u k) else None |}.

(** One [try] block of the fetch: the awaited first page, then the
    loop.  The result tells whether the block was left by exception. *)
Definition phase (L : Loop) (u : Upstream) (first : Res Page)
    (c : CacheEntry) (done : list CacheEntry)
    : option (Res unit * CacheEntry * list CacheEntry) :=
  match first with
  | Throw m => Some (Throw m, c, done)
  | Ok page =>
      match runLoop L (clock u) page c done with
      | None => None
      | Some e =>
          Some (match stop e with
                | ExtractionThrew m => Throw m
                | _ => Ok tt
                end, entry e, merges e)
      end
  end.

Definition setFetching (b : bool) (c : CacheEntry) : CacheEntry :=
  {| videos := videos c; seenIds := seenIds c; isComplete := isComplete c;
     isFetching := b; lastUpdate := lastUpdate c; error := error c |}.

Definition setComplete (c : CacheEntry) : CacheEntry :=
  {| videos := videos c; seenIds := seenIds c; isComplete := true;
     isFetching := isFetching c; lastUpdate := lastUpdate c;
     error := error c |}.

Definition setError (m : string) (c : CacheEntry) : CacheEntry :=
  {| videos := videos c; seenIds := seenIds c; isComplete := isComplete c;
     isFetching := isFetching c; lastUpdate := lastUpdate c;
     error := Some m |}.

(** [backgroundFetchVideos] on the entry [initCache] gave it: the entry
    when the function returns, and the entry after each merge. *)
Definition backgroundFetchVideos (u : Upstream) (cache : CacheEntry)
    : option (CacheEntry * list CacheEntry) :=
  if isFetching cache || isComplete cache then Some (cache, [])
  else
    let c0 := setFetching true cache in
    match phase (videosLoop u) u (getVideos u) c0 [] with
    | None => None
    | Some (r1, c1, d1) =>
        match (match r1 with
               | Ok _ => Some (Ok tt, c1, d1)
               | Throw _ => phase (browseLoop u) u (browse u) c1 d1
               end) with
        | None => None
        | Some (Throw m, c2, d2) =>
            Some (setFetching false (setError m c2), d2)
        | Some (Ok _, c2, d2) =>
            match phase (shortsLoop u) u (getShorts u) c2 d2 with
            | None => None
            | Some (_, c3, d3) =>
                match phase (liveLoop u) u (getLiveStreams u) c3 d3 with
                | None => None
                | Some (_, c4, d4) =>
                    Some (setFetching false (setComplete c4), d4)
                end
            end
        end
    end.

(** The fetch as [getChannelVideos] starts it for [channelId]. *)
Definition fetchChannel (channelId : string) (now : Z) (u : Upstream)
    (channelCache : gmap string CacheEntry)
    : option (gmap string CacheEntry) :=
  let '(cache, m) := initCache channelId now channelCache in
  match backgroundFetchVideos u cache with
  | None => None
  | Some (c', _) => Some (<[ channelId := c' ]> m)
  end.

(** What a cache entry is meant to satisfy: no identifier twice in
    [videos], and every identifier of [videos] in [seenIds]. *)
Definition distinct (c : CacheEntry) : Prop :=
  NoDup (id <$> videos c) /\
  forall v, v ∈ videos c -> Str (id v) ∈ seenIds c.

(** Along the list of merges the list of videos only grows at its end:
    an earlier state is a prefix of a later one. *)
Definition appendOnly (cs : list CacheEntry) : Prop :=
  forall i j ci cj, (i <= j)%nat -> cs !! i = Some ci -> cs !! j = Some cj ->
    videos ci `prefix_of` videos cj.

(** What a fetch that started from the entry [c0] keeps true of the
    entry [c] it works on and of the merges [done] it has made. *)
Definition steady (c0 c : CacheEntry) (done : list CacheEntry) : Prop :=
  distinct c /\ isFetching c = true /\
  videos c0 `prefix_of` videos c /\
  Forall (fun d => distinct d /\ isFetching d = true /\
                   videos c0 `prefix_of` videos d /\
                   videos d `prefix_of` videos c) done /\
  appendOnly done.

(** What an extraction that was given the set [seen0] keeps true of
    its state: the set only grows, the videos collected have distinct
    identifiers, each of them in the set now and none in it before. *)
Definition good (seen0 : gset Val) (st : St) : Prop :=
  seen0 ⊆ seen st /\
  NoDup (id <$> out st) /\
  forall v, v ∈ out st -> Str (id v) ∈ seen st /\ Str (id v) ∉ seen0.

Definition preserves {A} (m : M A) : Prop :=
  forall seen0 st, good seen0 st -> good seen0 (snd (m st)).

(** The same for a whole extraction function. *)
Definition extractSound
    (ex : Page -> gset Val -> Res (list Video) * gset Val) : Prop :=
  forall p s,
    s ⊆ snd (ex p s) /\
    match fst (ex p s) with
    | Ok vids =>
        NoDup (id <$> vids) /\
        forall v, v ∈ vids -> Str (id v) ∈ snd (ex p s) /\ Str (id v) ∉ s
    | Throw _ => True
    end.

End WithRuntime.

End ChannelVideos.

Module VideoScenario.
Import Js ChannelVideos.

(** A runtime whose presentation fields are empty. *)
Definition plain : Runtime :=
  {| Fields := unit; formatFields := fun _ _ => Ok tt; stackLimit := 64 |}.

(** Eleven characters naming the number [k]: [v] and ten digits. *)
Definition digit (n : Z) : ascii := ascii_of_nat (Z.to_nat (48 + n mod 10)).

Definition videoId (k : nat) : string :=
  let n := Z.of_nat k in
  String "v" (String (digit (n / 1000000000)) (String (digit (n / 100000000))
  (String (digit (n / 10000000)) (String (digit (n / 1000000))
  (String (digit (n / 100000)) (String (digit (n / 10000))
  (String (digit (n / 1000)) (String (digit (n / 100))
  (String (digit (n / 10)) (String (digit n) EmptyString)))))))))).

(** A videos-tab page
    [{ videos: [{id: a}, {id: b}, {id: a}], has_continuation: more }]. *)
Definition tabPage (a b : string) (more : bool) : Page :=
  {| heap := {[ 1%positive := Rec [("videos", Ref 2); ("has_continuation", Bool more)];
                2%positive := Arr [Ref 3; Ref 4; Ref 3];
                3%positive := Rec [("id", Str a); ("title", Str "first")];
                4%positive := Rec [("id", Str b); ("title", Str "second")] ]};
     root := Ref 1 |}.

(** Upstream whose cursor never ends and that repeats one page. *)
Definition repeating : Upstream :=
  {| getVideos := Ok (tabPage (videoId 0) (videoId 1) true);
     videosContinuation := fun _ =>
       Ok (tabPage (videoId 0) (videoId 1) true);
     browse := Throw "unused"; browseContinuation := fun _ _ => Throw "unused";
     getShorts := Ok (tabPage "" "" false);
     shortsContinuation := fun _ => Throw "unused";
     getLiveStreams := Ok (tabPage "" "" false);
     liveContinuation := fun _ => Throw "unused";
     clock := fun k => Z.of_nat k |}.


End VideoScenario.

(** ** FastCache *)

Module FastCache.

Section WithData.
Context {D : Type}.

(** [{ data, ts }] *)
Record Entry := mkEntry {
  data : D;
  ts : Z
}.

Record t := mk {
  cache : gmap string Entry;
  ttl : Z
}.

(** [constructor(ttl)] *)
Definition new (ttl : Z) : t := {| cache := ∅; ttl := ttl |}.

(** [get(key)] at time [now]: [None] is [null]; an entry older than
    [ttl] is deleted. *)
Definition get (key : string) (now : Z) (c : t) : option D * t :=
  match cache c !! key with
  | None => (None, c)
  | Some entry =>
      if ttl c <? now - ts entry then
        (None, {| cache := delete key (cache c); ttl := ttl c |})
      else (Some (data entry), c)
  end.

(** [set(key, data)] at time [now]. *)
Definition set (key : string) (d : D) (now : Z) (c : t) : t :=
  {| cache := <[ key := {| data := d; ts := now |} ]> (cache c);
     ttl := ttl c |}.

(** [has(key)] *)
Definition has (key : string) (now : Z) (c : t) : bool * t :=
  let '(r, c') := get key now c in
  (match r with Some _ => true | None => false end, c').

(** [delete(key)] *)
Definition remove (key : string) (c : t) : t :=
  {| cache := delete key (cache c); ttl := ttl c |}.

(** [clear()] *)
Definition clear (c : t) : t := {| cache := ∅; ttl := ttl c |}.

(** [size()] *)
Definition size (c : t) : nat := base.size (cache c).

End WithData.

Arguments Entry D : clear implicits.
Arguments t D : clear implicits.

End FastCache.

(** ** Search: growing results behind a FastCache *)

Module Search.
Import Js.

Inductive Kind := Video | Channel | Playlist.

(** The presentation layer: what a formatter makes of an item besides
    its identifier; it may throw. *)
Class Presentation := {
  Shown : Type;
  present : Kind -> Heap -> Val -> Res Shown
}.

Section WithPresentation.
Context {PR : Presentation}.

(** What [formatVideo], [formatChannel] and [formatPlaylist] return. *)
Record Result := mkResult {
  kind : Kind;
  id : Val;
  shown : Shown
}.

(** A formatter: [const id = ...; if (!id) return null; return {...}]. *)
Definition formatAs (k : Kind) (h : Heap) (item : Val) (id : Val)
    : Res (option Result) :=
  if truthy id then
    match present k h item with
    | Ok s => Ok (Some {| kind := k; id := id; shown := s |})
    | Throw m => Throw m
    end
  else Ok None.

(** [formatVideo(item)] of the search handlers *)
Definition formatVideo (h : Heap) (item : Val) : Res (option Result) :=
  formatAs Video h item (or (field h item "id") (field h item "video_id")).

(** [formatChannel(item)] *)
Definition formatChannel (h : Heap) (item : Val) : Res (option Result) :=
  formatAs Channel h item
    (or (field h (field h item "author") "id") (field h item "id")).

(** [formatPlaylist(item)] *)
Definition formatPlaylist (h : Heap) (item : Val) : Res (option Result) :=
  formatAs Playlist h item
    (or (field h item "id") (field h item "playlist_id")).

Definition isStr (s : string) (v : Val) : bool :=
  match v with Str s' => String.eqb s' s | _ => false end.

(** [formatResult(item)] *)
Definition formatResult (h : Heap) (item : Val) : Res (option Result) :=
  if negb (truthy item) then Ok None
  else
    let type := field h item "type" in
    if isStr "Video" type || isStr "Movie" type
       || truthy (field h item "duration") || truthy (field h item "view_count")
    then formatVideo h item
    else if isStr "Channel" type || truthy (field h item "subscriber_count")
    then formatChannel h item
    else if isStr "Playlist" type
            || (truthy (field h item "video_count")
                && negb (truthy (field h item "duration")))
    then formatPlaylist h item
    else Ok None.

(** The loop of [extractSearchResults] over the items left, with
    [seenIds] and the local [results]. *)
Fixpoint extractItems (h : Heap) (items : list Val) (seenIds : gset Val)
    (results : list Result) : Res (list Result) * gset Val :=
  match items with
  | [] => (Ok results, seenIds)
  | item :: items' =>
      match get h item "id" with
      | Throw m => (Throw m, seenIds)
      | Ok x =>
          let id := or (or x (field h (field h item "author") "id"))
                       (field h item "playlist_id") in
          if truthy id && negb (bool_decide (id ∈ seenIds)) then
            match formatResult h item with
            | Throw m => (Throw m, seenIds)
            | Ok None => extractItems h items' seenIds results
            | Ok (Some formatted) =>
                extractItems h items' ({[ id ]} ∪ seenIds)
                  (results ++ [formatted])
            end
          else extractItems h items' seenIds results
      end
  end.

(** [extractSearchResults(data, seenIds)] *)
Definition extractSearchResults (h : Heap) (data : Val) (seenIds : gset Val)
    : Res (list Result) * gset Val :=
  let items := or (field h data "results") (field h data "contents") in
  if truthy items then
    match iterate h items with
    | Ok xs => extractItems h xs seenIds []
    | Throw m => (Throw m, seenIds)
    end
  else (Ok [], seenIds).

(** A page of search results: the payload and the object to read. *)
Record Page := mkPage {
  heap : Heap;
  root : Val
}.

(** The object stored under a search key; [searchData] is the last
    page, if any. *)
Record Cached := mkCached {
  results : list Result;
  seenIds : gset Val;
  searchData : option Page;
  isComplete : bool
}.

(** The shared state of the search handlers.  The cache holds
    references: [objects] maps a reference to the object it denotes, so
    that an object changed in place is seen changed through the cache. *)
Record State := mkState {
  objects : gmap nat Cached;
  searchCache : FastCache.t nat;
  activeFetches : gset string
}.

(** [cached.searchData?.has_continuation] *)
Definition has_continuation (c : Cached) : bool :=
  match searchData c with
  | Some p => truthy (field (heap p) (root p) "has_continuation")
  | None => false
  end.

Definition store (ref : nat) (c : Cached) (st : State) : State :=
  {| objects := <[ ref := c ]> (objects st);
     searchCache := searchCache st; activeFetches := activeFetches st |}.

(** [searchCache.set(cacheKey, cached)] *)
Definition cacheSet (cacheKey : string) (ref : nat) (now : Z) (st : State)
    : State :=
  {| objects := objects st;
     searchCache := FastCache.set cacheKey ref now (searchCache st);
     activeFetches := activeFetches st |}.

(** [searchCache.get(cacheKey)] at time [now], whatever
    [activeFetches] holds. *)
Definition cacheGet (cacheKey : string) (now : Z) (st : State)
    : option Cached * State :=
  let '(r, c') := FastCache.get cacheKey now (searchCache st) in
  (match r with Some ref => objects st !! ref | None => None end,
   {| objects := objects st; searchCache := c';
      activeFetches := activeFetches st |}).

(** The [while] loop of [backgroundFetchSearch]; [continuation k] is
    what [await cached.searchData.getContinuation()] settles to when
    [k] pages have been added, [clock k] the time of the [set] that
    follows.  The result is [pages] and the state at the end. *)
Fixpoint searchLoop (fuel : nat) (cacheKey : string) (ref : nat)
    (continuation : nat -> Res Page) (clock : nat -> Z)
    (pages : nat) (st : State) : option (nat * State) :=
  match fuel with
  | O => None
  | S fuel' =>
      match objects st !! ref with
      | None => Some (pages, st)
      | Some cached =>
          if (length (results cached) <? CONFIG.MAX_RESULTS_PER_SEARCH)%nat
             && has_continuation cached && (pages <? 20)%nat
          then
            match continuation pages with
            | Throw _ => Some (pages, st)
            | Ok page =>
                match extractSearchResults (heap page) (root page)
                        (seenIds cached) with
                | (Throw _, seen') =>
                    Some (pages,
                          store ref {| results := results cached;
                                       seenIds := seen';
                                       searchData := Some page;
                                       isComplete := isComplete cached |} st)
                | (Ok more, seen') =>
                    if (length more =? 0)%nat then
                      Some (pages,
                            store ref {| results := results cached;
                                         seenIds := seen';
                                         searchData := Some page;
                                         isComplete := isComplete cached |} st)
                    else
                      searchLoop fuel' cacheKey ref continuation clock
                        (S pages)
                        (cacheSet cacheKey ref (clock pages)
                           (store ref {| results := results cached ++ more;
                                         seenIds := seen';
                                         searchData := Some page;
                                         isComplete := isComplete cached |}
                              st))
                end
            end
          else Some (pages, st)
      end
  end.

(** [backgroundFetchSearch(cacheKey, cached)] for the object [ref]
    denotes; [finished] is the time of the last [set]. *)
Definition backgroundFetchSearch (cacheKey : string) (ref : nat)
    (continuation : nat -> Res Page) (clock : nat -> Z) (finished : Z)
    (st : State) : option (nat * State) :=
  match searchLoop 21 cacheKey ref continuation clock 0 st with
  | None => None
  | Some (pages, st') =>
      let st'' :=
        match objects st' !! ref with
        | Some cached =>
            store ref {| results := results cached; seenIds := seenIds cached;
                         searchData := searchData cached;
                         isComplete := true |} st'
        | None => st'
        end in
      Some (pages, cacheSet cacheKey ref finished st'')
  end.

End WithPresentation.

End Search.

Module CacheScenario.
Import Js.

(** The channel cache after [initCache('UC123')] at time 0. *)
Definition oneChannel : gmap string (@ChannelVideos.CacheEntry VideoScenario.plain) :=
  snd (ChannelVideos.initCache "UC123" 0 ∅).

(** A presentation layer that shows nothing. *)
Definition blank : Search.Presentation :=
  {| Search.Shown := unit; Search.present := fun _ _ _ => Ok tt |}.

(** A search state with one object stored at time 0 under the key
    [s|cats] while its background fetch is in flight. *)
Definition fetching : @Search.State blank :=
  {| Search.objects :=
       {[ 1%nat := {| Search.results := []; Search.seenIds := ∅;
                      Search.searchData := None;
                      Search.isComplete := false |} ]};
     Search.searchCache :=
       FastCache.set "s|cats" 1%nat 0 (FastCache.new CONFIG.SEARCH_CACHE_TTL);
     Search.activeFetches := {[ "s|cats"%string ]} |}.

End CacheScenario.

(* ================================================================= *)
(** * Further behaviour of the same code *)

(** ** The admission gate as its callers see it *)

Module GateTrace.
Import RequestSemaphore.

(** The waiters an interleaving of calls parks on the queue, in the
    order of their [acquire]. *)
Fixpoint parked (cs : list call) (s : t) : list Waiter :=
  match cs with
  | [] => []
  | c :: cs' =>
      match c with
      | Acquire w => if fst (acquire w s) then [] else [w]
      | Release => []
      end ++ parked cs' (step c s)
  end.

(** The waiters whose [resolve] the [release] calls invoke, in order. *)
Fixpoint resumed (cs : list call) (s : t) : list Waiter :=
  match cs with
  | [] => []
  | c :: cs' =>
      match c with
      | Acquire _ => []
      | Release => match fst (release s) with
                   | Some w => [w]
                   | None => []
                   end
      end ++ resumed cs' (step c s)
  end.

(** The number of callers that hold a slot after the calls, [h] of
    them holding one before: an [acquire] that returns at once adds a
    holder, a [release] removes one, and a [release] that resumes a
    waiter adds that waiter. *)
Fixpoint holding (cs : list call) (s : t) (h : Z) : Z :=
  match cs with
  | [] => h
  | c :: cs' =>
      holding cs' (step c s)
        match c with
        | Acquire w => if fst (acquire w s) then h + 1 else h
        | Release => match fst (release s) with
                     | Some _ => h
                     | None => h - 1
                     end
        end
  end.

(** Every [release] is made by a caller that holds a slot. *)
Fixpoint wellBracketed (cs : list call) (s : t) (h : Z) : Prop :=
  match cs with
  | [] => True
  | c :: cs' =>
      match c with
      | Acquire w =>
          wellBracketed cs' (step c s) (if fst (acquire w s) then h + 1 else h)
      | Release =>
          0 < h /\
          wellBracketed cs' (step c s)
            (match fst (release s) with Some _ => h | None => h - 1 end)
      end
  end.

End GateTrace.

(** ** What [getInstance] selects *)

Module Selection.
Import YouTubeInstancePool.

(** An instance the selection loop does not pass over at time [now]: it
    has statistics, is below the per-instance cap, and is not both due
    for refresh and idle. *)
Definition eligible (now : Z) (m : gmap string InstanceStats)
    (inst : Instance) : Prop :=
  exists st, m !! id inst = Some st /\
    activeRequests st < CONFIG.MAX_REQUESTS_PER_INSTANCE /\
    (needsRefresh now st && (activeRequests st =? 0)) = false.

(** The pending refreshes that name [instanceId]. *)
Definition pendingFor (instanceId : string) (s : Sys) : nat :=
  length (List.filter (fun p => String.eqb (fst p) instanceId) (refreshing s)).

(** A pool without instances has no refresh in flight. *)
Definition noneQueued (s : Sys) : Prop :=
  instances (pool s) = [] -> refreshing s = [].

(** A pool whose initialization is over and has produced nothing. *)
Definition dead (s : Sys) : Prop :=
  initPromise (pool s) = true /\ creating s = 0%nat /\
  instances (pool s) = [] /\ refreshing s = [].

(** What the locals of the selection loop hold after the instances
    [seen] have been looked at. *)
Definition selectionInv (now : Z) (m : gmap string InstanceStats)
    (seen : list Instance) (r : Round) : Prop :=
  (bestInstance r = None ->
   lowestLoad r = None /\ forall i, i ∈ seen -> ~ eligible now m i) /\
  (forall b, bestInstance r = Some b ->
   b ∈ seen /\ eligible now m b /\
   exists st, m !! id b = Some st /\ lowestLoad r = Some (loadScore2 st) /\
     forall o st', o ∈ seen -> eligible now m o -> m !! id o = Some st' ->
       loadScore2 st <= loadScore2 st').

(** The calls [refreshInstance] that find their instance, as pending
    refreshes. *)
Fixpoint pendings (insts : list Instance) (calls : list string)
    : list (string * nat) :=
  match calls with
  | [] => []
  | i :: calls' =>
      match findIndex i insts with
      | Some index => (i, index) :: pendings insts calls'
      | None => pendings insts calls'
      end
  end.

End Selection.

(** ** What an invocation leaves behind *)

Module Handles.
Import YouTubeInstancePool Executor.

(** The attempt that succeeds. *)
Definition successfulAttempt (o : Options) (inst : Instance) : list Event :=
  [PoolAcquire inst; Operation (instance inst) (timeout o);
   PoolRelease (id inst) false].

Definition isDelay (e : Event) : bool :=
  match e with Delay _ => true | _ => false end.

(** No counter of active requests is negative. *)
Definition nonneg (p : YouTubeInstancePool.t) : Prop :=
  forall i st, instanceStats p !! i = Some st -> 0 <= activeRequests st.

(** Two pools with the same instances, the same ids with statistics and
    the same number of active requests on each. *)
Definition sameActive (p p' : YouTubeInstancePool.t) : Prop :=
  instances p' = instances p /\
  forall i, activeRequests <$> (instanceStats p' !! i)
            = activeRequests <$> (instanceStats p !! i).

End Handles.

(** ** The identifiers and the flags of a cache entry *)

Module VideoIds.
Import Js ChannelVideos.

Section WithRuntime.
Context {RT : Runtime}.

(** An identifier as YouTube writes it: eleven characters out of
    letters, digits, [_] and [-]. *)
Definition wellFormed (v : Video) : Prop :=
  String.length (id v) = 11%nat /\ idChars (id v) = true.

(** A piece of extraction code that only collects well-formed videos. *)
Definition keeps {A} (m : M A) : Prop :=
  forall st, Forall wellFormed (out st) ->
             Forall wellFormed (out (snd (m st))).

(** The flags of [c] are those of an entry whose fetch, started on
    [c0], is under way. *)
Definition fetchingFrom (c0 c : CacheEntry) : Prop :=
  isFetching c = true /\ isComplete c = isComplete c0 /\ error c = error c0.

End WithRuntime.

End VideoIds.

(** ** Ranges of a response *)

Module Range.

(** What a handler can receive as [start] or [end]: an integer, [NaN]
    (a [parseInt] that failed), [null], or nothing. *)
Inductive Bound :=
| Int (n : Z)
| NaN
| Null
| Undefined.

(** A parameter default, [x = d]: it replaces [undefined] only. *)
Definition defaultTo (d : Bound) (x : Bound) : Bound :=
  match x with
  | Undefined => d
  | _ => x
  end.

Definition isNull (x : Bound) : bool :=
  match x with Null => true | _ => false end.

(** ToNumber; [None] is [NaN]. *)
Definition toNumber (x : Bound) : option Z :=
  match x with
  | Int n => Some n
  | Null => Some 0
  | NaN | Undefined => None
  end.

(** [Math.max(a, x)] and [Math.min(a, x)] for an integer [a]. *)
Definition mathMax (a : Z) (x : option Z) : option Z := Z.max a <$> x.
Definition mathMin (a : Z) (x : option Z) : option Z := Z.min a <$> x.

(** An argument of [slice] as an index between 0 and [len]: [NaN] is 0,
    a negative number counts from the end. *)
Definition relative (len : Z) (x : option Z) : Z :=
  match x with
  | None => 0
  | Some n => if n <? 0 then Z.max (len + n) 0 else Z.min n len
  end.

(** [l.slice(a, b)] *)
Definition slice {A} (l : list A) (a b : option Z) : list A :=
  let len := Z.of_nat (length l) in
  let from := relative len a in
  let to := relative len b in
  take (Z.to_nat (to - from)) (drop (Z.to_nat from) l).

(** [l.slice(Math.max(0, start - 1), Math.min(l.length, end))], the
    range both handlers cut out of their cache. *)
Definition cut {A} (l : list A) (start end_ : Bound) : list A :=
  slice l (mathMax 0 ((fun n => n - 1) <$> toNumber start))
          (mathMin (Z.of_nat (length l)) (toNumber end_)).

(** [x ? parseInt(x) : null] of the search routes for a query
    parameter: [None] is a parameter that is absent, [parsed] what
    [parseInt] makes of one that is present ([None] is [NaN]). *)
Definition ofQuery (x : option string) (parsed : option Z) : Bound :=
  match x with
  | None => Null
  | Some s =>
      if String.eqb s "" then Null
      else match parsed with Some n => Int n | None => NaN end
  end.

(** The three checks of the route [/videos/:identifier] on
    [startNum = parseInt(start)] and [endNum = parseInt(end)]: [true]
    when none of them answers 400. *)
Definition accepted (startNum endNum : option Z) : bool :=
  match startNum, endNum with
  | Some s, Some e => negb (s <? 1) && negb (e <? s)
  | _, _ => false
  end.

End Range.

(** ** What [getChannelVideos] answers from its cache entry *)

Module ChannelResponse.
Import Js ChannelVideos Range.

Section WithRuntime.
Context {RT : Runtime}.

(** [start !== null && end !== null], after the defaults [= null]. *)
Definition hasRange (start end_ : Bound) : bool :=
  negb (isNull (defaultTo Null start)) && negb (isNull (defaultTo Null end_)).

(** [finalVideos] *)
Definition finalVideos (cache : CacheEntry) (start end_ : Bound)
    : list Video :=
  if hasRange start end_
  then cut (videos cache) (defaultTo Null start) (defaultTo Null end_)
  else videos cache.

Inductive Status := complete | fetching | partial.

(** [cacheStatus] *)
Definition cacheStatus (cache : CacheEntry) : Status :=
  if isComplete cache then complete
  else if isFetching cache then fetching else partial.

(** The loop of [waitForVideos].  The entry is changed in place by the
    background fetch while the loop sleeps: [view k] is the entry as
    the test number [k] finds it and [clock k] is [Date.now()] in the
    loop condition before that test. *)
Fixpoint waitLoop (fuel : nat) (view : nat -> CacheEntry) (clock : nat -> Z)
    (startTime requiredCount maxWaitMs : Z) (k : nat) : option bool :=
  match fuel with
  | O => None
  | S fuel' =>
      if clock k - startTime <? maxWaitMs then
        if (requiredCount <=? Z.of_nat (length (videos (view k))))
           || isComplete (view k)
        then Some true
        else waitLoop fuel' view clock startTime requiredCount maxWaitMs (S k)
      else Some false
  end.

(** [waitForVideos(channelId, requiredCount, maxWaitMs)]; [cache] is
    [channelCache.get(channelId)]. *)
Definition waitForVideos (fuel : nat) (cache : option (nat -> CacheEntry))
    (clock : nat -> Z) (startTime requiredCount maxWaitMs : Z)
    : option bool :=
  match cache with
  | None => Some false
  | Some view =>
      waitLoop fuel view clock startTime requiredCount maxWaitMs 0
  end.

(** The test of the loop at poll [k]. *)
Definition ready (view : nat -> CacheEntry) (requiredCount : Z) (k : nat)
    : Prop :=
  requiredCount <= Z.of_nat (length (videos (view k)))
  \/ isComplete (view k) = true.

End WithRuntime.

End ChannelResponse.

(** ** What [search] answers from its cache entry *)

Module SearchResponse.
Import Js Search Range.

Section WithPresentation.
Context {PR : Presentation}.

(** The fields of the answer that depend on the range. *)
Record Response := mkResponse {
  results : list Result;
  totalResults : nat;
  totalCached : nat;
  isComplete : bool;
  hasMore : bool
}.

(** [cached.results.length > end] *)
Definition longerThan (len : nat) (end_ : Bound) : bool :=
  match toNumber end_ with
  | Some e => e <? Z.of_nat len
  | None => false
  end.

(** [buildSearchResponse(query, options, cached, start, end)] *)
Definition buildSearchResponse (cached : Cached) (start end_ : Bound)
    : Response :=
  let results := cut (Search.results cached) start end_ in
  {| results := results;
     totalResults := length results;
     totalCached := length (Search.results cached);
     isComplete := Search.isComplete cached;
     hasMore := negb (Search.isComplete cached)
                || longerThan (length (Search.results cached)) end_ |}.

(** [const { start = 1, end = 20 } = options] of [search]. *)
Definition startOf (start : Bound) : Bound := defaultTo (Int 1) start.
Definition endOf (end_ : Bound) : Bound := defaultTo (Int 20) end_.

(** [cached && cached.results.length >= end]: the test [search] makes
    before it answers from the cache alone. *)
Definition servedFromCache (cached : option Cached) (end_ : Bound) : bool :=
  match cached with
  | None => false
  | Some c =>
      match toNumber end_ with
      | Some e => e <=? Z.of_nat (length (Search.results c))
      | None => false
      end
  end.

End WithPresentation.

End SearchResponse.

(** ** Playlist identifiers (channelHandlers.js) *)

Module Playlists.
Import Js.

(** [if (!ids.includes(x)) ids.push(x)] *)
Definition pushNew (x : Val) (ids : list Val) : list Val :=
  if bool_decide (x ∈ ids) then ids else ids ++ [x].

(** [v === s] for a string literal [s]. *)
Definition equals (s : string) (v : Val) : bool :=
  match v with Str s' => String.eqb s' s | _ => false end.

(** [v.startsWith('PL')] for a string [v]. *)
Definition startsWithPL (v : Val) : bool :=
  match v with
  | Str (String "P" (String "L" _)) => true
  | _ => false
  end.

(** [typeof v === 'object'] *)
Definition typeofObject (v : Val) : bool :=
  match v with Ref _ | Null => true | _ => false end.

(** The three tests the walkers are made of. *)
Definition byContentId (h : Heap) (obj : Val) (ids : list Val) : list Val :=
  if truthy (field h obj "content_id")
     && equals "PLAYLIST" (field h obj "content_type")
  then pushNew (field h obj "content_id") ids else ids.

Definition byId (h : Heap) (obj : Val) (ids : list Val) : list Val :=
  if truthy (field h obj "id") && isString (field h obj "id")
     && startsWithPL (field h obj "id")
  then pushNew (field h obj "id") ids else ids.

Definition byKey (k : string) (h : Heap) (obj : Val) (ids : list Val)
    : list Val :=
  if truthy (field h obj k) && isString (field h obj k)
  then pushNew (field h obj k) ids else ids.

(** The values a walker descends into: the elements of an array, or the
    values of the keys without a leading underscore whose [typeof] is
    ['object']. *)
Definition descend (h : Heap) (l : positive) : list Val :=
  match deref h l with
  | Arr items => items
  | Rec fs =>
      map snd
        (List.filter
           (fun kv => negb (startsWithUnderscore (fst kv))
                      && typeofObject (snd kv)) fs)
  end.

(** A walker with [budget] levels left that applies [self] to every
    object it visits. *)
Fixpoint collect (self : Heap -> Val -> list Val -> list Val) (budget : nat)
    (h : Heap) (obj : Val) (ids : list Val) : list Val :=
  match budget with
  | O => ids
  | S budget' =>
      match obj with
      | Ref l =>
          fold_left (fun acc x => collect self budget' h x acc)
            (descend h l) (self h obj ids)
      | _ => ids
      end
  end.

(** [findPlaylists] of the continuation branch of [extractPlaylistIds]
    ([depth > 10] returns). *)
Definition findPlaylistsContinuation (h : Heap) (obj : Val) (ids : list Val)
    : list Val :=
  collect (fun h o ids =>
             byKey "playlist_id" h o (byId h o (byContentId h o ids)))
    11 h obj ids.

(** [findPlaylists] of the other branch. *)
Definition findPlaylistsTab (h : Heap) (obj : Val) (ids : list Val)
    : list Val :=
  collect (fun h o ids => byId h o (byContentId h o ids)) 11 h obj ids.

(** [findPlaylistIds] of [getPlaylistsViaBrowse] ([depth > 15]
    returns). *)
Definition findPlaylistIds (h : Heap) (obj : Val) (ids : list Val)
    : list Val :=
  collect (fun h o ids =>
             byContentId h o (byId h o (byKey "playlistId" h o ids)))
    16 h obj ids.

Definition bindR {A B} (r : Res A) (k : A -> Res B) : Res B :=
  match r with
  | Ok a => k a
  | Throw m => Throw m
  end.

Fixpoint foldR {A} (f : A -> Val -> Res A) (xs : list Val) (a : A) : Res A :=
  match xs with
  | [] => Ok a
  | x :: xs' => bindR (f a x) (foldR f xs')
  end.

(** [items.push(...v)] *)
Definition spread (h : Heap) (v : Val) (items : list Val) : Res (list Val) :=
  bindR (iterate h v) (fun xs => Ok (items ++ xs)).

(** The body of [for (const gridContainer of section.contents)]. *)
Definition gridItems (h : Heap) (items : list Val) (gridContainer : Val)
    : Res (list Val) :=
  bindR (get h gridContainer "type") (fun type =>
  let gi := field h gridContainer "items" in
  bindR (if equals "Grid" type && truthy gi then spread h gi items
         else Ok items) (fun items1 =>
  if truthy gi then spread h gi items1 else Ok items1)).

(** The body of [for (const section of tabContents)]. *)
Definition sectionItems (h : Heap) (items : list Val) (section : Val)
    : Res (list Val) :=
  bindR (get h section "contents") (fun contents =>
  bindR (if truthy contents
         then bindR (iterate h contents) (fun gs => foldR (gridItems h) gs items)
         else Ok items) (fun items1 =>
  let si := field h section "items" in
  bindR (if equals "Grid" (field h section "type") && truthy si
         then spread h si items1 else Ok items1) (fun items2 =>
  if truthy si then spread h si items2 else Ok items2))).

(** [tabContents] and the first loop: the [items] gathered. *)
Definition tabItems (h : Heap) (data : Val) : Res (list Val) :=
  bindR (get h data "current_tab") (fun tab =>
  let tabContents := field h (field h tab "content") "contents" in
  if truthy tabContents
  then bindR (iterate h tabContents) (fun sections =>
         foldR (sectionItems h) sections [])
  else Ok []).

(** [for (const item of items)]: the identifiers pushed stay pushed
    when an item throws. *)
Fixpoint itemIds (h : Heap) (items : list Val) (ids : list Val)
    : Res unit * list Val :=
  match items with
  | [] => (Ok tt, ids)
  | item :: rest =>
      if nullish item then (Throw "Cannot read properties of undefined", ids)
      else itemIds h rest (byId h item (byContentId h item ids))
  end.

(** [extractPlaylistIds(data, isContinuation)]; its [catch] swallows
    every exception and [ids] is returned as far as it got. *)
Definition extractPlaylistIds (h : Heap) (data : Val) (isContinuation : bool)
    : list Val :=
  if isContinuation then
    match get h data "contents" with
    | Throw _ => []
    | Ok _ => findPlaylistsContinuation h data []
    end
  else
    match tabItems h data with
    | Throw _ => []
    | Ok items =>
        match itemIds h items [] with
        | (Throw _, ids) => ids
        | (Ok _, ids) => findPlaylistsTab h data ids
        end
    end.

(** What upstream answers while the playlists of one channel are
    looked up; all pages live in one heap. *)
Record Upstream := mkUpstream {
  heap : Heap;
  (** [await channel.getPlaylists()] *)
  getPlaylists : Res Val;
  (** [await playlistsData.getContinuation()] when [pageCount] pages
      have been read *)
  playlistsContinuation : nat -> Res Val;
  (** [await youtube.actions.execute('/browse', { browseId, params })] *)
  browse : Res Val;
  (** [await youtube.actions.execute('/browse', { continuation })] *)
  browseContinuation : nat -> Val -> Res Val
}.

(** [while (continuationToken && pageCount < 50)] of
    [getPlaylistsViaBrowse]: the identifiers and the number of
    continuation requests made. *)
Fixpoint browseLoop (fuel : nat) (u : Upstream) (continuationToken : Val)
    (pageCount : nat) (playlistIds : list Val) (calls : nat)
    : option (list Val * nat) :=
  match fuel with
  | O => None
  | S fuel' =>
      if truthy continuationToken && (pageCount <? 50)%nat then
        match browseContinuation u pageCount continuationToken with
        | Throw _ => Some (playlistIds, S calls)
        | Ok contData =>
            let data := field (heap u) contData "data" in
            browseLoop fuel' u
              (Walker.findContinuationTokenBrowse (heap u) data 0)
              (S pageCount)
              (findPlaylistIds (heap u) data playlistIds)
              (S calls)
        end
      else Some (playlistIds, calls)
  end.

(** [getPlaylistsViaBrowse(youtube, channelId)] *)
Definition getPlaylistsViaBrowse (u : Upstream) : option (list Val * nat) :=
  match browse u with
  | Throw _ => Some ([], 0%nat)
  | Ok browseData =>
      let data := field (heap u) browseData "data" in
      if negb (truthy data) then Some ([], 0%nat)
      else
        browseLoop 50 u (Walker.findContinuationTokenBrowse (heap u) data 0)
          1 (findPlaylistIds (heap u) data []) 0
  end.

(** [for (const id of more) if (!ids.includes(id)) ids.push(id)] *)
Definition mergeNew (more ids : list Val) : list Val :=
  fold_left (fun acc id => pushNew id acc) more ids.

(** The loop of method 1 of [getChannelWithPlaylists].  The loop
    condition reads [playlistsData.has_continuation] outside the inner
    [try]: the first component tells whether it threw. *)
Fixpoint tabLoop (fuel : nat) (u : Upstream) (playlistsData : Val)
    (pageCount : nat) (playlistIds : list Val) (calls : nat)
    : option (Res unit * list Val * nat) :=
  match fuel with
  | O => None
  | S fuel' =>
      match get (heap u) playlistsData "has_continuation" with
      | Throw m => Some (Throw m, playlistIds, calls)
      | Ok more =>
          if truthy more && (pageCount <? 100)%nat then
            match playlistsContinuation u pageCount with
            | Throw _ => Some (Ok tt, playlistIds, S calls)
            | Ok next =>
                tabLoop fuel' u next (S pageCount)
                  (mergeNew (extractPlaylistIds (heap u) next true) playlistIds)
                  (S calls)
            end
          else Some (Ok tt, playlistIds, calls)
      end
  end.

(** The playlist part of the answer of [getChannelWithPlaylists]. *)
Record Found := mkFound {
  playlistIds : list Val;
  playlistError : option string;
  (** the identifiers method 1 ended with *)
  fromTab : list Val;
  (** continuation requests of method 1 and of method 2 *)
  tabCalls : nat;
  browseCalls : nat;
  (** whether method 2 was tried *)
  browsed : bool
}.

(** Methods 1 and 2 of [getChannelWithPlaylists]. *)
Definition channelPlaylists (u : Upstream) : option Found :=
  match (match getPlaylists u with
         | Throw m => Some (Throw m, [], 0%nat)
         | Ok playlistsData =>
             tabLoop 100 u playlistsData 1
               (extractPlaylistIds (heap u) playlistsData false) 0
         end) with
  | None => None
  | Some (r, ids1, calls1) =>
      let err := match r with Throw m => Some m | Ok _ => None end in
      if (length ids1 <? 5)%nat then
        match getPlaylistsViaBrowse u with
        | None => None
        | Some (browsePlaylistIds, calls2) =>
            Some {| playlistIds := mergeNew browsePlaylistIds ids1;
                    playlistError := err; fromTab := ids1;
                    tabCalls := calls1; browseCalls := calls2;
                    browsed := true |}
        end
      else
        Some {| playlistIds := ids1; playlistError := err; fromTab := ids1;
                tabCalls := calls1; browseCalls := 0%nat; browsed := false |}
  end.

(** A list of identifiers without repetition, all of them truthy. *)
Definition tidy (ids : list Val) : Prop :=
  NoDup ids /\ Forall (fun v => truthy v = true) ids.

(** A piece of code that only appends to the list it is given, and
    keeps it tidy. *)
Definition extends (f : list Val -> list Val) : Prop :=
  forall ids, ids `prefix_of` f ids /\ (tidy ids -> tidy (f ids)).

End Playlists.

(** ** The client of the search handlers: [getYouTube] *)

Module SearchInstance.

(** [const INSTANCE_TTL = 30 * 60 * 1000] *)
Definition INSTANCE_TTL : Z := 30 * 60 * 1000.

(** The state of a promise made by [getYouTube]. *)
Inductive Promise :=
| Pending
| Resolved (client : nat)
| Rejected.

(** The module variables, and the promises made so far (a promise is
    named by its position). *)
Record t := mk {
  youtubeInstance : option nat;
  instancePromise : option nat;
  instanceCreatedAt : Z;
  promises : list Promise
}.

(** [let youtubeInstance = null; let instancePromise = null;
     let instanceCreatedAt = 0;] *)
Definition init : t :=
  {| youtubeInstance := None; instancePromise := None;
     instanceCreatedAt := 0; promises := [] |}.

(** What a call returns: the instance, or a promise to wait for. *)
Inductive Reply :=
| Instance (client : nat)
| Awaits (promise : nat).

(** The third part of [getYouTube]: a new promise is made and
    [Innertube.create] is called. *)
Definition create (s : t) : Reply * t :=
  (Awaits (length (promises s)),
   {| youtubeInstance := youtubeInstance s;
      instancePromise := Some (length (promises s));
      instanceCreatedAt := instanceCreatedAt s;
      promises := promises s ++ [Pending] |}).

(** [getYouTube(forceNew)] at time [now], up to its [return]. *)
Definition getYouTube (forceNew : bool) (now : Z) (s : t) : Reply * t :=
  match youtubeInstance s with
  | Some client =>
      if negb forceNew && (now - instanceCreatedAt s <? INSTANCE_TTL)
      then (Instance client, s)
      else
        match instancePromise s with
        | Some p => if negb forceNew then (Awaits p, s) else create s
        | None => create s
        end
  | None =>
      match instancePromise s with
      | Some p => if negb forceNew then (Awaits p, s) else create s
      | None => create s
      end
  end.

(** [await Innertube.create(...)] of the promise [p] settles at time
    [now]: with a client, or by throwing ([None]). *)
Definition settle (p : nat) (r : option nat) (now : Z) (s : t) : t :=
  match promises s !! p with
  | Some Pending =>
      match r with
      | Some client =>
          {| youtubeInstance := Some client;
             instancePromise := instancePromise s;
             instanceCreatedAt := now;
             promises := <[p := Resolved client]> (promises s) |}
      | None =>
          {| youtubeInstance := youtubeInstance s;
             instancePromise := None;
             instanceCreatedAt := instanceCreatedAt s;
             promises := <[p := Rejected]> (promises s) |}
      end
  | _ => s
  end.

(** What happens to the module, oldest first: calls without
    [forceNew], and creations that settle. *)
Inductive event :=
| Call (now : Z)
| Settle (p : nat) (r : option nat) (now : Z).

Definition step (e : event) (s : t) : t :=
  match e with
  | Call now => snd (getYouTube false now s)
  | Settle p r now => settle p r now s
  end.

Definition run (es : list event) (s : t) : t :=
  fold_left (fun s e => step e s) es s.

(** The client a reply stands for. *)
Definition yields (s : t) (r : Reply) (client : nat) : Prop :=
  match r with
  | Instance c => c = client
  | Awaits p => promises s !! p = Some (Resolved client)
  end.

(** What calls without [forceNew] keep true: a pending promise is the
    current one, and an instance is what the current promise resolved
    to. *)
Definition inv (s : t) : Prop :=
  (forall q, promises s !! q = Some Pending -> instancePromise s = Some q) /\
  (forall c, youtubeInstance s = Some c ->
     exists p, instancePromise s = Some p /\
               promises s !! p = Some (Resolved c)).

End SearchInstance.

(** ** [search]: the part that runs before the answer *)

Module SearchCall.
Import Js Search Range SearchResponse.

Section WithPresentation.
Context {PR : Presentation}.

(** What the rest of the system answers to one call of [search]. *)
Record Env := mkEnv {
  (** [await getYouTube()] *)
  client : Res unit;
  (** [await yt.search(query, filters)] *)
  firstPage : Res Page;
  (** [await cached.searchData.getContinuation()] when [pages] pages
      have been added by this call *)
  continuation : nat -> Res Page;
  (** [Date.now()] in [searchCache.get], in the [set] that follows the
      first page and in the [set] that follows the loop *)
  asked : Z;
  created : Z;
  stored : Z
}.

Inductive Answer :=
| Built (r : Response)        (* [buildSearchResponse(...)] *)
| Failed (msg : string)       (* [{ success: false, error }] *)
| Rejected (msg : string).    (* [getYouTube()] threw: [search] throws *)

Record Outcome := mkOutcome {
  answer : Answer;
  state : State;
  (** requests made upstream: the search and the continuations *)
  requests : nat;
  (** whether [backgroundFetchSearch] was started *)
  launched : bool
}.

(** [cached.results.length < end] *)
Definition shorterThan (len : nat) (end_ : Bound) : bool :=
  match toNumber end_ with
  | Some e => Z.of_nat len <? e
  | None => false
  end.

Definition withPage (page : Page) (seen' : gset Val) (more : list Result)
    (cached : Cached) : Cached :=
  {| Search.results := Search.results cached ++ more; seenIds := seen';
     searchData := Some page; Search.isComplete := Search.isComplete cached |}.

(** [while (cached.results.length < end
            && cached.searchData?.has_continuation && pages < 3)]:
    the pages added, the requests made, and the state. *)
Fixpoint syncLoop (fuel : nat) (ref : nat) (env : Env) (end_ : Bound)
    (pages calls : nat) (st : State) : option (nat * nat * State) :=
  match fuel with
  | O => None
  | S fuel' =>
      match objects st !! ref with
      | None => Some (pages, calls, st)
      | Some cached =>
          if shorterThan (length (Search.results cached)) end_
             && has_continuation cached && (pages <? 3)%nat
          then
            match continuation env pages with
            | Throw _ => Some (pages, S calls, st)
            | Ok page =>
                match extractSearchResults (heap page) (root page)
                        (seenIds cached) with
                | (Throw _, seen') =>
                    Some (pages, S calls,
                          store ref (withPage page seen' [] cached) st)
                | (Ok more, seen') =>
                    if (length more =? 0)%nat then
                      Some (pages, S calls,
                            store ref (withPage page seen' [] cached) st)
                    else
                      syncLoop fuel' ref env end_ (S pages) (S calls)
                        (store ref (withPage page seen' more cached) st)
                end
            end
          else Some (pages, calls, st)
      end
  end.

(** Every reference the cache holds denotes an object. *)
Definition wellStored (st : State) : Prop :=
  forall k e, FastCache.cache (searchCache st) !! k = Some e ->
    is_Some (objects st !! FastCache.data e).

(** [cached.isComplete = !cached.searchData?.has_continuation] *)
Definition settleComplete (ref : nat) (st : State) : State :=
  match objects st !! ref with
  | Some cached =>
      store ref {| Search.results := Search.results cached;
                   seenIds := seenIds cached;
                   searchData := searchData cached;
                   Search.isComplete := negb (has_continuation cached) |} st
  | None => st
  end.

(** [if (!cached.isComplete && !activeFetches.has(cacheKey))
       { activeFetches.add(cacheKey); backgroundFetchSearch(...) }] *)
Definition launch (cacheKey : string) (ref : nat) (st : State)
    : bool * State :=
  match objects st !! ref with
  | Some cached =>
      if negb (Search.isComplete cached)
         && negb (bool_decide (cacheKey ∈ activeFetches st))
      then (true, {| objects := objects st; searchCache := searchCache st;
                     activeFetches := {[ cacheKey ]} ∪ activeFetches st |})
      else (false, st)
  | None => (false, st)
  end.

(** From the loop to the [return] of the [try] block, for the object
    [ref], after [calls] requests. *)
Definition finish (cacheKey : string) (ref : nat) (env : Env)
    (start end_ : Bound) (calls : nat) (st : State) : option Outcome :=
  match syncLoop 4 ref env end_ 0 calls st with
  | None => None
  | Some (_, calls', st1) =>
      let st2 := cacheSet cacheKey ref (stored env) (settleComplete ref st1) in
      let '(started, st3) := launch cacheKey ref st2 in
      match objects st3 !! ref with
      | Some cached =>
          Some {| answer := Built (buildSearchResponse cached start end_);
                  state := st3; requests := calls'; launched := started |}
      | None => None
      end
  end.

(** [search(query, options)] for the cache key [cacheKey] and the
    [start] and [end] of [options]. *)
Definition search (cacheKey : string) (start end_ : Bound) (env : Env)
    (st : State) : option Outcome :=
  let start := startOf start in
  let end_ := endOf end_ in
  let '(r, c') := FastCache.get cacheKey (asked env) (searchCache st) in
  let st0 := {| objects := objects st; searchCache := c';
                activeFetches := activeFetches st |} in
  match (match r with
         | Some ref =>
             match objects st0 !! ref with
             | Some c =>
                 if servedFromCache (Some c) end_
                 then Some (Some {| answer :=
                                      Built (buildSearchResponse c start end_);
                                    state := st0; requests := 0%nat;
                                    launched := false |})
                 else None
             | None => None
             end
         | None => None
         end) with
  | Some out => out
  | None =>
      match client env with
      | Throw m => Some {| answer := Rejected m; state := st0;
                           requests := 0%nat; launched := false |}
      | Ok _ =>
          match r with
          | Some ref => finish cacheKey ref env start end_ 0 st0
          | None =>
              match firstPage env with
              | Throw m => Some {| answer := Failed m; state := st0;
                                   requests := 1%nat; launched := false |}
              | Ok searchData =>
                  match extractSearchResults (heap searchData)
                          (root searchData) ∅ with
                  | (Throw m, _) =>
                      Some {| answer := Failed m; state := st0;
                              requests := 1%nat; launched := false |}
                  | (Ok results, seenIds) =>
                      let ref := fresh (dom (objects st0)) in
                      let object :=
                        {| Search.results := results; seenIds := seenIds;
                           searchData := Some searchData;
                           Search.isComplete :=
                             negb (truthy (field (heap searchData)
                                             (root searchData)
                                             "has_continuation")) |} in
                      finish cacheKey ref env start end_ 1
                        (cacheSet cacheKey ref (created env)
                           (store ref object st0))
                  end
              end
          end
      end
  end.

End WithPresentation.

End SearchCall.
(* ================================================================= *)
(** * Properties *)

Section SemaphoreFacts.
Import RequestSemaphore.

Lemma maxConcurrent_step c s : maxConcurrent (step c s) = maxConcurrent s.
Proof.
  destruct c as [w|]; unfold step, acquire, release; simpl.
  - destruct (currentCount s <? maxConcurrent s); reflexivity.
  - destruct (waitingQueue s); reflexivity.
Qed.

Lemma inv_new m : 0 <= m -> inv (new m).
Proof. intros Hm. split; simpl; [lia | congruence]. Qed.

Lemma inv_step c s : 0 <= maxConcurrent s -> inv s -> inv (step c s).
Proof.
  intros Hm [Hle Hq]. destruct c as [w|]; unfold step, acquire, release.
  - destruct (Z.ltb_spec (currentCount s) (maxConcurrent s)) as [Hlt|Hge];
      simpl; split; simpl.
    + lia.
    + intros Hne. apply Hq in Hne. lia.
    + exact Hle.
    + intros _. lia.
  - destruct (waitingQueue s) as [|next rest] eqn:E; simpl; split; simpl.
    + lia.
    + congruence.
    + exact Hle.
    + intros _. apply Hq. congruence.
Qed.

Lemma inv_run cs : forall s, 0 <= maxConcurrent s -> inv s -> inv (run cs s).
Proof.
  induction cs as [|c cs IH]; intros s Hm Hs; simpl; [exact Hs|].
  apply IH.
  - rewrite maxConcurrent_step. exact Hm.
  - apply inv_step; assumption.
Qed.

End SemaphoreFacts.

(** C3: in every state reached from a new semaphore by any interleaving
    of [acquire] and [release] calls, [currentCount] is at most
    [maxConcurrent], and the waiting queue is non-empty only when
    [currentCount] equals [maxConcurrent]. *)
Theorem C3_semaphore_invariant (maxConcurrent : Z)
    (cs : list RequestSemaphore.call) :
  0 <= maxConcurrent ->
  let s := RequestSemaphore.run cs (RequestSemaphore.new maxConcurrent) in
  RequestSemaphore.currentCount s <= RequestSemaphore.maxConcurrent s /\
  (RequestSemaphore.waitingQueue s <> [] ->
   RequestSemaphore.currentCount s = RequestSemaphore.maxConcurrent s).
Proof.
  intros Hm. apply (inv_run cs (RequestSemaphore.new maxConcurrent)).
  - exact Hm.
  - apply inv_new. exact Hm.
Qed.

Lemma C3_semaphore_invariant_witness :
  let s := RequestSemaphore.run
             [RequestSemaphore.Acquire 1%nat; RequestSemaphore.Acquire 2%nat;
              RequestSemaphore.Acquire 3%nat; RequestSemaphore.Release;
              RequestSemaphore.Release; RequestSemaphore.Release;
              RequestSemaphore.Release]
             (RequestSemaphore.new 2) in
  RequestSemaphore.currentCount s <= RequestSemaphore.maxConcurrent s /\
  (RequestSemaphore.waitingQueue s <> [] ->
   RequestSemaphore.currentCount s = RequestSemaphore.maxConcurrent s).
Proof.
  apply (C3_semaphore_invariant 2). lia.
Defined.

Section PoolFacts.
Import YouTubeInstancePool Scenario.

Lemma release_lookup_same p i h st :
  instanceStats p !! i = Some st ->
  instanceStats (release i h p) !! i =
    Some {| createdAt := createdAt st;
            requestCount := requestCount st + 1;
            activeRequests := Z.max 0 (activeRequests st - 1);
            errors := if h then errors st + 1 else errors st;
            lastUsed := lastUsed st |}.
Proof.
  intros H. unfold release. rewrite H. simpl. apply lookup_insert_eq.
Qed.

Lemma release_lookup_other p i j h :
  i <> j -> instanceStats (release i h p) !! j = instanceStats p !! j.
Proof.
  intros Hne. unfold release.
  destruct (instanceStats p !! i); [|reflexivity].
  simpl. apply lookup_insert_ne. exact Hne.
Qed.

Lemma releaseAll_spec calls : forall p i st,
  instanceStats p !! i = Some st ->
  0 <= activeRequests st ->
  exists st',
    instanceStats (releaseAll calls p) !! i = Some st' /\
    activeRequests st' = Z.max 0 (activeRequests st - callsOn i calls) /\
    requestCount st' = requestCount st + callsOn i calls /\
    errors st' = errors st + errorsOn i calls /\
    createdAt st' = createdAt st /\ lastUsed st' = lastUsed st.
Proof.
  unfold callsOn, errorsOn.
  induction calls as [|[j h] calls IH]; intros p i st Hst Hpos.
  - exists st. simpl. repeat split; try lia. exact Hst.
  - simpl releaseAll. unfold releaseAll in *. simpl fold_left.
    destruct (decide (j = i)) as [->|Hne].
    + pose proof (release_lookup_same p i h st Hst) as Hl.
      destruct (IH _ _ _ Hl) as (st' & H1 & H2 & H3 & H4 & H5 & H6);
        [simpl; lia|].
      exists st'. simpl in *. rewrite !filter_cons. simpl.
      rewrite decide_True by reflexivity.
      destruct h.
      * rewrite decide_True by (split; reflexivity).
        simpl length. repeat split; try assumption; lia.
      * rewrite decide_False by (intros [_ ?]; discriminate).
        simpl length. repeat split; try assumption; lia.
    + assert (Hl : instanceStats (release j h p) !! i = Some st)
        by (rewrite release_lookup_other; assumption).
      destruct (IH _ _ _ Hl Hpos) as (st' & H1 & H2 & H3 & H4 & H5 & H6).
      exists st'. rewrite !filter_cons. simpl.
      rewrite decide_False by exact Hne.
      rewrite decide_False by (intros [? _]; contradiction).
      repeat split; assumption.
Qed.

End PoolFacts.

(** C10: for an instance of the pool and any sequence of [release]
    calls, [activeRequests] is decremented once per call on that
    instance but clamped at zero, so it never becomes negative however
    many more releases than acquires there are; [requestCount] grows by
    one per call and [errors] by one per call with [hadError] true. *)
Theorem C10_release_never_negative (p : YouTubeInstancePool.t) (instanceId : string)
    (stats : YouTubeInstancePool.InstanceStats) (calls : list (string * bool)) :
  YouTubeInstancePool.instanceStats p !! instanceId = Some stats ->
  0 <= YouTubeInstancePool.activeRequests stats ->
  exists stats',
    YouTubeInstancePool.instanceStats (Scenario.releaseAll calls p) !! instanceId = Some stats' /\
    0 <= YouTubeInstancePool.activeRequests stats' /\
    YouTubeInstancePool.activeRequests stats' =
      Z.max 0 (YouTubeInstancePool.activeRequests stats - Scenario.callsOn instanceId calls) /\
    YouTubeInstancePool.requestCount stats' =
      YouTubeInstancePool.requestCount stats + Scenario.callsOn instanceId calls /\
    YouTubeInstancePool.errors stats' = YouTubeInstancePool.errors stats + Scenario.errorsOn instanceId calls.
Proof.
  intros Hst Hpos.
  destruct (releaseAll_spec calls p instanceId stats Hst Hpos)
    as (st' & H1 & H2 & H3 & H4 & _).
  exists st'. repeat split; try assumption. lia.
Qed.

Lemma C10_release_never_negative_witness :
  exists stats',
    YouTubeInstancePool.instanceStats
      (Scenario.releaseAll [("yt_a", true); ("yt_b", false); ("yt_a", false)]%string
         (YouTubeInstancePool.pool Scenario.oneInstance)) !! "yt_a"%string = Some stats' /\
    0 <= YouTubeInstancePool.activeRequests stats' /\
    YouTubeInstancePool.activeRequests stats' =
      Z.max 0 (YouTubeInstancePool.activeRequests (YouTubeInstancePool.freshStats 0)
               - Scenario.callsOn "yt_a"
                   [("yt_a", true); ("yt_b", false); ("yt_a", false)]%string) /\
    YouTubeInstancePool.requestCount stats' =
      YouTubeInstancePool.requestCount (YouTubeInstancePool.freshStats 0)
      + Scenario.callsOn "yt_a"
          [("yt_a", true); ("yt_b", false); ("yt_a", false)]%string /\
    YouTubeInstancePool.errors stats' =
      YouTubeInstancePool.errors (YouTubeInstancePool.freshStats 0)
      + Scenario.errorsOn "yt_a"
          [("yt_a", true); ("yt_b", false); ("yt_a", false)]%string.
Proof.
  apply (C10_release_never_negative (YouTubeInstancePool.pool Scenario.oneInstance) "yt_a"
           (YouTubeInstancePool.freshStats 0)).
  - vm_compute. reflexivity.
  - simpl. lia.
Defined.

Section PoolSize.
Import YouTubeInstancePool.

Lemma refreshInstance_frame i s :
  pool (refreshInstance i s) = pool s /\
  creating (refreshInstance i s) = creating s /\
  selected (refreshInstance i s) = selected s.
Proof.
  unfold refreshInstance.
  destruct (findIndex i (instances (pool s))); simpl; auto.
Qed.

Lemma refreshCalls_frame l : forall s,
  pool (fold_left (fun s i => refreshInstance i s) l s) = pool s /\
  creating (fold_left (fun s i => refreshInstance i s) l s) = creating s /\
  selected (fold_left (fun s i => refreshInstance i s) l s) = selected s.
Proof.
  induction l as [|i l IH]; intros s; simpl; [auto|].
  destruct (IH (refreshInstance i s)) as (H1 & H2 & H3).
  destruct (refreshInstance_frame i s) as (G1 & G2 & G3).
  rewrite H1, H2, H3. auto.
Qed.

Lemma getInstanceRound_frame now s :
  pool (snd (getInstanceRound now s)) = pool s /\
  creating (snd (getInstanceRound now s)) = creating s /\
  selected (snd (getInstanceRound now s)) = selected s.
Proof.
  unfold getInstanceRound.
  destruct (instances (pool s)) as [|i l]; simpl; [auto|].
  destruct (bestInstance (selectionLoop now (pool s))); simpl;
    apply refreshCalls_frame.
Qed.

Lemma sizeInv_start : sizeInv start.
Proof. split; simpl; [unfold CONFIG.POOL_SIZE; lia | auto]. Qed.

Lemma sizeInv_step g s : sizeInv s -> sizeInv (step g s).
Proof.
  intros Hs. pose proof Hs as [Hlen Hinit].
  destruct g as [|r now|task now|task now|i h|k r now]; simpl.
  - (* initialize *)
    unfold initialize.
    destruct (initPromise (pool s)) eqn:Ei; [exact Hs|].
    destruct (Nat.leb_spec CONFIG.POOL_SIZE (length (instances (pool s))));
      [exact Hs|].
    destruct (Hinit eq_refl) as [_ Hnil].
    split; simpl; [rewrite Hnil; simpl; lia | discriminate].
  - (* created *)
    unfold created. destruct (creating s) as [|n] eqn:Ec; [exact Hs|].
    assert (Hi : initPromise (pool s) = true).
    { destruct (initPromise (pool s)) eqn:Ei; [reflexivity|].
      destruct (Hinit eq_refl) as [H0 _]. lia. }
    destruct r as [[i c]|]; destruct n as [|n']; split; simpl;
      rewrite ?length_app; simpl; try lia; rewrite ?Hi; discriminate.
  - (* getInstance *)
    destruct (initialized s); [|exact Hs].
    destruct (getInstanceRound_frame now s) as (Hp & Hc & _).
    destruct (getInstanceRound now s) as [[| inst |] s']; simpl in *;
      unfold sizeInv; simpl; rewrite Hp, Hc; exact Hs.
  - (* acquire resumes *)
    destruct (removeFirst task (selected s)) as [[inst|] rest];
      [|exact Hs].
    unfold sizeInv, acquireResume; simpl.
    destruct (instanceStats (pool s) !! id inst); simpl; exact Hs.
  - (* release *)
    unfold sizeInv, release; simpl.
    destruct (instanceStats (pool s) !! i); simpl; exact Hs.
  - (* refreshed *)
    destruct (refreshing s !! k) as [[oldId index]|]; [|exact Hs].
    unfold sizeInv, refreshed; simpl.
    destruct r as [[i c]|]; simpl; [|exact Hs].
    rewrite length_insert. split; [assumption|].
    intros Hf. destruct (Hinit Hf) as [H0 Hnil]. split; [assumption|].
    rewrite Hnil. reflexivity.
Qed.

Lemma sizeInv_run gs : forall s, sizeInv s -> sizeInv (run gs s).
Proof.
  induction gs as [|g gs IH]; intros s Hs; simpl; [exact Hs|].
  apply IH, sizeInv_step, Hs.
Qed.

(** The first half of the pool invariant holds under every schedule:
    the pool never holds more than [POOL_SIZE] instances. *)
Lemma pool_size_bounded gs :
  (length (instances (pool (run gs start))) <= CONFIG.POOL_SIZE)%nat.
Proof.
  destruct (sizeInv_run gs start sizeInv_start) as [H _]. lia.
Qed.

End PoolSize.

Section PoolCap.
Import YouTubeInstancePool.

Lemma selectionLoop_below_cap now m insts : forall r inst,
  (forall i, bestInstance r = Some i ->
     exists st, m !! id i = Some st /\
                activeRequests st < CONFIG.MAX_REQUESTS_PER_INSTANCE) ->
  bestInstance (fold_left (roundStep now m) insts r) = Some inst ->
  exists st, m !! id inst = Some st /\
             activeRequests st < CONFIG.MAX_REQUESTS_PER_INSTANCE.
Proof.
  induction insts as [|i insts IH]; intros r inst Hr; simpl; [apply Hr|].
  apply IH. intros j. unfold roundStep.
  destruct (m !! id i) as [st|] eqn:Est; [|apply Hr].
  destruct (Z.leb_spec CONFIG.MAX_REQUESTS_PER_INSTANCE (activeRequests st));
    [apply Hr|].
  destruct (needsRefresh now st && (activeRequests st =? 0)); [apply Hr|].
  destruct (belowLoad (loadScore2 st) (lowestLoad r)); [|apply Hr].
  simpl. intros [= <-]. exists st. split; [exact Est | lia].
Qed.

Lemma getInstanceRound_below_cap now s inst s' :
  getInstanceRound now s = (RFound inst, s') ->
  pool s' = pool s /\ selected s' = selected s /\
  exists st, instanceStats (pool s) !! id inst = Some st /\
             activeRequests st < CONFIG.MAX_REQUESTS_PER_INSTANCE.
Proof.
  intros H. pose proof (getInstanceRound_frame now s) as (Hp & _ & Hsel).
  rewrite H in Hp, Hsel. simpl in Hp, Hsel.
  split; [exact Hp|]. split; [exact Hsel|].
  unfold getInstanceRound in H.
  destruct (instances (pool s)) as [|i l] eqn:Ei; [discriminate|].
  destruct (bestInstance (selectionLoop now (pool s))) as [b|] eqn:Eb;
    [|discriminate].
  injection H as <- _.
  unfold selectionLoop in Eb.
  eapply selectionLoop_below_cap; [|exact Eb].
  simpl. discriminate.
Qed.

Lemma capInv_other g s :
  acquirePart g = false -> capInv s -> capInv (step g s).
Proof.
  intros Hg [Hsel Hcap].
  destruct g as [|r now|task now|task now|i h|k r now]; try discriminate;
    simpl.
  - unfold initialize.
    destruct (initPromise (pool s)); [split; assumption|].
    destruct (_ <=? _)%nat; split; assumption.
  - unfold created. destruct (creating s) as [|n]; [split; assumption|].
    split; [exact Hsel|]. simpl.
    assert (Hins : forall j c0 st,
              <[j := freshStats now]> (instanceStats (pool s)) !! c0 = Some st ->
              activeRequests st <= CONFIG.MAX_REQUESTS_PER_INSTANCE).
    { intros j c0 st Hl. destruct (decide (j = c0)) as [->|Hne].
      - rewrite lookup_insert_eq in Hl. injection Hl as <-.
        unfold CONFIG.MAX_REQUESTS_PER_INSTANCE. simpl. lia.
      - rewrite lookup_insert_ne in Hl by exact Hne. eapply Hcap, Hl. }
    destruct r as [[j c]|]; destruct n; simpl; eauto.
  - split; [exact Hsel|]. simpl. unfold release.
    destruct (instanceStats (pool s) !! i) as [st0|] eqn:E; [|exact Hcap].
    simpl. intros j st Hl. destruct (decide (i = j)) as [->|Hne].
    + rewrite lookup_insert_eq in Hl. injection Hl as <-. simpl.
      specialize (Hcap _ _ E). unfold CONFIG.MAX_REQUESTS_PER_INSTANCE in *.
      lia.
    + rewrite lookup_insert_ne in Hl by exact Hne. eapply Hcap, Hl.
  - destruct (refreshing s !! k) as [[oldId index]|]; [|split; assumption].
    split; [exact Hsel|]. simpl. unfold refreshed.
    destruct r as [[j c]|]; [|exact Hcap].
    simpl. intros i st Hl.
    destruct (decide (oldId = i)) as [->|Hne].
    + rewrite lookup_delete_eq in Hl. discriminate.
    + rewrite lookup_delete_ne in Hl by exact Hne.
      destruct (decide (j = i)) as [->|Hne'].
      * rewrite lookup_insert_eq in Hl. injection Hl as <-.
        unfold CONFIG.MAX_REQUESTS_PER_INSTANCE. simpl. lia.
      * rewrite lookup_insert_ne in Hl by exact Hne'. eapply Hcap, Hl.
Qed.

Lemma capInv_acquire task now now' s :
  capInv s ->
  capInv (step (SAcquireResume task now') (step (SGetInstance task now) s)).
Proof.
  intros [Hsel Hcap]. cbn [step].
  destruct (initialized s); [|rewrite Hsel; split; assumption].
  destruct (getInstanceRound now s) as [[| inst |] s'] eqn:Er.
  - pose proof (getInstanceRound_frame now s) as (Hp & _ & Hs).
    rewrite Er in Hp, Hs. simpl in Hp, Hs. rewrite Hs, Hsel. simpl.
    split; [rewrite Hs; exact Hsel | rewrite Hp; exact Hcap].
  - destruct (getInstanceRound_below_cap _ _ _ _ Er)
      as (Hp & Hs & st & Hst & Hlt).
    cbn [selected]. rewrite Hs, Hsel. cbn [app removeFirst].
    rewrite decide_True by reflexivity.
    split; [reflexivity|]. cbn [pool]. rewrite Hp. unfold acquireResume.
    rewrite Hst. simpl. intros i st' Hl.
    destruct (decide (id inst = i)) as [<-|Hne].
    + rewrite lookup_insert_eq in Hl. injection Hl as <-. simpl. lia.
    + rewrite lookup_insert_ne in Hl by exact Hne. eapply Hcap, Hl.
  - pose proof (getInstanceRound_frame now s) as (Hp & _ & Hs).
    rewrite Er in Hp, Hs. simpl in Hp, Hs. rewrite Hs, Hsel. simpl.
    split; [rewrite Hs; exact Hsel | rewrite Hp; exact Hcap].
Qed.

(** The second half of the pool invariant holds as long as nothing runs
    between a selection and its counting. *)
Lemma cap_respected_when_acquire_is_atomic gs :
  atomicAcquires gs ->
  forall s, capInv s -> capInv (run gs s).
Proof.
  induction 1 as [|task now now' gs Hgs IH|g gs Hg Hgs IH]; intros s Hs.
  - exact Hs.
  - cbn [run fold_left]. apply IH, capInv_acquire, Hs.
  - cbn [run fold_left]. apply IH, capInv_other; assumption.
Qed.

End PoolCap.

(** C4 (the code departs from it): after the schedule [coldStart] the
    pool holds [POOL_SIZE] instances, but the first of them has been
    handed to five requests at once, one more than
    [MAX_REQUESTS_PER_INSTANCE]: every [getInstance] selected it while
    its counter was still 0, and only then did the five [acquire]s
    count. *)
Theorem C4_cap_exceeded_on_cold_start :
  let s := YouTubeInstancePool.run Scenario.coldStart YouTubeInstancePool.start in
  length (YouTubeInstancePool.instances (YouTubeInstancePool.pool s)) = CONFIG.POOL_SIZE /\
  YouTubeInstancePool.activeRequests <$> (YouTubeInstancePool.instanceStats (YouTubeInstancePool.pool s) !! "yt_a"%string)
    = Some 5 /\
  CONFIG.MAX_REQUESTS_PER_INSTANCE < 5.
Proof. vm_compute. repeat split; reflexivity. Qed.

Section Polling.
Import YouTubeInstancePool Scenario.

Lemma oneInstance_eq :
  oneInstance =
  {| pool := {| instances := [ {| id := "yt_a"; instance := 1%nat |} ];
                instanceStats := {[ "yt_a"%string := freshStats 0 ]};
                initPromise := true; isInitializing := false |};
     creating := 0%nat; refreshing := []; selected := [] |}.
Proof. vm_compute. reflexivity. Qed.

Lemma noInstance_empty : instances (pool noInstance) = [].
Proof. vm_compute. reflexivity. Qed.

(** Once the only instance is fifteen minutes old and idle, a pass of
    [getInstance] hands it to [refreshInstance] and selects nothing. *)
Lemma stale_round now :
  CONFIG.INSTANCE_MAX_AGE <= now ->
  getInstanceRound now oneInstance =
  (RBusy,
   {| pool := pool oneInstance; creating := 0%nat;
      refreshing := [("yt_a"%string, 0%nat)]; selected := [] |}).
Proof.
  intros Hage. rewrite oneInstance_eq.
  unfold getInstanceRound, selectionLoop. simpl instances. simpl pool.
  simpl fold_left. unfold roundStep. simpl id. simpl instanceStats.
  rewrite lookup_singleton_eq.
  replace (CONFIG.MAX_REQUESTS_PER_INSTANCE <=? activeRequests (freshStats 0))
    with false by reflexivity.
  assert (Hn : needsRefresh now (freshStats 0) = true).
  { unfold needsRefresh. simpl. apply Z.leb_le. lia. }
  rewrite Hn. simpl. reflexivity.
Qed.

Lemma stale_wait now :
  run (refreshFails now)
    {| pool := pool oneInstance; creating := 0%nat;
       refreshing := [("yt_a"%string, 0%nat)]; selected := [] |}
  = oneInstance.
Proof. rewrite oneInstance_eq. reflexivity. Qed.

(** Once the promise of [initialize()] has settled, a further call of
    [initialize()] returns it and changes nothing. *)
Lemma initialize_settled s : initialized s = true -> initialize s = s.
Proof.
  unfold initialized, initialize.
  destruct (initPromise (pool s)); simpl; [reflexivity|].
  intros H. rewrite H. reflexivity.
Qed.

Lemma getInstance_empty polls others now s :
  initialized s = true ->
  instances (pool s) = [] ->
  getInstance (S polls) others now s = (Rejected, s).
Proof.
  intros Hi Hnil. cbn [getInstance]. rewrite (initialize_settled s Hi), Hi.
  unfold getInstanceRound. rewrite Hnil. reflexivity.
Qed.

Lemma getInstance_busy polls others now s :
  initialized s = true ->
  fst (getInstanceRound now s) = RBusy ->
  getInstance (S polls) others now s =
  getInstance polls others (now + 100)
    (run (others now) (snd (getInstanceRound now s))).
Proof.
  intros Hi Hb. cbn [getInstance]. rewrite (initialize_settled s Hi), Hi.
  destruct (getInstanceRound now s) as [[| inst |] s'];
    simpl in Hb; try discriminate. reflexivity.
Qed.

Lemma getInstance_initializing polls others now s :
  initialized (initialize s) = false ->
  getInstance (S polls) others now s = (Initializing, initialize s).
Proof. intros Hi. cbn [getInstance]. rewrite Hi. reflexivity. Qed.

Lemma oneInstance_initialized : initialized oneInstance = true.
Proof. vm_compute. reflexivity. Qed.

Lemma stale_polls_forever polls : forall now,
  CONFIG.INSTANCE_MAX_AGE <= now ->
  fst (getInstance polls refreshFails now oneInstance) = Polling.
Proof.
  induction polls as [|polls IH]; intros now Hage; [reflexivity|].
  rewrite getInstance_busy;
    [|exact oneInstance_initialized | rewrite (stale_round now Hage); reflexivity].
  rewrite (stale_round now Hage). cbn [snd]. rewrite stale_wait.
  apply IH. lia.
Qed.

End Polling.

(** C5, as stated, fails: with one instance that is fifteen minutes old
    and idle, and refreshes that fail, no number of passes brings
    [getInstance] (hence [acquire]) to an end. *)
Lemma C5_polling_not_bounded :
  ~ exists polls,
      fst (YouTubeInstancePool.getInstance polls Scenario.refreshFails
             CONFIG.INSTANCE_MAX_AGE Scenario.oneInstance) <> YouTubeInstancePool.Polling.
Proof.
  intros [polls H]. apply H. apply stale_polls_forever. lia.
Qed.

(** C5, amended: every pass of [getInstance] first awaits
    [initialize()]; while the creations that [initialize()] started
    have not all settled the call waits there, and neither fails nor
    selects.  Once they have settled, on a pool without instances
    [getInstance] fails on that pass, with no retry and no delay,
    leaving the pool as it was; while instances exist and none is
    selected, each pass is followed by a 100 ms wait and another pass,
    and nothing counts the passes: with one stale idle instance and
    failing refreshes the call is still polling after any number of
    them. *)
Theorem C5_empty_fails_at_once_busy_polls_again (polls : nat)
    (others : Z -> list YouTubeInstancePool.segment) (now : Z)
    (s : YouTubeInstancePool.Sys) :
  (YouTubeInstancePool.initialized (YouTubeInstancePool.initialize s) = false ->
   YouTubeInstancePool.getInstance (S polls) others now s
   = (YouTubeInstancePool.Initializing, YouTubeInstancePool.initialize s)) /\
  (YouTubeInstancePool.initialized s = true ->
   YouTubeInstancePool.instances (YouTubeInstancePool.pool s) = [] ->
   YouTubeInstancePool.getInstance (S polls) others now s
   = (YouTubeInstancePool.Rejected, s)) /\
  (YouTubeInstancePool.initialized s = true ->
   fst (YouTubeInstancePool.getInstanceRound now s) = YouTubeInstancePool.RBusy ->
   YouTubeInstancePool.getInstance (S polls) others now s =
   YouTubeInstancePool.getInstance polls others (now + 100)
     (YouTubeInstancePool.run (others now)
        (snd (YouTubeInstancePool.getInstanceRound now s)))) /\
  fst (YouTubeInstancePool.getInstance polls Scenario.refreshFails
         CONFIG.INSTANCE_MAX_AGE Scenario.oneInstance)
  = YouTubeInstancePool.Polling.
Proof.
  split; [apply getInstance_initializing|].
  split; [apply getInstance_empty|].
  split; [apply getInstance_busy|].
  apply stale_polls_forever. lia.
Qed.

Lemma C5_empty_fails_at_once_busy_polls_again_witness :
  YouTubeInstancePool.getInstance 1 Scenario.quiet 0 instancePool
    = (YouTubeInstancePool.Initializing,
       YouTubeInstancePool.initialize instancePool) /\
  YouTubeInstancePool.getInstance 1 Scenario.quiet 0 Scenario.noInstance
    = (YouTubeInstancePool.Rejected, Scenario.noInstance) /\
  YouTubeInstancePool.getInstance 3 Scenario.refreshFails
    CONFIG.INSTANCE_MAX_AGE Scenario.oneInstance =
  YouTubeInstancePool.getInstance 2 Scenario.refreshFails
    (CONFIG.INSTANCE_MAX_AGE + 100)
    (YouTubeInstancePool.run (Scenario.refreshFails CONFIG.INSTANCE_MAX_AGE)
       (snd (YouTubeInstancePool.getInstanceRound CONFIG.INSTANCE_MAX_AGE
               Scenario.oneInstance))).
Proof.
  split; [|split].
  - apply (C5_empty_fails_at_once_busy_polls_again 0 Scenario.quiet 0
             instancePool).
    vm_compute. reflexivity.
  - apply (C5_empty_fails_at_once_busy_polls_again 0 Scenario.quiet 0
             Scenario.noInstance).
    + vm_compute. reflexivity.
    + vm_compute. reflexivity.
  - apply (C5_empty_fails_at_once_busy_polls_again 2 Scenario.refreshFails
             CONFIG.INSTANCE_MAX_AGE Scenario.oneInstance).
    + vm_compute. reflexivity.
    + vm_compute. reflexivity.
Defined.

Section ExecutorFacts.
Import YouTubeInstancePool Executor.

Lemma count_app p l1 l2 : count p (l1 ++ l2) = (count p l1 + count p l2)%nat.
Proof. unfold count. rewrite List.filter_app, length_app. reflexivity. Qed.

Lemma count_cons p e l :
  count p (e :: l) = ((if p e then 1 else 0) + count p l)%nat.
Proof. unfold count. simpl. destruct (p e); reflexivity. Qed.

(** The loop body never touches the semaphore. *)
Lemma attemptLoop_no_semaphore fuel env o : forall attempts lastError,
  count isSemRelease (fst (attemptLoop fuel env o attempts lastError)) = 0%nat /\
  count isSemAcquire (fst (attemptLoop fuel env o attempts lastError)) = 0%nat.
Proof.
  induction fuel as [|fuel IH]; intros attempts lastError;
    cbn [attemptLoop]; [auto|].
  destruct (attempts <=? retries o)%nat; [|auto].
  destruct (poolAcquire env attempts) as [inst|e|]; [|auto|auto].
  destruct (race env attempts inst) as [r|e]; [auto|].
  destruct (IH (S attempts) (Some e)) as [I1 I2].
  destruct (attemptLoop fuel env o (S attempts) (Some e)) as [rest out].
  cbn [fst] in *.
  split; rewrite !count_app; [rewrite I1 | rewrite I2];
    destruct (S attempts <=? retries o)%nat; reflexivity.
Qed.

(** [retries + 2 - attempts] rounds of fuel are enough: the counter
    grows by one per failed attempt and the guard stops it. *)
Lemma attemptLoop_fuel_enough fuel env o : forall attempts lastError,
  (retries o + 2 <= attempts + fuel)%nat -> (1 <= fuel)%nat ->
  snd (attemptLoop fuel env o attempts lastError) <> OutOfFuel.
Proof.
  induction fuel as [|fuel IH]; intros attempts lastError Hf H1;
    cbn [attemptLoop].
  - lia.
  - destruct (Nat.leb_spec attempts (retries o)); [|discriminate].
    destruct (poolAcquire env attempts) as [inst|e|]; try discriminate.
    destruct (race env attempts inst) as [r|e]; [discriminate|].
    specialize (IH (S attempts) (Some e)).
    destruct (attemptLoop fuel env o (S attempts) (Some e)) as [rest out].
    cbn [snd] in *. apply IH; lia.
Qed.

(** The run of the loop when every handle is granted and every attempt
    fails. *)
Lemma attemptLoop_all_fail env o insts errs :
  (forall k, (k <= retries o)%nat ->
     poolAcquire env k = Acquired (insts k) /\
     race env k (insts k) = Failed (errs k)) ->
  forall d attempts fuel lastError,
    (attempts + d = retries o)%nat -> (d + 2 <= fuel)%nat ->
    attemptLoop fuel env o attempts lastError =
    (flat_map (failedAttempt o insts) (seq attempts (S d)),
     Threw (Some (errs (retries o)))).
Proof.
  intros Henv. induction d as [|d IH]; intros attempts fuel lastError Ha Hf.
  - destruct fuel as [|[|fuel]]; try lia.
    assert (attempts = retries o) by lia. subst attempts.
    destruct (Henv (retries o)) as [Hp Hr]; [lia|].
    cbn [attemptLoop]. rewrite Nat.leb_refl, Hp, Hr.
    destruct (Nat.leb_spec (S (retries o)) (retries o)); [lia|].
    cbn [seq flat_map]. unfold failedAttempt.
    destruct (Nat.leb_spec (S (retries o)) (retries o)); [lia|].
    rewrite !app_nil_r. reflexivity.
  - destruct fuel as [|fuel]; try lia.
    destruct (Henv attempts) as [Hp Hr]; [lia|].
    cbn [attemptLoop].
    destruct (Nat.leb_spec attempts (retries o)); [|lia].
    rewrite Hp, Hr.
    rewrite (IH (S attempts) fuel (Some (errs attempts))) by lia.
    change (seq attempts (S (S d)))
      with (attempts :: seq (S attempts) (S d)).
    cbn [flat_map]. unfold failedAttempt at 2.
    rewrite <- !app_assoc. reflexivity.
Qed.

Lemma count_failedAttempts p o insts (c : nat) l :
  (forall k, count p (failedAttempt o insts k) = c) ->
  count p (flat_map (failedAttempt o insts) l) = (c * length l)%nat.
Proof.
  intros Hk. induction l as [|k l IH]; cbn [flat_map length].
  - rewrite Nat.mul_0_r. reflexivity.
  - rewrite count_app, Hk, IH, Nat.mul_succ_r. lia.
Qed.

Lemma count_failedAttempt o insts k :
  count isOperation (failedAttempt o insts k) = 1%nat /\
  count isPoolAcquire (failedAttempt o insts k) = 1%nat /\
  count (isPoolRelease true) (failedAttempt o insts k) = 1%nat /\
  count (isPoolRelease false) (failedAttempt o insts k) = 0%nat.
Proof.
  unfold failedAttempt. destruct (S k <=? retries o)%nat; repeat split.
Qed.

End ExecutorFacts.

(** C1: when the gate admits the invocation, every [acquire] of the pool
    yields a handle and every attempt of the operation fails (throws or
    times out), [executeWithInstance] makes exactly [retries + 1]
    attempts, each one acquiring a handle, running the operation and
    releasing the handle with [hadError = true], and then throws the
    error of the last attempt. *)
Theorem C1_all_attempts_fail (env : Executor.Env) (o : Executor.Options)
    (insts : nat -> YouTubeInstancePool.Instance) (errs : nat -> Executor.Error) :
  Executor.semGranted env = true ->
  (forall k, (k <= Executor.retries o)%nat ->
     Executor.poolAcquire env k = Executor.Acquired (insts k) /\
     Executor.race env k (insts k) = Executor.Failed (errs k)) ->
  let '(events, outcome) := Executor.executeWithInstance env o in
  events =
    Executor.SemAcquire
    :: flat_map (Executor.failedAttempt o insts)
         (seq 0 (Executor.retries o + 1))
    ++ [Executor.SemRelease] /\
  Executor.count Executor.isOperation events = (Executor.retries o + 1)%nat /\
  Executor.count Executor.isPoolAcquire events = (Executor.retries o + 1)%nat /\
  Executor.count (Executor.isPoolRelease true) events
    = (Executor.retries o + 1)%nat /\
  Executor.count (Executor.isPoolRelease false) events = 0%nat /\
  outcome = Executor.Threw (Some (errs (Executor.retries o))).
Proof.
  intros Hsem Henv. unfold Executor.executeWithInstance. rewrite Hsem.
  rewrite (attemptLoop_all_fail env o insts errs Henv (Executor.retries o))
    by lia.
  replace (Executor.retries o + 1)%nat with (S (Executor.retries o)) by lia.
  split; [reflexivity|].
  pose proof (count_failedAttempts Executor.isOperation o insts 1
                (seq 0 (S (Executor.retries o)))
                (fun k => proj1 (count_failedAttempt o insts k))) as HO.
  pose proof (count_failedAttempts Executor.isPoolAcquire o insts 1
                (seq 0 (S (Executor.retries o)))
                (fun k => proj1 (proj2 (count_failedAttempt o insts k)))) as HA.
  pose proof (count_failedAttempts (Executor.isPoolRelease true) o insts 1
                (seq 0 (S (Executor.retries o)))
                (fun k => proj1 (proj2 (proj2 (count_failedAttempt o insts k)))))
    as HT.
  pose proof (count_failedAttempts (Executor.isPoolRelease false) o insts 0
                (seq 0 (S (Executor.retries o)))
                (fun k => proj2 (proj2 (proj2 (count_failedAttempt o insts k)))))
    as HF.
  rewrite length_seq in HO, HA, HT, HF.
  repeat split; rewrite count_cons, count_app;
    rewrite ?HO, ?HA, ?HT, ?HF; cbn; lia.
Qed.

Lemma C1_all_attempts_fail_witness :
  Executor.count Executor.isOperation
    (fst (Executor.executeWithInstance ExecutorScenario.alwaysTimesOut
            Executor.defaultOptions)) = 3%nat /\
  snd (Executor.executeWithInstance ExecutorScenario.alwaysTimesOut
         Executor.defaultOptions)
  = Executor.Threw (Some ExecutorScenario.timeoutError).
Proof.
  pose proof (C1_all_attempts_fail ExecutorScenario.alwaysTimesOut
                Executor.defaultOptions
                (fun _ => ExecutorScenario.handle)
                (fun _ => ExecutorScenario.timeoutError)
                eq_refl
                (fun k _ => conj eq_refl eq_refl)) as H.
  destruct (Executor.executeWithInstance ExecutorScenario.alwaysTimesOut
              Executor.defaultOptions) as [events outcome].
  destruct H as (_ & HO & _ & _ & _ & Hout).
  split; [exact HO | exact Hout].
Defined.

(** The scenario of the design document: two time-outs, then success.
    The call succeeds, the handle's error counter has grown by two, its
    request counter by three, and neither the handle nor the gate is
    left held. *)
Lemma third_attempt_succeeds_on_pool :
  let '(events, outcome) :=
    Executor.executeWithInstance ExecutorScenario.thirdTimeLucky
      Executor.defaultOptions in
  let '(sem, pool) :=
    Executor.replay 1000 events
      (requestSemaphore, YouTubeInstancePool.pool Scenario.oneInstance) in
  outcome = Executor.Returned 7%nat /\
  RequestSemaphore.currentCount sem = 0 /\
  YouTubeInstancePool.instanceStats pool !! "yt_a"%string
  = Some {| YouTubeInstancePool.createdAt := 0;
            YouTubeInstancePool.requestCount := 3;
            YouTubeInstancePool.activeRequests := 0;
            YouTubeInstancePool.errors := 2;
            YouTubeInstancePool.lastUsed := 1000 |}.
Proof. vm_compute. repeat split; reflexivity. Qed.

(** C2: every invocation of [executeWithInstance] that comes to an end,
    by returning a result or by throwing (a failure of the pool's
    [acquire] included), has called [requestSemaphore.acquire()] first
    and [requestSemaphore.release()] exactly once, as its last action,
    after all attempts. *)
Theorem C2_semaphore_released_once (env : Executor.Env)
    (o : Executor.Options) :
  snd (Executor.executeWithInstance env o) <> Executor.Hung ->
  let events := fst (Executor.executeWithInstance env o) in
  Executor.count Executor.isSemRelease events = 1%nat /\
  exists attempts,
    events = Executor.SemAcquire :: attempts ++ [Executor.SemRelease] /\
    Executor.count Executor.isSemRelease attempts = 0%nat /\
    Executor.count Executor.isSemAcquire attempts = 0%nat.
Proof.
  unfold Executor.executeWithInstance.
  destruct (Executor.semGranted env); [|intros H; contradiction H; reflexivity].
  pose proof (attemptLoop_no_semaphore (S (S (Executor.retries o))) env o
                0%nat None) as [HR HA].
  pose proof (attemptLoop_fuel_enough (S (S (Executor.retries o))) env o
                0%nat None) as HF.
  destruct (Executor.attemptLoop (S (S (Executor.retries o))) env o 0%nat None)
    as [body out].
  cbn [fst snd] in *.
  destruct out as [r|e| |]; cbn [fst snd]; intros Hend.
  - split.
    + rewrite count_cons, count_app, HR. reflexivity.
    + exists body. auto.
  - split.
    + rewrite count_cons, count_app, HR. reflexivity.
    + exists body. auto.
  - contradiction Hend. reflexivity.
  - exfalso. apply HF; [lia | lia | reflexivity].
Qed.

Lemma C2_semaphore_released_once_witness :
  Executor.count Executor.isSemRelease
    (fst (Executor.executeWithInstance ExecutorScenario.emptyPool
            Executor.defaultOptions)) = 1%nat /\
  Executor.count Executor.isSemRelease
    (fst (Executor.executeWithInstance ExecutorScenario.thirdTimeLucky
            Executor.defaultOptions)) = 1%nat.
Proof.
  split.
  - apply (C2_semaphore_released_once ExecutorScenario.emptyPool
             Executor.defaultOptions).
    vm_compute. discriminate.
  - apply (C2_semaphore_released_once ExecutorScenario.thirdTimeLucky
             Executor.defaultOptions).
    vm_compute. discriminate.
Defined.

Section WalkerFacts.
Import Js Walker.

Lemma selfVideos_truthy : soundSelf videosWalker.
Proof.
  intros h n token. simpl. unfold selfVideos.
  repeat match goal with
  | |- context [if ?b then _ else _] => destruct b eqn:?
  end; intros [= <-]; try discriminate;
  repeat match goal with
  | H : _ && _ = true |- _ => apply andb_true_iff in H; destruct H
  end; assumption.
Qed.

Lemma selfPlaylists_truthy : soundSelf playlistsWalker.
Proof.
  intros h n token. simpl. unfold selfPlaylists.
  repeat match goal with
  | |- context [if ?b then _ else _] => destruct b eqn:?
  end; intros [= <-]; try discriminate;
  repeat match goal with
  | H : _ && _ = true |- _ => apply andb_true_iff in H; destruct H
  end; assumption.
Qed.

Lemma firstMatch_truthy_or_null w h :
  soundSelf w ->
  forall l, firstMatch w h l = Null \/ truthy (firstMatch w h l) = true.
Proof.
  intros Hs. induction l as [|n l IH]; simpl; [left; reflexivity|].
  destruct (self w h n) as [token|] eqn:E; [right; eauto | exact IH].
Qed.

Lemma firstMatch_append w h (Hs : soundSelf w) l1 l2 :
  firstMatch w h (l1 ++ l2) =
  if truthy (firstMatch w h l1) then firstMatch w h l1
  else firstMatch w h l2.
Proof.
  induction l1 as [|n l1 IH]; simpl; [reflexivity|].
  destruct (self w h n) as [token|] eqn:E; [|exact IH].
  rewrite (Hs _ _ _ E). reflexivity.
Qed.

Lemma firstToken_visit w h (Hs : soundSelf w) (f : Val -> Val)
    (g : Val -> list Val) :
  (forall x, f x = firstMatch w h (g x)) ->
  forall xs, firstToken f xs = firstMatch w h (flat_map g xs).
Proof.
  intros Hfg. induction xs as [|x xs IH]; simpl; [reflexivity|].
  rewrite firstMatch_append by exact Hs. rewrite <- Hfg, IH. reflexivity.
Qed.

Lemma visitOrder_primitive budget h v :
  isObject v = false -> visitOrder budget h v = [].
Proof.
  destruct budget; [reflexivity|]. destruct v; try reflexivity. discriminate.
Qed.

Lemma walk_primitive w budget h v : isObject v = false -> walk w budget h v = Null.
Proof.
  destruct budget; [reflexivity|]. destruct v; try reflexivity. discriminate.
Qed.

(** The keys a walker leaves out are the private ones; the walker of
    the channel-video cache also leaves out function values, which it
    could not descend into anyway. *)
Lemma videosWalker_skip :
  (forall kv, startsWithUnderscore (fst kv) = true ->
              skip videosWalker kv = true) /\
  (forall kv, skip videosWalker kv = true ->
              startsWithUnderscore (fst kv) = true \/ isObject (snd kv) = false).
Proof.
  split; intros kv; simpl.
  - intros ->. reflexivity.
  - intros H. apply orb_true_iff in H as [H|H]; [left; exact H|].
    right. destruct (snd kv); try discriminate; reflexivity.
Qed.

Lemma playlistsWalker_skip :
  (forall kv, startsWithUnderscore (fst kv) = true ->
              skip playlistsWalker kv = true) /\
  (forall kv, skip playlistsWalker kv = true ->
              startsWithUnderscore (fst kv) = true \/ isObject (snd kv) = false).
Proof. split; intros kv; simpl; auto. Qed.

Lemma firstToken_fields w h (Hs : soundSelf w) (f : Val -> Val)
    (g : Val -> list Val) :
  (forall x, f x = firstMatch w h (g x)) ->
  (forall v, isObject v = false -> g v = []) ->
  (forall kv, startsWithUnderscore (fst kv) = true -> skip w kv = true) ->
  (forall kv, skip w kv = true ->
              startsWithUnderscore (fst kv) = true \/ isObject (snd kv) = false) ->
  forall fields,
    firstToken f (map snd (List.filter (fun kv => negb (skip w kv)) fields))
    = firstMatch w h
        (flat_map (fun kv => if startsWithUnderscore (fst kv) then []
                             else g (snd kv)) fields).
Proof.
  intros Hfg Hprim Hu Hsk. induction fields as [|kv fs IH]; simpl;
    [reflexivity|].
  destruct (skip w kv) eqn:Ek; simpl.
  - destruct (startsWithUnderscore (fst kv)) eqn:Eu; simpl; [exact IH|].
    destruct (Hsk kv Ek) as [H|H]; [congruence|].
    rewrite (Hprim _ H). simpl. exact IH.
  - destruct (startsWithUnderscore (fst kv)) eqn:Eu.
    + rewrite (Hu kv Eu) in Ek. discriminate.
    + rewrite firstMatch_append by exact Hs. rewrite <- Hfg, IH. reflexivity.
Qed.

(** The walker returns the token of the first node, in the order of
    visit, that passes the test. *)
Lemma walk_visitOrder w (Hs : soundSelf w)
    (Hu : forall kv, startsWithUnderscore (fst kv) = true -> skip w kv = true)
    (Hsk : forall kv, skip w kv = true ->
             startsWithUnderscore (fst kv) = true \/ isObject (snd kv) = false)
    h budget : forall obj,
  walk w budget h obj = firstMatch w h (visitOrder budget h obj).
Proof.
  induction budget as [|budget IH]; intros obj; simpl; [reflexivity|].
  destruct obj as [| | | | | |l]; try reflexivity.
  simpl. destruct (self w h (Ref l)); [reflexivity|].
  unfold children. destruct (deref h l) as [items|fields].
  - apply firstToken_visit; assumption.
  - apply firstToken_fields; try assumption.
    intros v Hv. apply visitOrder_primitive, Hv.
Qed.

Lemma videos_visitOrder h budget obj :
  walk videosWalker budget h obj
  = firstMatch videosWalker h (visitOrder budget h obj).
Proof.
  apply walk_visitOrder;
    [apply selfVideos_truthy | apply videosWalker_skip..].
Qed.

Lemma playlists_visitOrder h budget obj :
  walk playlistsWalker budget h obj
  = firstMatch playlistsWalker h (visitOrder budget h obj).
Proof.
  apply walk_visitOrder;
    [apply selfPlaylists_truthy | apply playlistsWalker_skip..].
Qed.

(** Among siblings the first one whose subtree holds a token decides. *)
Lemma firstToken_first f pre x post :
  Forall (fun y => truthy (f y) = false) pre -> truthy (f x) = true ->
  firstToken f (pre ++ x :: post) = f x.
Proof.
  intros Hpre Hx. induction pre as [|y pre IH]; simpl.
  - rewrite Hx. reflexivity.
  - apply Forall_cons in Hpre as [Hy Hpre]. rewrite Hy. apply IH, Hpre.
Qed.

Lemma walk_array_order w h budget l pre x post :
  deref h l = Arr (pre ++ x :: post) ->
  self w h (Ref l) = None ->
  Forall (fun y => truthy (walk w budget h y) = false) pre ->
  truthy (walk w budget h x) = true ->
  walk w (S budget) h (Ref l) = walk w budget h x.
Proof.
  intros Hd Hself Hpre Hx. cbn [walk]. rewrite Hself.
  unfold children. rewrite Hd. apply firstToken_first; assumption.
Qed.

Lemma walk_record_order w h budget l pre k x post :
  (forall kv, startsWithUnderscore (fst kv) = true -> skip w kv = true) ->
  (forall kv, skip w kv = true ->
              startsWithUnderscore (fst kv) = true \/ isObject (snd kv) = false) ->
  deref h l = Rec (pre ++ (k, x) :: post) ->
  self w h (Ref l) = None ->
  Forall (fun kv => startsWithUnderscore (fst kv) = true
                    \/ truthy (walk w budget h (snd kv)) = false) pre ->
  startsWithUnderscore k = false ->
  truthy (walk w budget h x) = true ->
  walk w (S budget) h (Ref l) = walk w budget h x.
Proof.
  intros Hu Hsk Hd Hself Hpre Hk Hx. cbn [walk]. rewrite Hself.
  unfold children. rewrite Hd, List.filter_app, map_app. cbn [List.filter].
  assert (Hkeep : skip w (k, x) = false).
  { destruct (skip w (k, x)) eqn:E; [|reflexivity].
    destruct (Hsk _ E) as [H|H]; simpl in H; [congruence|].
    rewrite (walk_primitive w budget h x H) in Hx. discriminate. }
  rewrite Hkeep. cbn [negb map snd].
  apply firstToken_first; [|exact Hx].
  clear Hd. induction pre as [|kv pre IH]; simpl; [constructor|].
  apply Forall_cons in Hpre as [Hkv Hpre].
  destruct (skip w kv) eqn:E; simpl; [apply IH, Hpre|].
  constructor; [|apply IH, Hpre].
  destruct Hkv as [Hp|Hf]; [|exact Hf].
  rewrite (Hu kv Hp) in E. discriminate.
Qed.

Lemma deref_withoutPrivate h l :
  deref (withoutPrivate h) l = dropPrivate (deref h l).
Proof.
  unfold deref, withoutPrivate. rewrite lookup_fmap.
  destruct (h !! l); reflexivity.
Qed.

Lemma assoc_public k fs :
  startsWithUnderscore k = false ->
  assoc k (List.filter (fun kv => negb (startsWithUnderscore (fst kv))) fs)
  = assoc k fs.
Proof.
  intros Hk. induction fs as [|[k' v] fs IH]; simpl; [reflexivity|].
  destruct (startsWithUnderscore k') eqn:Ek'; simpl.
  - destruct (String.eqb_spec k' k) as [->|]; [congruence | exact IH].
  - destruct (String.eqb k' k); [reflexivity | exact IH].
Qed.

Lemma field_withoutPrivate h v k :
  startsWithUnderscore k = false ->
  field (withoutPrivate h) v k = field h v k.
Proof.
  intros Hk. destruct v; simpl; try reflexivity.
  rewrite deref_withoutPrivate.
  destruct (deref h l) as [xs|fs]; simpl; [reflexivity|].
  apply assoc_public, Hk.
Qed.

Lemma filter_public (skip : string * Val -> bool) fs :
  (forall kv, startsWithUnderscore (fst kv) = true -> skip kv = true) ->
  List.filter (fun kv => negb (skip kv))
    (List.filter (fun kv => negb (startsWithUnderscore (fst kv))) fs)
  = List.filter (fun kv => negb (skip kv)) fs.
Proof.
  intros Hskip. induction fs as [|kv fs IH]; simpl; [reflexivity|].
  destruct (startsWithUnderscore (fst kv)) eqn:E; simpl.
  - rewrite (Hskip kv E). simpl. exact IH.
  - destruct (skip kv); simpl; rewrite IH; reflexivity.
Qed.

Lemma children_withoutPrivate w h l :
  (forall kv, startsWithUnderscore (fst kv) = true -> skip w kv = true) ->
  children w (withoutPrivate h) l = children w h l.
Proof.
  intros Hskip. unfold children. rewrite deref_withoutPrivate.
  destruct (deref h l) as [xs|fs]; simpl; [reflexivity|].
  rewrite filter_public by exact Hskip. reflexivity.
Qed.

Lemma firstToken_ext f g xs :
  (forall x, f x = g x) -> firstToken f xs = firstToken g xs.
Proof.
  intros Hfg. induction xs as [|x xs IH]; simpl; [reflexivity|].
  rewrite Hfg, IH. reflexivity.
Qed.

(** Private fields are never looked at: removing them everywhere leaves
    the walker's answer as it was. *)
Lemma walk_withoutPrivate w h budget :
  (forall kv, startsWithUnderscore (fst kv) = true -> skip w kv = true) ->
  (forall obj, self w (withoutPrivate h) obj = self w h obj) ->
  forall obj, walk w budget (withoutPrivate h) obj = walk w budget h obj.
Proof.
  intros Hskip Hself. induction budget as [|budget IH]; intros obj; simpl;
    [reflexivity|].
  destruct obj as [| | | | | |l]; try reflexivity.
  rewrite Hself. destruct (self w h (Ref l)); [reflexivity|].
  rewrite children_withoutPrivate by exact Hskip.
  apply firstToken_ext, IH.
Qed.

Lemma selfVideos_withoutPrivate h obj :
  selfVideos (withoutPrivate h) obj = selfVideos h obj.
Proof.
  unfold selfVideos. rewrite !field_withoutPrivate by reflexivity.
  reflexivity.
Qed.

Lemma selfPlaylists_withoutPrivate h obj :
  selfPlaylists (withoutPrivate h) obj = selfPlaylists h obj.
Proof.
  unfold selfPlaylists. rewrite !field_withoutPrivate by reflexivity.
  reflexivity.
Qed.

(** The recursion of the source: a node within the bound is tested, and
    its children are walked at [depth + 1]. *)
Lemma findContinuationToken_unfold h obj depth :
  (depth <= 15)%nat ->
  findContinuationToken h obj depth =
  match obj with
  | Ref l =>
      match selfVideos h obj with
      | Some token => token
      | None =>
          firstToken (fun item => findContinuationToken h item (depth + 1))
            (children videosWalker h l)
      end
  | _ => Null
  end.
Proof.
  intros Hd. unfold findContinuationToken.
  replace (16 - depth)%nat with (S (16 - (depth + 1))) by lia.
  reflexivity.
Qed.

(** Chains of any depth: the token is found down to level 15 and not
    below. *)
Lemma chain_lookup_inner n : forall k,
  (1 <= k <= n)%nat ->
  chain n !! Pos.of_nat (S k) = Some (Rec [("inner", Ref (Pos.of_nat k))]).
Proof.
  induction n as [|n IH]; intros k Hk; [lia|].
  cbn [chain]. destruct (decide (k = S n)) as [->|Hne].
  - apply lookup_insert_eq.
  - rewrite lookup_insert_ne.
    + apply IH. lia.
    + intros Heq. apply Nat2Pos.inj in Heq; lia.
Qed.

Lemma chain_lookup_token n :
  chain n !! 1%positive = Some (Rec [("token", Str "0123456789abcdefghijklmnop")]).
Proof.
  induction n as [|n IH]; cbn [chain].
  - apply lookup_singleton_eq.
  - rewrite lookup_insert_ne; [exact IH|].
    intros Heq. change 1%positive with (Pos.of_nat 1) in Heq.
    apply Nat2Pos.inj in Heq; lia.
Qed.

Lemma walk_chain_short n b : forall k,
  (b <= k <= n)%nat ->
  walk videosWalker b (chain n) (Ref (Pos.of_nat (S k))) = Null.
Proof.
  induction b as [|b IH]; intros k Hk; [reflexivity|].
  cbn [walk]. 
  assert (Hd : deref (chain n) (Pos.of_nat (S k)) = Rec [("inner", Ref (Pos.of_nat k))]).
  { unfold deref. rewrite chain_lookup_inner by lia. reflexivity. }
  assert (Hs : self videosWalker (chain n) (Ref (Pos.of_nat (S k))) = None).
  { cbn [self videosWalker]. unfold selfVideos, field. rewrite Hd. reflexivity. }
  rewrite Hs. unfold children. rewrite Hd. cbn.
  destruct k as [|k]; [lia|].
  rewrite IH by lia. reflexivity.
Qed.

Lemma walk_chain_long n b : forall k,
  (k < b)%nat -> (k <= n)%nat ->
  walk videosWalker b (chain n) (Ref (Pos.of_nat (S k))) = Str "0123456789abcdefghijklmnop".
Proof.
  induction b as [|b IH]; intros k Hk Hn; [lia|].
  cbn [walk]. destruct k as [|k].
  - assert (Hd : deref (chain n) 1%positive = Rec [("token", Str "0123456789abcdefghijklmnop")]).
    { unfold deref. rewrite chain_lookup_token. reflexivity. }
    change (Pos.of_nat 1) with 1%positive.
    cbn [self videosWalker]. unfold selfVideos, field. rewrite Hd. reflexivity.
  - assert (Hd : deref (chain n) (Pos.of_nat (S (S k))) = Rec [("inner", Ref (Pos.of_nat (S k)))]).
    { unfold deref. rewrite chain_lookup_inner by lia. reflexivity. }
    assert (Hs : self videosWalker (chain n) (Ref (Pos.of_nat (S (S k)))) = None).
    { cbn [self videosWalker]. unfold selfVideos, field. rewrite Hd. reflexivity. }
    rewrite Hs. unfold children. rewrite Hd. cbn.
    rewrite IH by lia. reflexivity.
Qed.

End WalkerFacts.

(** C8: the walker answers [null] for a node deeper than the bound of
    15, and so comes to an end on payloads of any depth and on cyclic
    ones; it never looks at keys that start with an underscore; and its
    answer is the token of the first node that passes the cursor test in
    the order: the node itself, then its array elements by index or its
    mapping values by key, each followed by its own subtree.  Among the
    elements of an array, and among the values of a mapping, the first
    one whose subtree yields a token decides, whatever follows it.
    This holds for the walker of the channel-video cache and for the
    one of [getPlaylistsViaBrowse]. *)
Theorem C8_walker_depth_order_private (h : Js.Heap) (obj : Js.Val)
    (depth n : nat) :
  ((15 < depth)%nat ->
   Walker.findContinuationToken h obj depth = Js.Null /\
   Walker.findContinuationTokenBrowse h obj depth = Js.Null) /\
  Walker.findContinuationToken Walker.cyclic (Js.Ref 1) 0 = Js.Null /\
  ((n <= 15)%nat ->
   Walker.findContinuationToken (Walker.chain n) (Walker.chainRoot n) 0
   = Js.Str "0123456789abcdefghijklmnop") /\
  ((15 < n)%nat ->
   Walker.findContinuationToken (Walker.chain n) (Walker.chainRoot n) 0
   = Js.Null) /\
  Walker.findContinuationToken (Walker.withoutPrivate h) obj depth
    = Walker.findContinuationToken h obj depth /\
  Walker.findContinuationTokenBrowse (Walker.withoutPrivate h) obj depth
    = Walker.findContinuationTokenBrowse h obj depth /\
  Walker.findContinuationToken h obj depth
    = Walker.firstMatch Walker.videosWalker h
        (Walker.visitOrder (16 - depth) h obj) /\
  Walker.findContinuationTokenBrowse h obj depth
    = Walker.firstMatch Walker.playlistsWalker h
        (Walker.visitOrder (16 - depth) h obj) /\
  (forall l pre x post,
     (depth <= 15)%nat ->
     Js.deref h l = Js.Arr (pre ++ x :: post) ->
     Walker.selfVideos h (Js.Ref l) = None ->
     Forall (fun y => Js.truthy
                        (Walker.findContinuationToken h y (S depth)) = false)
            pre ->
     Js.truthy (Walker.findContinuationToken h x (S depth)) = true ->
     Walker.findContinuationToken h (Js.Ref l) depth
     = Walker.findContinuationToken h x (S depth)) /\
  (forall l pre k x post,
     (depth <= 15)%nat ->
     Js.deref h l = Js.Rec (pre ++ (k, x) :: post) ->
     Walker.selfVideos h (Js.Ref l) = None ->
     Forall (fun kv => Js.startsWithUnderscore (fst kv) = true \/
                       Js.truthy
                         (Walker.findContinuationToken h (snd kv) (S depth))
                       = false)
            pre ->
     Js.startsWithUnderscore k = false ->
     Js.truthy (Walker.findContinuationToken h x (S depth)) = true ->
     Walker.findContinuationToken h (Js.Ref l) depth
     = Walker.findContinuationToken h x (S depth)) /\
  (forall l pre x post,
     (depth <= 15)%nat ->
     Js.deref h l = Js.Arr (pre ++ x :: post) ->
     Walker.selfPlaylists h (Js.Ref l) = None ->
     Forall (fun y => Js.truthy
                        (Walker.findContinuationTokenBrowse h y (S depth))
                      = false)
            pre ->
     Js.truthy (Walker.findContinuationTokenBrowse h x (S depth)) = true ->
     Walker.findContinuationTokenBrowse h (Js.Ref l) depth
     = Walker.findContinuationTokenBrowse h x (S depth)) /\
  (forall l pre k x post,
     (depth <= 15)%nat ->
     Js.deref h l = Js.Rec (pre ++ (k, x) :: post) ->
     Walker.selfPlaylists h (Js.Ref l) = None ->
     Forall (fun kv => Js.startsWithUnderscore (fst kv) = true \/
                       Js.truthy
                         (Walker.findContinuationTokenBrowse h (snd kv)
                            (S depth))
                       = false)
            pre ->
     Js.startsWithUnderscore k = false ->
     Js.truthy (Walker.findContinuationTokenBrowse h x (S depth)) = true ->
     Walker.findContinuationTokenBrowse h (Js.Ref l) depth
     = Walker.findContinuationTokenBrowse h x (S depth)).
Proof.
  assert (Hlevel : (depth <= 15)%nat -> (16 - depth = S (16 - S depth))%nat)
    by lia.
  repeat apply conj.
  - intros Hd. unfold Walker.findContinuationToken,
      Walker.findContinuationTokenBrowse.
    replace (16 - depth)%nat with 0%nat by lia. split; reflexivity.
  - vm_compute. reflexivity.
  - intros Hn. apply walk_chain_long; lia.
  - intros Hn. apply walk_chain_short; lia.
  - apply walk_withoutPrivate.
    + intros kv Hk. simpl. rewrite Hk. reflexivity.
    + apply selfVideos_withoutPrivate.
  - apply walk_withoutPrivate.
    + intros kv Hk. exact Hk.
    + apply selfPlaylists_withoutPrivate.
  - apply videos_visitOrder.
  - apply playlists_visitOrder.
  - intros l pre x post Hd Hderef Hself Hpre Hx.
    unfold Walker.findContinuationToken in *. rewrite (Hlevel Hd).
    eapply walk_array_order; eassumption.
  - intros l pre k x post Hd Hderef Hself Hpre Hk Hx.
    unfold Walker.findContinuationToken in *. rewrite (Hlevel Hd).
    eapply walk_record_order; try eassumption; apply videosWalker_skip.
  - intros l pre x post Hd Hderef Hself Hpre Hx.
    unfold Walker.findContinuationTokenBrowse in *. rewrite (Hlevel Hd).
    eapply walk_array_order; eassumption.
  - intros l pre k x post Hd Hderef Hself Hpre Hk Hx.
    unfold Walker.findContinuationTokenBrowse in *. rewrite (Hlevel Hd).
    eapply walk_record_order; try eassumption; apply playlistsWalker_skip.
Qed.

Lemma C8_walker_depth_order_private_witness :
  (Walker.findContinuationToken (Walker.chain 3) (Walker.chainRoot 3) 16
     = Js.Null /\
   Walker.findContinuationTokenBrowse (Walker.chain 3) (Walker.chainRoot 3) 16
     = Js.Null) /\
  Walker.findContinuationToken (Walker.chain 3) (Walker.chainRoot 3) 0
    = Js.Str "0123456789abcdefghijklmnop" /\
  Walker.findContinuationToken (Walker.chain 40) (Walker.chainRoot 40) 0
    = Js.Null /\
  Walker.findContinuationToken Walker.siblings (Js.Ref 1) 0
    = Js.Str "first-token-00123456789" /\
  Walker.findContinuationToken Walker.siblings (Js.Ref 3) 1
    = Js.Str "first-token-00123456789" /\
  Walker.findContinuationTokenBrowse Walker.siblings (Js.Ref 1) 0
    = Js.Str "first-token-00123456789" /\
  Walker.findContinuationTokenBrowse Walker.siblings (Js.Ref 3) 1
    = Js.Str "first-token-00123456789".
Proof.
  split; [|split; [|split; [|split; [|split; [|split]]]]].
  - refine (proj1 (C8_walker_depth_order_private (Walker.chain 3)
                     (Walker.chainRoot 3) 16 3) _).
    lia.
  - refine (proj1 (proj2 (proj2 (C8_walker_depth_order_private
                     (Walker.chain 3) (Walker.chainRoot 3) 0 3))) _).
    lia.
  - refine (proj1 (proj2 (proj2 (proj2 (C8_walker_depth_order_private
                     (Walker.chain 3) (Walker.chainRoot 3) 0 40)))) _).
    lia.
  - destruct (C8_walker_depth_order_private Walker.siblings (Js.Ref 1) 0 0)
      as (_ & _ & _ & _ & _ & _ & _ & _ & Harr & _).
    rewrite (Harr 1%positive [Js.Ref 2] (Js.Ref 3) [Js.Ref 4]).
    + vm_compute. reflexivity.
    + lia.
    + vm_compute. reflexivity.
    + vm_compute. reflexivity.
    + constructor; [vm_compute; reflexivity | constructor].
    + vm_compute. reflexivity.
  - destruct (C8_walker_depth_order_private Walker.siblings (Js.Ref 3) 1 0)
      as (_ & _ & _ & _ & _ & _ & _ & _ & _ & Hrec & _).
    rewrite (Hrec 3%positive [("title", Js.Str "a")] "next" (Js.Ref 5)
               [("last", Js.Ref 4)]).
    + vm_compute. reflexivity.
    + lia.
    + vm_compute. reflexivity.
    + vm_compute. reflexivity.
    + constructor; [right; vm_compute; reflexivity | constructor].
    + vm_compute. reflexivity.
    + vm_compute. reflexivity.
  - destruct (C8_walker_depth_order_private Walker.siblings (Js.Ref 1) 0 0)
      as (_ & _ & _ & _ & _ & _ & _ & _ & _ & _ & Harr & _).
    rewrite (Harr 1%positive [Js.Ref 2] (Js.Ref 3) [Js.Ref 4]).
    + vm_compute. reflexivity.
    + lia.
    + vm_compute. reflexivity.
    + vm_compute. reflexivity.
    + constructor; [vm_compute; reflexivity | constructor].
    + vm_compute. reflexivity.
  - destruct (C8_walker_depth_order_private Walker.siblings (Js.Ref 3) 1 0)
      as (_ & _ & _ & _ & _ & _ & _ & _ & _ & _ & _ & Hrec).
    rewrite (Hrec 3%positive [("title", Js.Str "a")] "next" (Js.Ref 5)
               [("last", Js.Ref 4)]).
    + vm_compute. reflexivity.
    + lia.
    + vm_compute. reflexivity.
    + vm_compute. reflexivity.
    + constructor; [right; vm_compute; reflexivity | constructor].
    + vm_compute. reflexivity.
    + vm_compute. reflexivity.
Defined.

Section PageLoopFacts.
Import Js ChannelVideos.
Context {RT : Runtime}.

Lemma emptyStreak_ge len run ms : (run <= emptyStreak len run ms)%nat.
Proof. destruct ms; simpl; lia. Qed.

(** [newCount === 0] says that the merge left the number of videos as
    it was. *)
Lemma merge_newCount pageVideos seen' now c :
  ((length (videos (merge pageVideos seen' now c)) - length (videos c) =? 0)
   = (length (videos (merge pageVideos seen' now c)) =? length (videos c)))%nat.
Proof.
  cbn [merge videos]. rewrite length_app.
  destruct (Nat.eqb_spec (length (videos c) + length pageVideos
                          - length (videos c)) 0),
           (Nat.eqb_spec (length (videos c) + length pageVideos)
                         (length (videos c))); try reflexivity; lia.
Qed.

(** The loop comes to an end within [cap] pages, whatever upstream
    answers, and never merges more than [N] pages in a row that add
    nothing when it has the guard. *)
Lemma pageLoop_ends (L : Loop) clock fuel :
  forall page pc ce c done,
    (cap L + 1 <= pc + fuel)%nat -> (1 <= fuel)%nat ->
    exists e new,
      pageLoop fuel L clock page pc ce pc c done = Some e /\
      merges e = done ++ new /\
      (pageCount e <= Nat.max pc (cap L))%nat /\
      (pc + length new <= pageCount e)%nat /\
      match stop e with
      | NoContinuation | ExtractionThrew _ =>
          S (continuations e) = pageCount e
      | _ => continuations e = pageCount e
      end /\
      (stop e = PageCap -> (cap L <= pageCount e)%nat) /\
      (emptyRun e <= emptyStreak (length (videos c)) ce new)%nat /\
      (stop e = StuckPagination ->
       exists n, stuck L = Some n /\ (n <= emptyRun e)%nat /\
                 (pageCount e < cap L)%nat) /\
      (forall n, stuck L = Some n -> (ce <= n)%nat ->
                 (emptyStreak (length (videos c)) ce new <= n)%nat).
Proof.
  induction fuel as [|fuel IH];
    intros page pc ce c done Hfuel H1; [lia|].
  cbn [pageLoop].
  destruct (Nat.ltb_spec pc (cap L)) as [Hlt|Hge]; cbn [andb].
  - destruct (belowStuck L ce) eqn:Hstuck.
    + assert (Hce : forall n, stuck L = Some n -> (S ce <= n)%nat).
      { intros n Hn. unfold belowStuck in Hstuck. rewrite Hn in Hstuck.
        apply Nat.ltb_lt in Hstuck. lia. }
      destruct (extract L page (seenIds c)) as [[pageVideos|msg] seen'].
      * rewrite merge_newCount.
        remember (merge pageVideos seen' (clock (length done)) c) as c'
          eqn:Ec'.
        remember (if (length (videos c') =? length (videos c))%nat
                  then S ce else 0%nat) as ce' eqn:Ece'.
        assert (Hce' : forall n, stuck L = Some n -> (ce' <= n)%nat).
        { intros n Hn. specialize (Hce n Hn). rewrite Ece'.
          destruct (length (videos c') =? length (videos c))%nat; lia. }
        assert (Hrun' : (ce' <= emptyStreak (length (videos c)) ce [c'])%nat).
        { cbn [emptyStreak]. rewrite <- Ece'. lia. }
        assert (Hmax' : forall n, stuck L = Some n -> (ce <= n)%nat ->
                  (emptyStreak (length (videos c)) ce [c'] <= n)%nat).
        { intros n Hn Hle. cbn [emptyStreak]. rewrite <- Ece'.
          specialize (Hce' n Hn). lia. }
        destruct (next L page (S pc)) as [[page'|msg]|].
        -- destruct (IH page' (S pc) ce' c' (done ++ [c']))
             as (e & new & He & Hm & Hp & Hl & Hc & Hcap & Hrun & Hst & Hmax);
             try lia.
           exists e, (c' :: new). split; [exact He|].
           split; [rewrite Hm, <- app_assoc; reflexivity|].
           split; [lia|]. split; [simpl; lia|].
           split; [exact Hc|]. split; [exact Hcap|].
           cbn [emptyStreak]. rewrite <- Ece'.
           split; [lia|]. split; [exact Hst|].
           intros n Hn Hle. specialize (Hmax n Hn (Hce' n Hn)). lia.
        -- eexists; exists [c']. split; [reflexivity|].
           cbn [merges pageCount continuations stop emptyRun length].
           split; [reflexivity|]. split; [lia|]. split; [lia|].
           split; [reflexivity|]. split; [discriminate|].
           split; [exact Hrun'|]. split; [discriminate | exact Hmax'].
        -- eexists; exists [c']. split; [reflexivity|].
           cbn [merges pageCount continuations stop emptyRun length].
           split; [reflexivity|]. split; [lia|]. split; [lia|].
           split; [reflexivity|]. split; [discriminate|].
           split; [exact Hrun'|]. split; [discriminate | exact Hmax'].
      * eexists; exists []. split; [reflexivity|]. cbn.
        rewrite app_nil_r.
        repeat split; try lia; try discriminate.
        all: try (intros n Hn Hle; exact Hle).
    + eexists; exists []. split; [reflexivity|]. cbn.
      rewrite app_nil_r.
      destruct (Nat.ltb_spec pc (cap L)); [|lia].
      repeat split; try lia; try discriminate.
      intros _. unfold belowStuck in Hstuck.
      destruct (stuck L) as [n|]; [|discriminate].
      exists n. split; [reflexivity|].
      apply Nat.ltb_ge in Hstuck. split; [exact Hstuck | assumption].
  - eexists; exists []. split; [reflexivity|]. cbn.
    rewrite app_nil_r.
    destruct (Nat.ltb_spec pc (cap L)); [lia|].
    repeat split; try lia; try discriminate.
    all: try (intros n Hn Hle; exact Hle).
Qed.

Lemma runLoop_ends (L : Loop) clock first c done :
  exists e new,
    runLoop L clock first c done = Some e /\
    merges e = done ++ new /\
    (pageCount e <= cap L)%nat /\
    (length new <= pageCount e)%nat /\
    match stop e with
    | NoContinuation | ExtractionThrew _ => S (continuations e) = pageCount e
    | _ => continuations e = pageCount e
    end /\
    (stop e = PageCap -> pageCount e = cap L) /\
    (stop e = StuckPagination ->
     exists n, stuck L = Some n /\
               emptyStreak (length (videos c)) 0 new = n /\
               (pageCount e < cap L)%nat) /\
    (forall n, stuck L = Some n ->
               (emptyStreak (length (videos c)) 0 new <= n)%nat).
Proof.
  unfold runLoop.
  destruct (pageLoop_ends L clock (S (cap L)) first 0 0 c done)
    as (e & new & He & Hm & Hp & Hl & Hc & Hcap & Hrun & Hst & Hmax); try lia.
  exists e, new. split; [exact He|]. split; [exact Hm|].
  split; [lia|]. split; [lia|]. split; [exact Hc|].
  split; [intros Hs; specialize (Hcap Hs); lia|].
  split.
  - intros Hs. destruct (Hst Hs) as (n & Hn & Hle & Hlt).
    exists n. split; [exact Hn|]. split; [|exact Hlt].
    specialize (Hmax n Hn). lia.
  - intros n Hn. apply Hmax; [exact Hn | lia].
Qed.

Lemma phase_ends (L : Loop) u first c done :
  exists r, phase L u first c done = Some r.
Proof.
  unfold phase. destruct first as [page|m]; [|eauto].
  destruct (runLoop_ends L (clock u) page c done) as (e & new & He & _).
  rewrite He. eauto.
Qed.

(** The whole fetch returns. *)
Lemma backgroundFetchVideos_ends u cache :
  exists r, backgroundFetchVideos u cache = Some r.
Proof.
  unfold backgroundFetchVideos.
  destruct (isFetching cache || isComplete cache); [eauto|].
  destruct (phase_ends (videosLoop u) u (getVideos u)
              (setFetching true cache) []) as ([[r1 c1] d1] & H1).
  rewrite H1.
  assert (H2 : exists r, match r1 with
                         | Ok _ => Some (Ok tt, c1, d1)
                         | Throw _ => phase (browseLoop u) u (browse u) c1 d1
                         end = Some r).
  { destruct r1; [eauto | apply phase_ends]. }
  destruct H2 as ([[r2 c2] d2] & H2). rewrite H2.
  destruct r2 as [[]|m]; [|eauto].
  destruct (phase_ends (shortsLoop u) u (getShorts u) c2 d2)
    as ([[r3 c3] d3] & H3).
  rewrite H3.
  destruct (phase_ends (liveLoop u) u (getLiveStreams u) c3 d3)
    as ([[r4 c4] d4] & H4).
  rewrite H4. eauto.
Qed.

End PageLoopFacts.

Section ExtractionFacts.
Import Js ChannelVideos.
Context {RT : Runtime}.

Lemma preserves_ret {A} (a : A) : preserves (ret a).
Proof. intros seen0 st G. exact G. Qed.

Lemma preserves_lift {A} (r : Res A) : preserves (lift r).
Proof. intros seen0 st G. exact G. Qed.

Lemma preserves_bind {A B} (m : M A) (k : A -> M B) :
  preserves m -> (forall a, preserves (k a)) -> preserves (bind m k).
Proof.
  intros Hm Hk seen0 st G. unfold bind.
  specialize (Hm seen0 st G).
  destruct (m st) as [[a|msg] st']; simpl in *; [|exact Hm].
  apply Hk, Hm.
Qed.

(** After [const x = <expression>], [x] is the value the expression
    had. *)
Lemma preserves_bind_lift {A B} (r : Res A) (k : A -> M B) :
  (forall a, r = Ok a -> preserves (k a)) -> preserves (bind (lift r) k).
Proof.
  intros Hk seen0 st G. unfold bind, lift.
  destruct r as [a|msg]; simpl; [|exact G].
  apply (Hk a eq_refl), G.
Qed.

Lemma preserves_when b (m : M unit) : preserves m -> preserves (when b m).
Proof. intros Hm. destruct b; simpl; [exact Hm | apply preserves_ret]. Qed.

Lemma preserves_forEach f xs :
  (forall x, preserves (f x)) -> preserves (forEach f xs).
Proof.
  intros Hf. induction xs as [|x xs IH]; simpl.
  - apply preserves_ret.
  - apply preserves_bind; [apply Hf | intros _; exact IH].
Qed.

Lemma preserves_forOf h v f :
  (forall x, preserves (f x)) -> preserves (forOf h v f).
Proof.
  intros Hf. unfold forOf. apply preserves_bind_lift.
  intros xs _. apply preserves_forEach, Hf.
Qed.

Lemma validVideoId_Str y s : validVideoId y = Some s -> y = Str s.
Proof.
  destruct y; simpl; try discriminate.
  destruct (_ && _); [|discriminate]. intros [= ->]. reflexivity.
Qed.

Lemma or_truthy a b : truthy a = true -> or a b = a.
Proof. intros H. unfold or. rewrite H. reflexivity. Qed.

(** The identifier of a formatted video is [v.id || v.video_id ||
    v.videoId]. *)
Lemma formatVideo_id h v f :
  formatVideo h v = Ok (Some f) ->
  Str (id f) =
  or (or (field h v "id") (field h v "video_id")) (field h v "videoId").
Proof.
  unfold formatVideo, get. destruct (nullish v); [discriminate|].
  destruct (validVideoId _) as [s|] eqn:E; [|discriminate].
  destruct (formatFields h v) as [fs|m]; [|discriminate].
  intros [= <-]. simpl. symmetry. apply validVideoId_Str, E.
Qed.

(** The guarded push: an identifier that is in the set is skipped; one
    that is not is added to the set, and its video, if any, to the
    result. *)
Lemma preserves_checked_add h idv v (c : bool -> bool) (P : Prop) :
  (forall known, c known = true -> known = false /\ P) ->
  (P -> forall f, formatVideo h v = Ok (Some f) -> Str (id f) = idv) ->
  preserves (bind (has idv) (fun known => when (c known) (addVideo h idv v))).
Proof.
  intros Hc Hid seen0 st G. unfold bind, has. simpl.
  destruct (c (bool_decide (idv ∈ seen st))) eqn:Ec; simpl; [|exact G].
  apply Hc in Ec. destruct Ec as [Ec HP].
  apply bool_decide_eq_false in Ec.
  destruct G as (Hsub & Hnd & Hin).
  unfold addVideo.
  destruct (formatVideo h v) as [[f|]|m] eqn:Ef; unfold good; simpl.
  - specialize (Hid HP f eq_refl).
    split; [intros x Hx; apply elem_of_union_r, Hsub, Hx|]. split.
    + simpl. rewrite fmap_app. apply NoDup_app. split; [exact Hnd|]. split.
      * intros x Hx Hx'. simpl in Hx'. apply list_elem_of_singleton in Hx'.
        subst x. apply list_elem_of_fmap in Hx as (v' & Hv' & Hin').
        destruct (Hin v' Hin') as [Hs _]. apply Ec.
        rewrite <- Hid, Hv'. exact Hs.
      * simpl. apply NoDup_singleton.
    + simpl. intros v' Hv'. apply elem_of_app in Hv' as [Hv'|Hv'].
      * destruct (Hin v' Hv') as [Hs Hn].
        split; [apply elem_of_union_r, Hs | exact Hn].
      * apply list_elem_of_singleton in Hv'. subst v'. rewrite Hid. split.
        -- apply elem_of_union_l, elem_of_singleton. reflexivity.
        -- intros Hs0. apply Ec, Hsub, Hs0.
  - split; [intros x Hx; apply elem_of_union_r, Hsub, Hx|].
    split; [exact Hnd|].
    intros v' Hv'. destruct (Hin v' Hv') as [Hs Hn].
    split; [apply elem_of_union_r, Hs | exact Hn].
  - split; [intros x Hx; apply elem_of_union_r, Hsub, Hx|].
    split; [exact Hnd|].
    intros v' Hv'. destruct (Hin v' Hv') as [Hs Hn].
    split; [apply elem_of_union_r, Hs | exact Hn].
Qed.

Lemma preserves_considerItem h v : preserves (considerItem h v).
Proof.
  unfold considerItem. apply preserves_bind_lift. intros x Hx.
  unfold get in Hx. destruct (nullish v) eqn:En; [discriminate|].
  injection Hx as <-.
  apply (preserves_checked_add _ _ _ _
           (truthy (or (field h v "id") (field h v "video_id")) = true)).
  - intros known H. apply andb_true_iff in H as [Ht Hk].
    destruct known; [discriminate | auto].
  - intros Ht f Hf. rewrite (formatVideo_id h v f Hf).
    apply or_truthy, Ht.
Qed.

Lemma preserves_considerContent h v : preserves (considerContent h v).
Proof.
  unfold considerContent.
  apply (preserves_checked_add _ _ _ _ True).
  - intros known H. apply andb_true_iff in H as [H _].
    apply andb_true_iff in H as [_ H].
    destruct known; [discriminate | auto].
  - intros _ f Hf. apply (formatVideo_id h v f Hf).
Qed.

(** An object literal is read back as written. *)
Lemma field_literal h k fs :
  field (fst (literal h fs)) (snd (literal h fs)) k = assoc k fs.
Proof.
  unfold literal, field, deref. simpl. rewrite lookup_insert_eq. reflexivity.
Qed.

Lemma preserves_addLiteral h idv fs (c : bool -> bool) :
  (forall known, c known = true -> known = false /\ truthy idv = true) ->
  preserves (bind (has idv) (fun known => when (c known) (addLiteral h idv fs))).
Proof.
  intros Hc. unfold addLiteral.
  pose proof (field_literal h "id" (("id", idv) :: fs)) as Hid.
  destruct (literal h (("id", idv) :: fs)) as [h' videoData].
  simpl in Hid.
  apply (preserves_checked_add _ _ _ _ (truthy idv = true)); [exact Hc|].
  intros Ht f Hf. rewrite (formatVideo_id h' videoData f Hf), Hid.
  rewrite (or_truthy idv _ Ht). apply or_truthy, Ht.
Qed.

Lemma preserves_considerNode h obj : preserves (considerNode h obj).
Proof.
  unfold considerNode.
  set (idv := or (or (field h obj "videoId") (field h obj "id"))
                 (field h obj "video_id")).
  destruct (truthy idv && isString idv && (strlen idv =? 11)) eqn:E; simpl;
    [|apply preserves_ret].
  apply andb_true_iff in E as [E _]. apply andb_true_iff in E as [Ht _].
  apply preserves_addLiteral.
  intros known H. apply andb_true_iff in H as [H _].
  destruct known; [discriminate | auto].
Qed.

Lemma preserves_considerRenderer h vr duration :
  preserves (considerRenderer h vr duration).
Proof.
  unfold considerRenderer. apply preserves_when.
  apply preserves_addLiteral.
  intros known H. apply andb_true_iff in H as [Ht H].
  destruct known; [discriminate | auto].
Qed.

Lemma preserves_findVideos h budget :
  forall obj, preserves (findVideos budget h obj).
Proof.
  induction budget as [|budget IH]; intros obj; simpl.
  - apply preserves_ret.
  - destruct obj; try apply preserves_ret.
    apply preserves_bind; [apply preserves_considerNode|]. intros _.
    apply preserves_bind; [apply preserves_considerRenderer|]. intros _.
    apply preserves_bind; [apply preserves_considerRenderer|]. intros _.
    apply preserves_forEach, IH.
Qed.

Lemma preserves_processContents h stack :
  forall contents, preserves (processContents stack h contents).
Proof.
  induction stack as [|stack IH]; intros contents; simpl.
  - apply preserves_lift.
  - destruct (isArray h contents); [|apply preserves_ret].
    apply preserves_forOf. intros item.
    apply preserves_bind_lift. intros content _.
    apply preserves_bind; [apply preserves_considerContent|]. intros _.
    apply preserves_bind; [apply preserves_when, IH|]. intros _.
    apply preserves_when, IH.
Qed.

Lemma preserves_fromVideos h data : preserves (fromVideos h data).
Proof.
  unfold fromVideos. apply preserves_bind_lift. intros videos _.
  apply preserves_when, preserves_forOf. intros v.
  apply preserves_considerItem.
Qed.

Lemma preserves_fromCurrentTab h data : preserves (fromCurrentTab h data).
Proof.
  unfold fromCurrentTab. apply preserves_when, preserves_forOf.
  intros section. apply preserves_bind_lift. intros contents _.
  apply preserves_when, preserves_forOf. intros item.
  apply preserves_bind_lift. intros content _.
  apply preserves_considerItem.
Qed.

Lemma preserves_fromContents h data : preserves (fromContents h data).
Proof.
  unfold fromContents. apply preserves_when, preserves_processContents.
Qed.

Lemma good_start s : good s {| seen := s; out := [] |}.
Proof.
  split; [reflexivity|]. split; [constructor|].
  intros v Hv. simpl in Hv. inversion Hv.
Qed.

(** A run of extraction code from the set [s] and an empty result. *)
Lemma extraction_sound (m : M unit) s :
  preserves m ->
  let '(r, st) := m {| seen := s; out := [] |} in
  s ⊆ seen st /\
  NoDup (id <$> out st) /\
  forall v, v ∈ out st -> Str (id v) ∈ seen st /\ Str (id v) ∉ s.
Proof.
  intros Hm. specialize (Hm s _ (good_start s)).
  destruct (m {| seen := s; out := [] |}) as [r st]. exact Hm.
Qed.

Lemma extractVideosFromTab_sound :
  extractSound (fun p s => extractVideosFromTab (heap p) (root p) s).
Proof.
  intros p s. unfold extractVideosFromTab.
  pose proof (extraction_sound
    (bind (fromVideos (heap p) (root p)) (fun _ =>
     bind (fromCurrentTab (heap p) (root p)) (fun _ =>
     fromContents (heap p) (root p)))) s) as H.
  destruct (bind _ _ _) as [r st].
  destruct H as (H1 & H2 & H3).
  { apply preserves_bind; [apply preserves_fromVideos|]. intros _.
    apply preserves_bind; [apply preserves_fromCurrentTab|]. intros _.
    apply preserves_fromContents. }
  destruct r; simpl; auto.
Qed.

Lemma extractVideosFromBrowse_sound :
  extractSound (fun p s =>
    extractVideosFromBrowse (heap p) (field (heap p) (root p) "data") s).
Proof.
  intros p s. unfold extractVideosFromBrowse.
  destruct (truthy (field (heap p) (root p) "data")).
  - pose proof (extraction_sound
      (findVideos 16 (heap p) (field (heap p) (root p) "data")) s
      (preserves_findVideos _ _ _)) as H.
    destruct (findVideos _ _ _ _) as [r st].
    destruct H as (H1 & H2 & H3).
    destruct r; simpl; auto.
  - simpl. split; [reflexivity|]. split; [constructor|].
    intros v Hv. inversion Hv.
Qed.

End ExtractionFacts.

Section FetchFacts.
Import Js ChannelVideos.
Context {RT : Runtime}.

Lemma merge_distinct ex page c now :
  extractSound ex -> distinct c ->
  forall vids, fst (ex page (seenIds c)) = Ok vids ->
  distinct (merge vids (snd (ex page (seenIds c))) now c).
Proof.
  intros Hex [Hnd Hin] vids Hr.
  destruct (Hex page (seenIds c)) as [Hsub Hok]. rewrite Hr in Hok.
  destruct Hok as [Hnd' Hin']. split; simpl.
  - rewrite fmap_app. apply NoDup_app. split; [exact Hnd|]. split; [|exact Hnd'].
    intros x Hx Hx'.
    apply list_elem_of_fmap in Hx as (v & -> & Hv).
    apply list_elem_of_fmap in Hx' as (v' & Heq & Hv').
    destruct (Hin' v' Hv') as [_ Hnot]. apply Hnot.
    rewrite <- Heq. apply Hin, Hv.
  - intros v Hv. apply elem_of_app in Hv as [Hv|Hv].
    + apply Hsub, Hin, Hv.
    + apply (Hin' v Hv).
Qed.

Lemma withSeen_distinct s' c :
  seenIds c ⊆ s' -> distinct c -> distinct (withSeen s' c).
Proof.
  intros Hsub [Hnd Hin]. split; simpl; [exact Hnd|].
  intros v Hv. apply Hsub, Hin, Hv.
Qed.

Lemma appendOnly_snoc done c :
  appendOnly done ->
  Forall (fun d => videos d `prefix_of` videos c) done ->
  appendOnly (done ++ [c]).
Proof.
  intros Hao Hall i j ci cj Hij Hi Hj.
  destruct (decide (j < length done)%nat) as [Hlt|Hge].
  - rewrite lookup_app_l in Hj by exact Hlt.
    rewrite lookup_app_l in Hi by lia.
    exact (Hao i j ci cj Hij Hi Hj).
  - rewrite lookup_app_r in Hj by lia.
    assert (cj = c) as ->.
    { destruct (j - length done)%nat; simpl in Hj; [congruence|].
      rewrite lookup_nil in Hj. discriminate. }
    destruct (decide (i < length done)%nat) as [Hlt|Hge'].
    + rewrite lookup_app_l in Hi by exact Hlt.
      rewrite Forall_forall in Hall. apply Hall.
      apply list_elem_of_lookup. eauto.
    + rewrite lookup_app_r in Hi by lia.
      assert (ci = c) as ->.
      { destruct (i - length done)%nat; simpl in Hi; [congruence|].
        rewrite lookup_nil in Hi. discriminate. }
      reflexivity.
Qed.

Lemma steady_merge ex page c0 c done now vids :
  extractSound ex -> steady c0 c done ->
  fst (ex page (seenIds c)) = Ok vids ->
  let c' := merge vids (snd (ex page (seenIds c))) now c in
  steady c0 c' (done ++ [c']).
Proof.
  intros Hex (Hd & Hf & Hp0 & Hall & Hao) Hr c'.
  assert (Hpc : videos c `prefix_of` videos c') by (apply prefix_app_r; reflexivity).
  assert (Hd' : distinct c') by (eapply merge_distinct; eassumption).
  split; [exact Hd'|]. split; [exact Hf|].
  split; [etransitivity; eassumption|].
  split.
  - apply Forall_app. split.
    + eapply Forall_impl; [exact Hall|]. simpl.
      intros d (H1 & H2 & H3 & H4).
      split; [exact H1|]. split; [exact H2|]. split; [exact H3|].
      etransitivity; eassumption.
    + constructor; [|constructor].
      split; [exact Hd'|]. split; [exact Hf|].
      split; [etransitivity; eassumption | reflexivity].
  - apply appendOnly_snoc; [exact Hao|].
    eapply Forall_impl; [exact Hall|]. simpl.
    intros d (_ & _ & _ & H4). etransitivity; eassumption.
Qed.

Lemma steady_withSeen c0 c done s' :
  seenIds c ⊆ s' -> steady c0 c done -> steady c0 (withSeen s' c) done.
Proof.
  intros Hsub (Hd & Hf & Hp0 & Hall & Hao).
  split; [apply withSeen_distinct; assumption|].
  repeat split; assumption.
Qed.

(** Every merge of a loop keeps the entry free of duplicates, leaves
    the fetching flag set and only appends. *)
Lemma pageLoop_steady (L : Loop) clock c0 fuel :
  extractSound (extract L) ->
  forall page pc ce calls c done e,
    steady c0 c done ->
    pageLoop fuel L clock page pc ce calls c done = Some e ->
    steady c0 (entry e) (merges e).
Proof.
  intros Hex. induction fuel as [|fuel IH];
    intros page pc ce calls c done e Hs; cbn [pageLoop]; [discriminate|].
  destruct ((pc <? cap L)%nat && belowStuck L ce).
  - pose proof (Hex page (seenIds c)) as [Hsub _].
    pose proof (steady_merge (extract L) page c0 c done
                  (clock (length done))) as Hm.
    destruct (extract L page (seenIds c)) as [[pageVideos|msg] seen'];
      simpl in *.
    + specialize (Hm pageVideos Hex Hs eq_refl).
      destruct (next L page (S pc)) as [[page'|msg]|].
      * apply IH. exact Hm.
      * intros [= <-]. exact Hm.
      * intros [= <-]. exact Hm.
    + intros [= <-]. simpl. apply steady_withSeen; assumption.
  - intros [= <-]. exact Hs.
Qed.

Lemma loops_sound u :
  extractSound (extract (videosLoop u)) /\
  extractSound (extract (browseLoop u)) /\
  extractSound (extract (shortsLoop u)) /\
  extractSound (extract (liveLoop u)).
Proof.
  repeat split; first [ apply extractVideosFromTab_sound
                      | apply extractVideosFromBrowse_sound ].
Qed.

Lemma phase_steady (L : Loop) u first c0 c done r c' done' :
  extractSound (extract L) ->
  steady c0 c done ->
  phase L u first c done = Some (r, c', done') ->
  steady c0 c' done'.
Proof.
  intros Hex Hs. unfold phase. destruct first as [page|m].
  - unfold runLoop.
    destruct (pageLoop _ _ _ _ _ _ _ _ _) as [e|] eqn:He; [|discriminate].
    intros [= _ <- <-].
    eapply pageLoop_steady; eassumption.
  - intros [= _ <- <-]. exact Hs.
Qed.

Lemma steady_start c : distinct c -> steady (setFetching true c) (setFetching true c) [].
Proof.
  intros [Hnd Hin]. split; [split; assumption|].
  split; [reflexivity|]. split; [reflexivity|].
  split; [constructor|].
  intros i j ci cj _ Hi. rewrite lookup_nil in Hi. discriminate.
Qed.

(** What [steady] says of the list of merges, read off at the end. *)
Lemma steady_history c0 c done :
  steady c0 c done ->
  distinct c /\
  (length (videos c0) <= length (videos c))%nat /\
  (forall d, d ∈ done ->
     distinct d /\ isFetching d = true /\
     (length (videos c0) <= length (videos d))%nat /\
     (length (videos d) <= length (videos c))%nat) /\
  (forall i j di dj, (i <= j)%nat ->
     done !! i = Some di -> done !! j = Some dj ->
     (length (videos di) <= length (videos dj))%nat).
Proof.
  intros (Hd & Hf & Hp0 & Hall & Hao).
  split; [exact Hd|]. split; [apply prefix_length, Hp0|]. split.
  - intros d Hin. rewrite Forall_forall in Hall.
    destruct (Hall d Hin) as (H1 & H2 & H3 & H4).
    repeat split; try apply H1; try assumption; apply prefix_length;
      assumption.
  - intros i j di dj Hij Hi Hj. apply prefix_length.
    exact (Hao i j di dj Hij Hi Hj).
Qed.

End FetchFacts.

Section CacheFacts.

Lemma FastCache_get_expired {D} (c : FastCache.t D) key e now :
  FastCache.cache c !! key = Some e ->
  FastCache.ttl c < now - FastCache.ts e ->
  FastCache.get key now c = (None, FastCache.remove key c).
Proof.
  intros He Hold. unfold FastCache.get. rewrite He.
  destruct (Z.ltb_spec (FastCache.ttl c) (now - FastCache.ts e)); [|lia].
  reflexivity.
Qed.

Lemma FastCache_get_fresh {D} (c : FastCache.t D) key e now :
  FastCache.cache c !! key = Some e ->
  now - FastCache.ts e <= FastCache.ttl c ->
  FastCache.get key now c = (Some (FastCache.data e), c).
Proof.
  intros He Hnew. unfold FastCache.get. rewrite He.
  destruct (Z.ltb_spec (FastCache.ttl c) (now - FastCache.ts e)); [lia|].
  reflexivity.
Qed.

Lemma FastCache_set_lookup {D} (c : FastCache.t D) key d t :
  FastCache.cache (FastCache.set key d t c) !! key
  = Some {| FastCache.data := d; FastCache.ts := t |}.
Proof. unfold FastCache.set. simpl. apply lookup_insert_eq. Qed.

End CacheFacts.

(** C9, as stated, fails for the channel-video cache: the entry made at
    time 0, with no fetch in flight, is still found however much later
    it is looked up; there is no TTL. *)
Lemma C9_channel_entry_never_expires :
  ~ exists ttl : Z, forall now : Z,
      ttl < now - 0 ->
      ChannelVideos.getCacheStatus "UC123" CacheScenario.oneChannel = None.
Proof.
  intros [ttl H]. specialize (H (ttl + 1) ltac:(lia)).
  vm_compute in H. discriminate.
Qed.

(** C9, amended.  A [FastCache] entry (search, video and comment
    caches) is a miss, and is deleted, when it is looked up more than
    [ttl] after the last [set] of its key, whether or not a background
    fetch is in flight for the key; up to [ttl] after that [set] it is
    a hit.  An entry of the channel-video cache has no TTL: once made,
    [initCache] and [getCacheStatus] find it at any later time. *)
Theorem C9_ttl_from_last_set_only_in_FastCache
    {D : Type} {PR : Search.Presentation} {RT : ChannelVideos.Runtime}
    (c : FastCache.t D) (st : Search.State)
    (m : gmap string ChannelVideos.CacheEntry)
    (key : string) (d : D) (t now : Z) (entry : ChannelVideos.CacheEntry) :
  (FastCache.ttl c < now - t ->
   FastCache.get key now (FastCache.set key d t c)
   = (None, FastCache.remove key (FastCache.set key d t c))) /\
  (now - t <= FastCache.ttl c ->
   FastCache.get key now (FastCache.set key d t c)
   = (Some d, FastCache.set key d t c)) /\
  (forall e, FastCache.cache (Search.searchCache st) !! key = Some e ->
   FastCache.ttl (Search.searchCache st) < now - FastCache.ts e ->
   fst (Search.cacheGet key now st) = None /\
   FastCache.cache (Search.searchCache (snd (Search.cacheGet key now st)))
     !! key = None) /\
  (m !! key = Some entry ->
   ChannelVideos.initCache key now m = (entry, m) /\
   ChannelVideos.getCacheStatus key m <> None).
Proof.
  split; [|split; [|split]].
  - intros Hold. apply (FastCache_get_expired _ _ _ _ (FastCache_set_lookup c key d t)).
    simpl. exact Hold.
  - intros Hnew.
    apply (FastCache_get_fresh _ _ _ _ (FastCache_set_lookup c key d t)).
    simpl. exact Hnew.
  - intros e He Hold. unfold Search.cacheGet.
    rewrite (FastCache_get_expired _ _ _ _ He Hold). simpl.
    split; [reflexivity | apply lookup_delete_eq].
  - intros Hm. unfold ChannelVideos.initCache, ChannelVideos.getCacheStatus.
    rewrite Hm. split; [reflexivity | discriminate].
Qed.

Lemma C9_ttl_from_last_set_only_in_FastCache_witness :
  fst (Search.cacheGet "s|cats" (CONFIG.SEARCH_CACHE_TTL + 1)
         CacheScenario.fetching) = None /\
  ChannelVideos.getCacheStatus "UC123" CacheScenario.oneChannel <> None.
Proof.
  pose proof (C9_ttl_from_last_set_only_in_FastCache
                (D := nat) (PR := CacheScenario.blank)
                (RT := VideoScenario.plain)
                (FastCache.new CONFIG.SEARCH_CACHE_TTL)
                CacheScenario.fetching CacheScenario.oneChannel
                "s|cats" 1%nat 0 (CONFIG.SEARCH_CACHE_TTL + 1)
                (ChannelVideos.emptyEntry 0)) as (_ & _ & Hs & _).
  pose proof (C9_ttl_from_last_set_only_in_FastCache
                (D := nat) (PR := CacheScenario.blank)
                (RT := VideoScenario.plain)
                (FastCache.new CONFIG.SEARCH_CACHE_TTL)
                CacheScenario.fetching CacheScenario.oneChannel
                "UC123" 1%nat 0 (CONFIG.SEARCH_CACHE_TTL + 1)
                (ChannelVideos.emptyEntry 0)) as (_ & _ & _ & Hc).
  split.
  - apply (Hs {| FastCache.data := 1%nat; FastCache.ts := 0 |}).
    + vm_compute. reflexivity.
    + vm_compute. reflexivity.
  - apply Hc. vm_compute. reflexivity.
Defined.

Section SearchFacts.
Import Js Search.
Context {PR : Presentation}.

(** The background search loop adds at most 20 pages. *)
Lemma searchLoop_ends cacheKey ref continuation clock fuel :
  forall pages st,
    (21 <= pages + fuel)%nat -> (1 <= fuel)%nat ->
    exists pages' st',
      searchLoop fuel cacheKey ref continuation clock pages st
        = Some (pages', st') /\
      (pages' <= Nat.max pages 20)%nat.
Proof.
  induction fuel as [|fuel IH]; intros pages st Hf H1; [lia|].
  cbn [searchLoop].
  destruct (objects st !! ref) as [cached|]; [|eexists _, _; split; [reflexivity | lia]].
  destruct (Nat.ltb_spec pages 20) as [Hlt|Hge].
  - destruct ((length (results cached) <? CONFIG.MAX_RESULTS_PER_SEARCH)%nat
              && has_continuation cached); cbn [andb];
      [|eexists _, _; split; [reflexivity | lia]].
    destruct (continuation pages) as [page|m];
      [|eexists _, _; split; [reflexivity | lia]].
    destruct (extractSearchResults (heap page) (root page) (seenIds cached))
      as [[more|m] seen']; [|eexists _, _; split; [reflexivity | lia]].
    destruct (length more =? 0)%nat;
      [eexists _, _; split; [reflexivity | lia]|].
    edestruct (IH (S pages)) as (pages' & st' & He & Hle);
      [| |exists pages', st'; split; [exact He|]]; lia.
  - rewrite andb_false_r. eexists _, _; split; [reflexivity | lia].
Qed.


End SearchFacts.




Section FetchTheorem.
Import Js ChannelVideos.
Context {RT : Runtime}.

Lemma backgroundFetchVideos_steady u cache final history :
  distinct cache ->
  backgroundFetchVideos u cache = Some (final, history) ->
  (final = cache /\ history = []) \/
  exists c, steady (setFetching true cache) c history /\
            videos final = videos c /\ seenIds final = seenIds c.
Proof.
  intros Hd. unfold backgroundFetchVideos.
  destruct (isFetching cache || isComplete cache);
    [intros [= <- <-]; left; auto|].
  destruct (loops_sound u) as (Hv & Hb & Hs & Hl).
  pose proof (steady_start cache Hd) as H0.
  destruct (phase (videosLoop u) u (getVideos u) (setFetching true cache) [])
    as [[[r1 c1] d1]|] eqn:E1; [|discriminate].
  pose proof (phase_steady _ _ _ _ _ _ _ _ _ Hv H0 E1) as H1.
  assert (H2 : forall r2 c2 d2,
             match r1 with
             | Ok _ => Some (Ok tt, c1, d1)
             | Throw _ => phase (browseLoop u) u (browse u) c1 d1
             end = Some (r2, c2, d2) ->
             steady (setFetching true cache) c2 d2).
  { intros r2 c2 d2. destruct r1.
    - intros [= _ <- <-]. exact H1.
    - intros E2. exact (phase_steady _ _ _ _ _ _ _ _ _ Hb H1 E2). }
  destruct (match r1 with
            | Ok _ => Some (Ok tt, c1, d1)
            | Throw _ => phase (browseLoop u) u (browse u) c1 d1
            end) as [[[r2 c2] d2]|]; [|discriminate].
  specialize (H2 r2 c2 d2 eq_refl).
  destruct r2 as [[]|m].
  - destruct (phase (shortsLoop u) u (getShorts u) c2 d2)
      as [[[r3 c3] d3]|] eqn:E3; [|discriminate].
    pose proof (phase_steady _ _ _ _ _ _ _ _ _ Hs H2 E3) as H3.
    destruct (phase (liveLoop u) u (getLiveStreams u) c3 d3)
      as [[[r4 c4] d4]|] eqn:E4; [|discriminate].
    pose proof (phase_steady _ _ _ _ _ _ _ _ _ Hl H3 E4) as H4.
    intros [= <- <-]. right. exists c4. auto.
  - intros [= <- <-]. right. exists c2. auto.
Qed.

End FetchTheorem.

(** C7: an entry of the channel-video cache never holds two videos with
    the same identifier.  Each extraction skips every candidate whose
    identifier is already in the entry's set and returns videos with
    distinct identifiers that it has added to the set; and through a
    whole background fetch, after every merge, the entry is free of
    duplicates, its fetching flag is set, and its item count is at
    least what it was after the merge before. *)
Theorem C7_no_duplicate_ids_and_growth {RT : ChannelVideos.Runtime}
    (u : ChannelVideos.Upstream) (cache : ChannelVideos.CacheEntry)
    (h : Js.Heap) (data : Js.Val) (seenIds : gset Js.Val) :
  ChannelVideos.distinct cache ->
  (seenIds ⊆ snd (ChannelVideos.extractVideosFromTab h data seenIds) /\
   forall vids,
     fst (ChannelVideos.extractVideosFromTab h data seenIds) = Js.Ok vids ->
     NoDup (ChannelVideos.id <$> vids) /\
     forall v, v ∈ vids ->
       (Js.Str (ChannelVideos.id v) ∉ seenIds) /\
       (Js.Str (ChannelVideos.id v)
          ∈ snd (ChannelVideos.extractVideosFromTab h data seenIds))) /\
  exists final history,
    ChannelVideos.backgroundFetchVideos u cache = Some (final, history) /\
    ChannelVideos.distinct final /\
    (length (ChannelVideos.videos cache)
     <= length (ChannelVideos.videos final))%nat /\
    (forall d, d ∈ history ->
       ChannelVideos.distinct d /\ ChannelVideos.isFetching d = true /\
       (length (ChannelVideos.videos cache)
        <= length (ChannelVideos.videos d))%nat /\
       (length (ChannelVideos.videos d)
        <= length (ChannelVideos.videos final))%nat) /\
    (forall i j di dj, (i <= j)%nat ->
       history !! i = Some di -> history !! j = Some dj ->
       (length (ChannelVideos.videos di)
        <= length (ChannelVideos.videos dj))%nat).
Proof.
  intros Hd. split.
  - pose proof (extractVideosFromTab_sound
                  {| ChannelVideos.heap := h; ChannelVideos.root := data |}
                  seenIds) as [Hsub Hok].
    simpl in *. split; [exact Hsub|].
    intros vids Hr. rewrite Hr in Hok. destruct Hok as [Hnd Hin].
    split; [exact Hnd|]. intros v Hv. destruct (Hin v Hv). auto.
  - destruct (backgroundFetchVideos_ends u cache) as ([final history] & He).
    exists final, history. split; [exact He|].
    destruct (backgroundFetchVideos_steady u cache final history Hd He)
      as [[-> ->] | (c & Hs & Hv & Hseen)].
    + split; [exact Hd|]. split; [lia|]. split.
      * intros d Hin. inversion Hin.
      * intros i j di dj _ Hi. rewrite lookup_nil in Hi. discriminate.
    + destruct (steady_history _ _ _ Hs) as ([Hnd Hin] & Hlen & Hall & Hmono).
      simpl in Hlen.
      split; [split|].
      * rewrite Hv. exact Hnd.
      * intros v. rewrite Hv, Hseen. apply Hin.
      * split; [rewrite Hv; exact Hlen|]. split; [|exact Hmono].
        intros d Hd'. destruct (Hall d Hd') as (H1 & H2 & H3 & H4).
        simpl in H3. rewrite Hv. auto.
Qed.

Lemma C7_no_duplicate_ids_and_growth_witness :
  exists final history,
    ChannelVideos.backgroundFetchVideos (RT := VideoScenario.plain)
      VideoScenario.repeating (ChannelVideos.emptyEntry 0)
      = Some (final, history) /\
    ChannelVideos.distinct final.
Proof.
  destruct (C7_no_duplicate_ids_and_growth (RT := VideoScenario.plain)
              VideoScenario.repeating (ChannelVideos.emptyEntry 0)
              ∅ Js.Undefined ∅) as [_ (final & history & He & Hd & _)].
  - split; simpl; [constructor | intros v Hv; inversion Hv].
  - exists final, history. split; [exact He | exact Hd].
Defined.

(* ================================================================= *)
(** * Further properties *)

Section GateTraceFacts.
Import RequestSemaphore GateTrace.

Lemma fifo_from cs : forall s,
  waitingQueue s ++ parked cs s = resumed cs s ++ waitingQueue (run cs s).
Proof.
  induction cs as [|c cs IH]; intros s; cbn [parked resumed run fold_left].
  - rewrite app_nil_r. reflexivity.
  - change (fold_left (fun s c => step c s) cs (step c s))
      with (run cs (step c s)).
    specialize (IH (step c s)). destruct c as [w|]; cbn [step] in *.
    + unfold acquire in *.
      destruct (currentCount s <? maxConcurrent s); simpl in *.
      * exact IH.
      * rewrite <- IH, <- app_assoc. reflexivity.
    + unfold release in *.
      destruct (waitingQueue s) as [|next rest]; simpl in *.
      * exact IH.
      * rewrite <- IH. reflexivity.
Qed.

Lemma counted_from cs : forall s h,
  currentCount s = h -> 0 <= h -> wellBracketed cs s h ->
  currentCount (run cs s) = holding cs s h /\ 0 <= holding cs s h.
Proof.
  induction cs as [|c cs IH]; intros s h Hc Hh Hwb;
    cbn [holding run fold_left wellBracketed] in *.
  - auto.
  - change (fold_left (fun s c => step c s) cs (step c s))
      with (run cs (step c s)).
    destruct c as [w|]; cbn [step] in *.
    + unfold acquire in *.
      destruct (currentCount s <? maxConcurrent s); cbn [fst snd] in *;
        apply IH; cbn; try assumption; lia.
    + destruct Hwb as [Hpos Hwb]. unfold release in *.
      destruct (waitingQueue s) as [|next rest]; cbn [fst snd] in *;
        apply IH; cbn; try assumption; lia.
Qed.

End GateTraceFacts.

(** X1: the gate serves its waiters first come, first served: under
    every interleaving of [acquire] and [release] calls on a new
    semaphore, the waiters resumed so far followed by those still queued
    are exactly the waiters parked, in the order they arrived. *)
Theorem X1_waiters_resumed_in_arrival_order (maxConcurrent : Z)
    (cs : list RequestSemaphore.call) :
  GateTrace.parked cs (RequestSemaphore.new maxConcurrent)
  = GateTrace.resumed cs (RequestSemaphore.new maxConcurrent)
    ++ RequestSemaphore.waitingQueue
         (RequestSemaphore.run cs (RequestSemaphore.new maxConcurrent)).
Proof.
  exact (fifo_from cs (RequestSemaphore.new maxConcurrent)).
Qed.

(** X2: when every [release] comes from a caller that holds a slot,
    [currentCount] is exactly the number of callers holding one: a
    [release] that resumes a waiter passes the slot on without touching
    the counter, and the clamp at zero never comes into play. *)
Theorem X2_count_is_number_of_holders (maxConcurrent : Z)
    (cs : list RequestSemaphore.call) :
  GateTrace.wellBracketed cs (RequestSemaphore.new maxConcurrent) 0 ->
  RequestSemaphore.currentCount
    (RequestSemaphore.run cs (RequestSemaphore.new maxConcurrent))
  = GateTrace.holding cs (RequestSemaphore.new maxConcurrent) 0 /\
  0 <= GateTrace.holding cs (RequestSemaphore.new maxConcurrent) 0.
Proof.
  intros Hwb. apply counted_from; [reflexivity | lia | exact Hwb].
Qed.

Lemma X2_count_is_number_of_holders_witness :
  RequestSemaphore.currentCount
    (RequestSemaphore.run
       [RequestSemaphore.Acquire 1%nat; RequestSemaphore.Acquire 2%nat;
        RequestSemaphore.Acquire 3%nat; RequestSemaphore.Release;
        RequestSemaphore.Release]
       (RequestSemaphore.new 2))
  = GateTrace.holding
      [RequestSemaphore.Acquire 1%nat; RequestSemaphore.Acquire 2%nat;
       RequestSemaphore.Acquire 3%nat; RequestSemaphore.Release;
       RequestSemaphore.Release]
      (RequestSemaphore.new 2) 0 /\
  0 <= GateTrace.holding
      [RequestSemaphore.Acquire 1%nat; RequestSemaphore.Acquire 2%nat;
       RequestSemaphore.Acquire 3%nat; RequestSemaphore.Release;
       RequestSemaphore.Release]
      (RequestSemaphore.new 2) 0.
Proof.
  apply (X2_count_is_number_of_holders 2). cbn. repeat split; lia.
Defined.


Section SelectionFacts.
Import YouTubeInstancePool Selection.

Lemma selectionInv_step now m seen r inst :
  selectionInv now m seen r ->
  selectionInv now m (seen ++ [inst]) (roundStep now m r inst).
Proof.
  intros [Hnone Hsome]. unfold roundStep.
  assert (Hkeep : (forall st, m !! id inst = Some st ->
                     activeRequests st < CONFIG.MAX_REQUESTS_PER_INSTANCE ->
                     (needsRefresh now st && (activeRequests st =? 0)) = false ->
                     False) ->
                  selectionInv now m (seen ++ [inst]) r).
  { intros Hne. split.
    - intros Hb. destruct (Hnone Hb) as [Hl Hall]. split; [exact Hl|].
      intros i Hi. apply elem_of_app in Hi as [Hi|Hi]; [apply Hall, Hi|].
      apply list_elem_of_singleton in Hi. subst i.
      intros (st & Hst & Hlt & Hfresh). eapply Hne; eassumption.
    - intros b Hb. destruct (Hsome b Hb) as (Hin & Hel & st & Hst & Hl & Hmin).
      split; [apply elem_of_app; left; exact Hin|]. split; [exact Hel|].
      exists st. split; [exact Hst|]. split; [exact Hl|].
      intros o st' Ho Helo Hsto. apply elem_of_app in Ho as [Ho|Ho].
      + eapply Hmin; eassumption.
      + apply list_elem_of_singleton in Ho. subst o.
        destruct Helo as (st0 & Hst0 & Hlt & Hfresh).
        exfalso. eapply Hne; eassumption. }
  destruct (m !! id inst) as [st|] eqn:Est.
  2:{ apply Hkeep. intros st Hst. discriminate. }
  destruct (Z.leb_spec CONFIG.MAX_REQUESTS_PER_INSTANCE (activeRequests st))
    as [Hfull|Hfree].
  { apply Hkeep. intros st' [= <-] Hlt. lia. }
  destruct (needsRefresh now st && (activeRequests st =? 0)) eqn:Estale.
  { split; simpl.
    - intros Hb. destruct (Hnone Hb) as [Hl Hall]. split; [exact Hl|].
      intros i Hi. apply elem_of_app in Hi as [Hi|Hi]; [apply Hall, Hi|].
      apply list_elem_of_singleton in Hi. subst i.
      intros (st' & Hst' & _ & Hfresh). rewrite Est in Hst'.
      injection Hst' as <-. congruence.
    - intros b Hb. destruct (Hsome b Hb) as (Hin & Hel & st0 & Hst & Hl & Hmin).
      split; [apply elem_of_app; left; exact Hin|]. split; [exact Hel|].
      exists st0. split; [exact Hst|]. split; [exact Hl|].
      intros o st' Ho Helo Hsto. apply elem_of_app in Ho as [Ho|Ho].
      + eapply Hmin; eassumption.
      + apply list_elem_of_singleton in Ho. subst o.
        destruct Helo as (st1 & Hst1 & _ & Hfresh). rewrite Est in Hst1.
        injection Hst1 as <-. congruence. }
  assert (Hel : eligible now m inst) by (exists st; auto).
  destruct (belowLoad (loadScore2 st) (lowestLoad r)) eqn:Ebelow.
  - split; simpl; [discriminate|].
    intros b [= <-]. split; [apply elem_of_app; right; constructor|].
    split; [exact Hel|]. exists st. split; [exact Est|].
    split; [reflexivity|].
    intros o st' Ho Helo Hsto. apply elem_of_app in Ho as [Ho|Ho].
    + destruct (bestInstance r) as [b|] eqn:Eb.
      * destruct (Hsome b eq_refl) as (_ & _ & st0 & Hst0 & Hl & Hmin).
        rewrite Hl in Ebelow. simpl in Ebelow. apply Z.ltb_lt in Ebelow.
        specialize (Hmin o st' Ho Helo Hsto). lia.
      * destruct (Hnone eq_refl) as [_ Hall]. exfalso.
        exact (Hall o Ho Helo).
    + apply list_elem_of_singleton in Ho. subst o.
      rewrite Est in Hsto. injection Hsto as <-. lia.
  - destruct (bestInstance r) as [b|] eqn:Eb.
    + destruct (Hsome b eq_refl) as (Hin & Helb & st0 & Hst0 & Hl & Hmin).
      rewrite Hl in Ebelow. simpl in Ebelow. apply Z.ltb_ge in Ebelow.
      split; [rewrite Eb; discriminate|].
      intros b' Hb'. rewrite Eb in Hb'. injection Hb' as <-.
      split; [apply elem_of_app; left; exact Hin|]. split; [exact Helb|].
      exists st0. split; [exact Hst0|]. split; [exact Hl|].
      intros o st' Ho Helo Hsto. apply elem_of_app in Ho as [Ho|Ho].
      * eapply Hmin; eassumption.
      * apply list_elem_of_singleton in Ho. subst o.
        rewrite Est in Hsto. injection Hsto as <-. lia.
    + destruct (Hnone eq_refl) as [Hl _]. rewrite Hl in Ebelow.
      discriminate.
Qed.

Lemma selectionInv_fold now m l : forall seen r,
  selectionInv now m seen r ->
  selectionInv now m (seen ++ l) (fold_left (roundStep now m) l r).
Proof.
  induction l as [|inst l IH]; intros seen r Hr; simpl.
  - rewrite app_nil_r. exact Hr.
  - replace (seen ++ inst :: l) with ((seen ++ [inst]) ++ l)
      by (rewrite <- app_assoc; reflexivity).
    apply IH, selectionInv_step, Hr.
Qed.

Lemma selectionLoop_inv now p :
  selectionInv now (instanceStats p) (instances p) (selectionLoop now p).
Proof.
  unfold selectionLoop.
  apply (selectionInv_fold now (instanceStats p) (instances p) []).
  split; simpl; [|discriminate].
  intros _. split; [reflexivity|]. intros i Hi. inversion Hi.
Qed.

End SelectionFacts.

(** X3: one pass of [getInstance] throws exactly when the pool has no
    instance; otherwise it returns an instance of the pool that has
    statistics, is below [MAX_REQUESTS_PER_INSTANCE] and is not both due
    for refresh and idle, and whose load score
    [activeRequests + 0.5 * errors] is the least among all such
    instances; and it waits only when the pool has no such instance. *)
Theorem X3_getInstance_selects_least_loaded (now : Z)
    (s : YouTubeInstancePool.Sys) :
  match fst (YouTubeInstancePool.getInstanceRound now s) with
  | YouTubeInstancePool.RThrow =>
      YouTubeInstancePool.instances (YouTubeInstancePool.pool s) = []
  | YouTubeInstancePool.RFound inst =>
      inst ∈ YouTubeInstancePool.instances (YouTubeInstancePool.pool s) /\
      Selection.eligible now
        (YouTubeInstancePool.instanceStats (YouTubeInstancePool.pool s)) inst /\
      forall other st st',
        other ∈ YouTubeInstancePool.instances (YouTubeInstancePool.pool s) ->
        Selection.eligible now
          (YouTubeInstancePool.instanceStats (YouTubeInstancePool.pool s))
          other ->
        YouTubeInstancePool.instanceStats (YouTubeInstancePool.pool s)
          !! YouTubeInstancePool.id inst = Some st ->
        YouTubeInstancePool.instanceStats (YouTubeInstancePool.pool s)
          !! YouTubeInstancePool.id other = Some st' ->
        YouTubeInstancePool.loadScore2 st <= YouTubeInstancePool.loadScore2 st'
  | YouTubeInstancePool.RBusy =>
      YouTubeInstancePool.instances (YouTubeInstancePool.pool s) <> [] /\
      forall inst,
        inst ∈ YouTubeInstancePool.instances (YouTubeInstancePool.pool s) ->
        ~ Selection.eligible now
            (YouTubeInstancePool.instanceStats (YouTubeInstancePool.pool s))
            inst
  end.
Proof.
  unfold YouTubeInstancePool.getInstanceRound.
  pose proof (selectionLoop_inv now (YouTubeInstancePool.pool s))
    as [Hnone Hsome].
  destruct (YouTubeInstancePool.instances (YouTubeInstancePool.pool s))
    as [|i l] eqn:Ei; [reflexivity|].
  destruct (YouTubeInstancePool.bestInstance
              (YouTubeInstancePool.selectionLoop now
                 (YouTubeInstancePool.pool s))) as [b|] eqn:Eb; simpl.
  - destruct (Hsome b eq_refl) as (Hin & Hel & st0 & Hst0 & _ & Hmin).
    split; [exact Hin|]. split; [exact Hel|].
    intros other st st' Ho Helo Hst Hst'. rewrite Hst0 in Hst.
    injection Hst as <-. eapply Hmin; eassumption.
  - split; [discriminate|]. apply Hnone. reflexivity.
Qed.

Section PoolLifeCycle.
Import YouTubeInstancePool Selection.

Lemma instances_acquireResume inst now p :
  instances (acquireResume inst now p) = instances p /\
  initPromise (acquireResume inst now p) = initPromise p.
Proof.
  unfold acquireResume. destruct (instanceStats p !! id inst); auto.
Qed.

Lemma instances_release i h p :
  instances (release i h p) = instances p /\
  initPromise (release i h p) = initPromise p.
Proof.
  unfold release. destruct (instanceStats p !! i); auto.
Qed.

Lemma instances_refreshed oldId index r now p :
  length (instances (refreshed oldId index r now p)) = length (instances p) /\
  initPromise (refreshed oldId index r now p) = initPromise p.
Proof.
  unfold refreshed. destruct r as [[i c]|]; simpl; [|auto].
  rewrite length_insert. auto.
Qed.

Lemma noneQueued_step g s : noneQueued s -> noneQueued (step g s).
Proof.
  unfold noneQueued. intros Hs.
  destruct g as [|r now|task now|task now|i h|k r now]; simpl.
  - unfold initialize. destruct (initPromise (pool s)); [exact Hs|].
    destruct (CONFIG.POOL_SIZE <=? length (instances (pool s)))%nat;
      [exact Hs | simpl; exact Hs].
  - unfold created. destruct (creating s) as [|n]; [exact Hs|].
    destruct r as [[i c]|]; simpl.
    + intros Hnil. exfalso. destruct n; simpl in Hnil;
        destruct (instances (pool s)); discriminate.
    + destruct n; simpl; exact Hs.
  - destruct (initialized s); [|exact Hs].
    destruct (getInstanceRound_frame now s) as (Hp & _ & _).
    unfold getInstanceRound in *.
    destruct (instances (pool s)) as [|i0 l] eqn:Ei;
      [simpl; intros _; apply Hs; reflexivity|].
    destruct (bestInstance (selectionLoop now (pool s))); simpl in *;
      rewrite Hp, Ei; discriminate.
  - destruct (removeFirst task (selected s)) as [[inst|] rest]; [|exact Hs].
    simpl. destruct (instances_acquireResume inst now (pool s)) as [-> _].
    exact Hs.
  - destruct (instances_release i h (pool s)) as [-> _]. exact Hs.
  - destruct (refreshing s !! k) as [[oldId index]|] eqn:Ek; [|exact Hs].
    simpl. intros Hnil.
    destruct (instances_refreshed oldId index r now (pool s)) as [Hlen _].
    rewrite Hnil in Hlen. simpl in Hlen.
    destruct (instances (pool s)); [|discriminate].
    rewrite (Hs eq_refl) in Ek. discriminate.
Qed.

Lemma noneQueued_run gs : forall s, noneQueued s -> noneQueued (run gs s).
Proof.
  induction gs as [|g gs IH]; intros s Hs; [exact Hs|].
  apply IH, noneQueued_step, Hs.
Qed.

Lemma dead_step g s : dead s -> dead (step g s).
Proof.
  intros Hs. pose proof Hs as (Hinit & Hcreating & Hnil & Hpending).
  destruct g as [|r now|task now|task now|i h|k r now]; simpl.
  - unfold initialize. rewrite Hinit. exact Hs.
  - unfold created. rewrite Hcreating. exact Hs.
  - destruct (initialized s); [|exact Hs].
    unfold getInstanceRound. rewrite Hnil. exact Hs.
  - destruct (removeFirst task (selected s)) as [[inst|] rest]; [|exact Hs].
    destruct (instances_acquireResume inst now (pool s)) as [Hi Hp].
    unfold dead. simpl. rewrite Hi, Hp. auto.
  - destruct (instances_release i h (pool s)) as [Hi Hp].
    unfold dead. simpl. rewrite Hi, Hp. auto.
  - rewrite Hpending. exact Hs.
Qed.

Lemma dead_run gs : forall s, dead s -> dead (run gs s).
Proof.
  induction gs as [|g gs IH]; intros s Hs; [exact Hs|].
  apply IH, dead_step, Hs.
Qed.

End PoolLifeCycle.

(** X4: a failed initialization is never repeated.  If, at some point
    after start-up, the initializer has been started, all of its creations
    have settled and the pool holds no instance, then whatever runs
    afterwards (further [initialize] calls included) the pool stays empty
    and every [getInstance] throws 'No YouTube instances available' on
    its first pass. *)
Theorem X4_failed_initialization_is_permanent
    (before after : list YouTubeInstancePool.segment)
    (polls : nat) (others : Z -> list YouTubeInstancePool.segment) (now : Z) :
  let s := YouTubeInstancePool.run before instancePool in
  YouTubeInstancePool.initPromise (YouTubeInstancePool.pool s) = true ->
  YouTubeInstancePool.creating s = 0%nat ->
  YouTubeInstancePool.instances (YouTubeInstancePool.pool s) = [] ->
  let s' := YouTubeInstancePool.run after s in
  YouTubeInstancePool.instances (YouTubeInstancePool.pool s') = [] /\
  YouTubeInstancePool.getInstance (S polls) others now s'
  = (YouTubeInstancePool.Rejected, s').
Proof.
  intros s Hinit Hcreating Hnil s'.
  assert (Hdead : Selection.dead s).
  { unfold Selection.dead. repeat split; try assumption.
    apply (noneQueued_run before instancePool); [|exact Hnil].
    intros _. reflexivity. }
  destruct (dead_run after s Hdead) as (Hinit' & Hcreating' & Hnil' & _).
  split; [exact Hnil'|].
  apply getInstance_empty; [|exact Hnil'].
  unfold YouTubeInstancePool.initialized. subst s'.
  rewrite Hinit', Hcreating'. reflexivity.
Qed.

Lemma X4_failed_initialization_is_permanent_witness :
  let after := [YouTubeInstancePool.SInitialize;
                YouTubeInstancePool.SGetInstance 1 50;
                YouTubeInstancePool.SInitialize] in
  YouTubeInstancePool.instances
    (YouTubeInstancePool.pool
       (YouTubeInstancePool.run after Scenario.noInstance)) = [] /\
  YouTubeInstancePool.getInstance 1 Scenario.quiet 60
    (YouTubeInstancePool.run after Scenario.noInstance)
  = (YouTubeInstancePool.Rejected,
     YouTubeInstancePool.run after Scenario.noInstance).
Proof.
  exact (X4_failed_initialization_is_permanent
           [YouTubeInstancePool.SInitialize;
            YouTubeInstancePool.SCreated None 0;
            YouTubeInstancePool.SCreated None 0;
            YouTubeInstancePool.SCreated None 0;
            YouTubeInstancePool.SCreated None 0;
            YouTubeInstancePool.SCreated None 0]
           [YouTubeInstancePool.SInitialize;
            YouTubeInstancePool.SGetInstance 1 50;
            YouTubeInstancePool.SInitialize]
           0 Scenario.quiet 60 eq_refl eq_refl eq_refl).
Defined.


Section PoolHandles.
Import YouTubeInstancePool Selection.

Lemma findIndex_elem inst l : inst ∈ l -> is_Some (findIndex (id inst) l).
Proof.
  induction l as [|i l IH]; intros Hin; [inversion Hin|].
  simpl. destruct (decide (id i = id inst)); [eexists; reflexivity|].
  apply elem_of_cons in Hin as [->|Hin]; [congruence|].
  destruct (IH Hin) as [k ->]. eexists; reflexivity.
Qed.

Lemma refreshing_fold calls : forall s,
  refreshing (fold_left (fun s i => refreshInstance i s) calls s)
  = refreshing s ++ pendings (instances (pool s)) calls.
Proof.
  induction calls as [|i calls IH]; intros s; simpl.
  - rewrite app_nil_r. reflexivity.
  - rewrite IH. destruct (refreshInstance_frame i s) as (-> & _ & _).
    unfold refreshInstance.
    destruct (findIndex i (instances (pool s))); simpl; [|reflexivity].
    rewrite <- app_assoc. reflexivity.
Qed.

Lemma refreshCalls_step now m r inst :
  refreshCalls r `prefix_of` refreshCalls (roundStep now m r inst).
Proof.
  unfold roundStep. destruct (m !! id inst) as [st|]; [|reflexivity].
  destruct (CONFIG.MAX_REQUESTS_PER_INSTANCE <=? activeRequests st);
    [reflexivity|].
  destruct (needsRefresh now st && (activeRequests st =? 0));
    [apply prefix_app_r; reflexivity|].
  destruct (belowLoad (loadScore2 st) (lowestLoad r)); reflexivity.
Qed.

Lemma refreshCalls_fold now m l : forall r,
  refreshCalls r `prefix_of` refreshCalls (fold_left (roundStep now m) l r).
Proof.
  induction l as [|i l IH]; intros r; simpl; [reflexivity|].
  etransitivity; [apply refreshCalls_step | apply IH].
Qed.

Lemma refreshCalls_stale now m l inst st :
  inst ∈ l -> m !! id inst = Some st ->
  needsRefresh now st = true -> activeRequests st = 0 ->
  forall r, id inst ∈ refreshCalls (fold_left (roundStep now m) l r).
Proof.
  intros Hin Hst Hstale Hidle.
  induction l as [|i l IH]; intros r; [inversion Hin|].
  apply elem_of_cons in Hin as [<-|Hin]; [|apply IH, Hin].
  simpl.
  destruct (refreshCalls_fold now m l (roundStep now m r inst)) as [k ->].
  apply elem_of_app. left. unfold roundStep. rewrite Hst, Hidle, Hstale.
  simpl. apply elem_of_app. right. constructor.
Qed.

Lemma pendings_count insts calls i :
  i ∈ calls -> is_Some (findIndex i insts) ->
  (1 <= length (List.filter (fun p => String.eqb (fst p) i)
                  (pendings insts calls)))%nat.
Proof.
  intros Hin [k Hk]. induction calls as [|c calls IH]; [inversion Hin|].
  simpl. apply elem_of_cons in Hin as [<-|Hin].
  - rewrite Hk. simpl. rewrite String.eqb_refl. simpl. lia.
  - specialize (IH Hin). destruct (findIndex c insts); [|exact IH].
    simpl. destruct (String.eqb c i); simpl; lia.
Qed.

End PoolHandles.

(** X5: an [acquire] that counts on an instance, followed by the
    [release] of that instance, leaves [activeRequests] as it was, adds
    one to [requestCount], adds one to [errors] exactly when
    [hadError] is set, moves [lastUsed] to the time of the acquire, and
    touches neither [createdAt], nor the statistics of any other
    instance, nor the array of instances. *)
Theorem X5_acquire_then_release (inst : YouTubeInstancePool.Instance)
    (now : Z) (hadError : bool) (p : YouTubeInstancePool.t)
    (st : YouTubeInstancePool.InstanceStats) :
  YouTubeInstancePool.instanceStats p !! YouTubeInstancePool.id inst = Some st ->
  0 <= YouTubeInstancePool.activeRequests st ->
  let p' := YouTubeInstancePool.release (YouTubeInstancePool.id inst) hadError
              (YouTubeInstancePool.acquireResume inst now p) in
  YouTubeInstancePool.instances p' = YouTubeInstancePool.instances p /\
  YouTubeInstancePool.instanceStats p'
  = <[YouTubeInstancePool.id inst :=
        {| YouTubeInstancePool.createdAt := YouTubeInstancePool.createdAt st;
           YouTubeInstancePool.requestCount :=
             YouTubeInstancePool.requestCount st + 1;
           YouTubeInstancePool.activeRequests :=
             YouTubeInstancePool.activeRequests st;
           YouTubeInstancePool.errors :=
             if hadError then YouTubeInstancePool.errors st + 1
             else YouTubeInstancePool.errors st;
           YouTubeInstancePool.lastUsed := now |}]>
      (YouTubeInstancePool.instanceStats p).
Proof.
  intros Hst Hpos p'. subst p'.
  unfold YouTubeInstancePool.acquireResume. rewrite Hst.
  unfold YouTubeInstancePool.release. simpl.
  rewrite lookup_insert_eq. simpl. split; [reflexivity|].
  rewrite insert_insert_eq.
  replace (Z.max 0 (YouTubeInstancePool.activeRequests st + 1 - 1))
    with (YouTubeInstancePool.activeRequests st) by lia.
  reflexivity.
Qed.

Lemma X5_acquire_then_release_witness :
  let p := YouTubeInstancePool.pool Scenario.oneInstance in
  let p' := YouTubeInstancePool.release "yt_a" true
              (YouTubeInstancePool.acquireResume
                 {| YouTubeInstancePool.id := "yt_a";
                    YouTubeInstancePool.instance := 1%nat |} 30 p) in
  YouTubeInstancePool.instances p' = YouTubeInstancePool.instances p /\
  YouTubeInstancePool.instanceStats p'
  = <["yt_a"%string :=
        {| YouTubeInstancePool.createdAt := 0;
           YouTubeInstancePool.requestCount := 0 + 1;
           YouTubeInstancePool.activeRequests := 0;
           YouTubeInstancePool.errors := 0 + 1;
           YouTubeInstancePool.lastUsed := 30 |}]>
      (YouTubeInstancePool.instanceStats p).
Proof.
  refine (X5_acquire_then_release
            {| YouTubeInstancePool.id := "yt_a";
               YouTubeInstancePool.instance := 1%nat |} 30 true
            (YouTubeInstancePool.pool Scenario.oneInstance)
            (YouTubeInstancePool.freshStats 0) _ _).
  - vm_compute. reflexivity.
  - simpl. lia.
Defined.

(** X6: a refresh that succeeds puts the new instance into the slot of
    the old one, registers fresh statistics for it and deletes the
    statistics of the old id; the pool keeps its size.  From then on a
    [release] for the old id, and the counting step of an [acquire] that
    had selected the old instance before, change nothing.  A refresh
    whose creation fails leaves the pool as it was. *)
Theorem X6_refresh_replaces_in_place (oldId newId : string)
    (index client : nat) (now : Z) (p : YouTubeInstancePool.t) :
  newId <> oldId ->
  (index < length (YouTubeInstancePool.instances p))%nat ->
  let p' := YouTubeInstancePool.refreshed oldId index
              (Some (newId, client)) now p in
  length (YouTubeInstancePool.instances p')
  = length (YouTubeInstancePool.instances p) /\
  YouTubeInstancePool.instances p' !! index
  = Some {| YouTubeInstancePool.id := newId;
            YouTubeInstancePool.instance := client |} /\
  (forall k, k <> index ->
     YouTubeInstancePool.instances p' !! k
     = YouTubeInstancePool.instances p !! k) /\
  YouTubeInstancePool.instanceStats p' !! newId
  = Some (YouTubeInstancePool.freshStats now) /\
  YouTubeInstancePool.instanceStats p' !! oldId = None /\
  (forall hadError, YouTubeInstancePool.release oldId hadError p' = p') /\
  (forall c t,
     YouTubeInstancePool.acquireResume
       {| YouTubeInstancePool.id := oldId;
          YouTubeInstancePool.instance := c |} t p' = p') /\
  YouTubeInstancePool.refreshed oldId index None now p = p.
Proof.
  intros Hne Hindex p'. subst p'. unfold YouTubeInstancePool.refreshed.
  simpl. rewrite length_insert.
  split; [reflexivity|]. split; [apply list_lookup_insert_eq, Hindex|].
  split; [intros k Hk; apply list_lookup_insert_ne; congruence|].
  assert (Hold : delete oldId
                   (<[newId := YouTubeInstancePool.freshStats now]>
                      (YouTubeInstancePool.instanceStats p)) !! oldId = None)
    by apply lookup_delete_eq.
  split; [rewrite lookup_delete_ne, lookup_insert_eq by congruence;
          reflexivity|].
  split; [exact Hold|].
  split; [intros h; unfold YouTubeInstancePool.release; simpl;
          rewrite Hold; reflexivity|].
  split; [|reflexivity].
  intros c t. unfold YouTubeInstancePool.acquireResume. simpl.
  rewrite Hold. reflexivity.
Qed.

Lemma X6_refresh_replaces_in_place_witness :
  let p' := YouTubeInstancePool.refreshed "yt_a" 0
              (Some ("yt_b"%string, 2%nat)) 900000
              (YouTubeInstancePool.pool Scenario.oneInstance) in
  YouTubeInstancePool.instances p'
  = [{| YouTubeInstancePool.id := "yt_b";
        YouTubeInstancePool.instance := 2%nat |}] /\
  YouTubeInstancePool.release "yt_a" false p' = p'.
Proof.
  pose proof (X6_refresh_replaces_in_place "yt_a" "yt_b" 0 2 900000
                (YouTubeInstancePool.pool Scenario.oneInstance)) as H.
  destruct H as (_ & _ & _ & _ & _ & Hrel & _).
  - discriminate.
  - vm_compute. lia.
  - split; [reflexivity | apply Hrel].
Defined.

(** X7: [getInstance] does not remember the refreshes it has started.
    Every pass over a pool that holds an instance which is due for
    refresh and idle starts one more [refreshInstance] for it, however
    many are already waiting for their [createInstance]. *)
Theorem X7_every_pass_starts_another_refresh (now : Z)
    (s : YouTubeInstancePool.Sys) (inst : YouTubeInstancePool.Instance)
    (st : YouTubeInstancePool.InstanceStats) :
  inst ∈ YouTubeInstancePool.instances (YouTubeInstancePool.pool s) ->
  YouTubeInstancePool.instanceStats (YouTubeInstancePool.pool s)
    !! YouTubeInstancePool.id inst = Some st ->
  YouTubeInstancePool.needsRefresh now st = true ->
  YouTubeInstancePool.activeRequests st = 0 ->
  (Selection.pendingFor (YouTubeInstancePool.id inst) s + 1
   <= Selection.pendingFor (YouTubeInstancePool.id inst)
        (snd (YouTubeInstancePool.getInstanceRound now s)))%nat.
Proof.
  intros Hin Hst Hstale Hidle.
  assert (Hpend : YouTubeInstancePool.refreshing
                    (snd (YouTubeInstancePool.getInstanceRound now s))
                  = YouTubeInstancePool.refreshing s
                    ++ Selection.pendings
                         (YouTubeInstancePool.instances
                            (YouTubeInstancePool.pool s))
                         (YouTubeInstancePool.refreshCalls
                            (YouTubeInstancePool.selectionLoop now
                               (YouTubeInstancePool.pool s)))).
  { unfold YouTubeInstancePool.getInstanceRound.
    destruct (YouTubeInstancePool.instances (YouTubeInstancePool.pool s))
      as [|i l] eqn:Ei; [inversion Hin|].
    rewrite <- Ei.
    destruct (YouTubeInstancePool.bestInstance
                (YouTubeInstancePool.selectionLoop now
                   (YouTubeInstancePool.pool s)));
      simpl; apply refreshing_fold. }
  unfold Selection.pendingFor. rewrite Hpend, List.filter_app, length_app.
  apply Nat.add_le_mono_l, pendings_count.
  - unfold YouTubeInstancePool.selectionLoop.
    eapply refreshCalls_stale; eassumption.
  - apply findIndex_elem, Hin.
Qed.

Lemma X7_every_pass_starts_another_refresh_witness :
  (Selection.pendingFor "yt_a" Scenario.oneInstance + 1
   <= Selection.pendingFor "yt_a"
        (snd (YouTubeInstancePool.getInstanceRound 900000
                Scenario.oneInstance)))%nat.
Proof.
  refine (X7_every_pass_starts_another_refresh 900000 Scenario.oneInstance
            {| YouTubeInstancePool.id := "yt_a";
               YouTubeInstancePool.instance := 1%nat |}
            (YouTubeInstancePool.freshStats 0) _ _ _ _).
  - vm_compute. constructor.
  - vm_compute. reflexivity.
  - vm_compute. reflexivity.
  - reflexivity.
Defined.

(** X8: when two refreshes of the same instance are in flight and both
    creations succeed, the instance made by the first is dropped from
    the array by the second, but its statistics stay in [instanceStats]:
    the map keeps an entry that no instance of the pool carries. *)
Theorem X8_second_refresh_orphans_the_first (oldId n1 n2 : string)
    (index c1 c2 : nat) (t1 t2 : Z) (p : YouTubeInstancePool.t) :
  (index < length (YouTubeInstancePool.instances p))%nat ->
  n1 <> oldId -> n2 <> n1 ->
  (forall i, i ∈ YouTubeInstancePool.instances p ->
     YouTubeInstancePool.id i <> n1) ->
  let p' := YouTubeInstancePool.refreshed oldId index (Some (n2, c2)) t2
              (YouTubeInstancePool.refreshed oldId index (Some (n1, c1)) t1 p)
  in
  YouTubeInstancePool.instanceStats p' !! n1
  = Some (YouTubeInstancePool.freshStats t1) /\
  YouTubeInstancePool.instances p'
  = <[index := {| YouTubeInstancePool.id := n2;
                  YouTubeInstancePool.instance := c2 |}]>
      (YouTubeInstancePool.instances p) /\
  forall i, i ∈ YouTubeInstancePool.instances p' ->
    YouTubeInstancePool.id i <> n1.
Proof.
  intros Hindex H1 H2 Hfresh p'. subst p'.
  unfold YouTubeInstancePool.refreshed. simpl.
  rewrite list_insert_insert_eq.
  split.
  { rewrite lookup_delete_ne by congruence.
    rewrite lookup_insert_ne by congruence.
    rewrite lookup_delete_ne by congruence.
    apply lookup_insert_eq. }
  split; [reflexivity|].
  intros i Hi. apply list_elem_of_lookup in Hi as [k Hk].
  apply list_lookup_insert_Some in Hk as [(_ & <- & _)|[_ Hk]].
  - simpl. exact H2.
  - apply Hfresh. apply list_elem_of_lookup. exists k. exact Hk.
Qed.

Lemma X8_second_refresh_orphans_the_first_witness :
  let p' := YouTubeInstancePool.refreshed "yt_a" 0
              (Some ("yt_c"%string, 3%nat)) 900200
              (YouTubeInstancePool.refreshed "yt_a" 0
                 (Some ("yt_b"%string, 2%nat)) 900100
                 (YouTubeInstancePool.pool Scenario.oneInstance)) in
  YouTubeInstancePool.instanceStats p' !! "yt_b"%string
  = Some (YouTubeInstancePool.freshStats 900100) /\
  YouTubeInstancePool.instances p'
  = [{| YouTubeInstancePool.id := "yt_c";
        YouTubeInstancePool.instance := 3%nat |}].
Proof.
  pose proof (X8_second_refresh_orphans_the_first "yt_a" "yt_b" "yt_c"
                0 2 3 900100 900200
                (YouTubeInstancePool.pool Scenario.oneInstance)) as H.
  destruct H as (Hst & Hin & _).
  - vm_compute. lia.
  - discriminate.
  - discriminate.
  - intros i Hi. vm_compute in Hi.
    apply list_elem_of_singleton in Hi. subst i. discriminate.
  - split; [exact Hst | exact Hin].
Defined.


Section InvocationFacts.
Import YouTubeInstancePool Executor Handles.

Lemma attemptLoop_counts fuel env o : forall attempts lastError,
  let events := fst (attemptLoop fuel env o attempts lastError) in
  let outcome := snd (attemptLoop fuel env o attempts lastError) in
  count isPoolAcquire events = count isOperation events /\
  count isPoolAcquire events
  = (count (isPoolRelease true) events
     + count (isPoolRelease false) events)%nat /\
  (count isOperation events + attempts <= S (retries o) \/
   count isOperation events = 0)%nat /\
  (count isDelay events + attempts <= retries o \/
   count isDelay events = 0)%nat /\
  count (isPoolRelease false) events
  = (match outcome with Returned _ => 1 | _ => 0 end)%nat.
Proof.
  induction fuel as [|fuel IH]; intros attempts lastError;
    cbn [attemptLoop].
  - cbn. repeat split; auto.
  - destruct (Nat.leb_spec attempts (retries o)) as [Hle|Hgt].
    2:{ cbn. repeat split; auto. }
    destruct (poolAcquire env attempts) as [inst|e|].
    2,3: cbn; repeat split; auto.
    destruct (race env attempts inst) as [r|e].
    { cbn. repeat split; auto; left; lia. }
    specialize (IH (S attempts) (Some e)).
    destruct (attemptLoop fuel env o (S attempts) (Some e)) as [rest out].
    cbn [fst snd] in *. destruct IH as (I1 & I2 & I3 & I4 & I5).
    rewrite !count_app.
    destruct (Nat.leb_spec (S attempts) (retries o)) as [Hn|Hn];
      rewrite ?count_app; cbn; rewrite I5;
      repeat split; try lia.
Qed.

Lemma attemptLoop_then_success env o insts errs r d :
  forall attempts fuel lastError,
  (forall k, (attempts <= k < attempts + d)%nat ->
     poolAcquire env k = Acquired (insts k) /\
     race env k (insts k) = Failed (errs k)) ->
  poolAcquire env (attempts + d)%nat = Acquired (insts (attempts + d)%nat) ->
  race env (attempts + d)%nat (insts (attempts + d)%nat) = Fulfilled r ->
  (attempts + d <= retries o)%nat -> (d + 1 <= fuel)%nat ->
  attemptLoop fuel env o attempts lastError =
  (flat_map (failedAttempt o insts) (seq attempts d)
   ++ successfulAttempt o (insts (attempts + d)%nat),
   Returned r).
Proof.
  induction d as [|d IH]; intros attempts fuel lastError Hfail Hp Hr Hle Hf.
  - destruct fuel as [|fuel]; [lia|]. rewrite Nat.add_0_r in *.
    cbn [attemptLoop].
    destruct (Nat.leb_spec attempts (retries o)); [|lia].
    rewrite Hp, Hr. reflexivity.
  - destruct fuel as [|fuel]; [lia|].
    destruct (Hfail attempts) as [Hp0 Hr0]; [lia|].
    cbn [attemptLoop].
    destruct (Nat.leb_spec attempts (retries o)); [|lia].
    rewrite Hp0, Hr0.
    replace (attempts + S d)%nat with (S attempts + d)%nat in * by lia.
    rewrite (IH (S attempts) fuel (Some (errs attempts))); try assumption;
      try lia.
    2:{ intros k Hk. apply Hfail. lia. }
    cbn [seq flat_map]. unfold failedAttempt at 2.
    rewrite <- !app_assoc. reflexivity.
Qed.

Lemma attemptLoop_then_throw env o insts errs e d :
  forall attempts fuel lastError,
  (forall k, (attempts <= k < attempts + d)%nat ->
     poolAcquire env k = Acquired (insts k) /\
     race env k (insts k) = Failed (errs k)) ->
  poolAcquire env (attempts + d)%nat = AcquireThrew e ->
  (attempts + d <= retries o)%nat -> (d + 1 <= fuel)%nat ->
  attemptLoop fuel env o attempts lastError =
  (flat_map (failedAttempt o insts) (seq attempts d), Threw (Some e)).
Proof.
  induction d as [|d IH]; intros attempts fuel lastError Hfail Hp Hle Hf.
  - destruct fuel as [|fuel]; [lia|]. rewrite Nat.add_0_r in *.
    cbn [attemptLoop].
    destruct (Nat.leb_spec attempts (retries o)); [|lia].
    rewrite Hp. reflexivity.
  - destruct fuel as [|fuel]; [lia|].
    destruct (Hfail attempts) as [Hp0 Hr0]; [lia|].
    cbn [attemptLoop].
    destruct (Nat.leb_spec attempts (retries o)); [|lia].
    rewrite Hp0, Hr0.
    replace (attempts + S d)%nat with (S attempts + d)%nat in * by lia.
    rewrite (IH (S attempts) fuel (Some (errs attempts))); try assumption;
      try lia.
    2:{ intros k Hk. apply Hfail. lia. }
    cbn [seq flat_map]. unfold failedAttempt at 2.
    rewrite <- !app_assoc. reflexivity.
Qed.

Lemma flat_map_seq_ext {A} (f g : nat -> list A) d : forall a,
  (forall j, (a <= j < a + d)%nat -> f j = g j) ->
  flat_map f (seq a d) = flat_map g (seq a d).
Proof.
  induction d as [|d IH]; intros a Hfg; [reflexivity|].
  cbn [seq flat_map]. rewrite (Hfg a) by lia. f_equal.
  apply IH. intros j Hj. apply Hfg. lia.
Qed.

Lemma sameActive_refl p : sameActive p p.
Proof. split; reflexivity. Qed.

Lemma sameActive_trans p1 p2 p3 :
  sameActive p1 p2 -> sameActive p2 p3 -> sameActive p1 p3.
Proof.
  intros [I1 S1] [I2 S2]. split; [congruence|].
  intros i. rewrite S2, S1. reflexivity.
Qed.

Lemma nonneg_sameActive p p' : nonneg p -> sameActive p p' -> nonneg p'.
Proof.
  intros Hp [_ Hs] i st' Hst'. specialize (Hs i). rewrite Hst' in Hs.
  destruct (instanceStats p !! i) as [st|] eqn:Est; [|discriminate].
  simpl in Hs. injection Hs as ->. exact (Hp i st Est).
Qed.

Lemma attempt_sameActive inst now h p :
  nonneg p -> sameActive p (release (id inst) h (acquireResume inst now p)).
Proof.
  intros Hp. unfold acquireResume.
  destruct (instanceStats p !! id inst) as [st|] eqn:Est.
  - unfold release. cbn [instanceStats with_stats].
    rewrite lookup_insert_eq. unfold sameActive.
    cbn [instances instanceStats with_stats].
    split; [reflexivity|]. intros i. rewrite insert_insert_eq.
    destruct (decide (i = id inst)) as [->|Hne].
    + rewrite lookup_insert_eq, Est. simpl. f_equal.
      specialize (Hp _ _ Est). lia.
    + rewrite lookup_insert_ne by congruence. reflexivity.
  - unfold release. rewrite Est. apply sameActive_refl.
Qed.

Lemma replay_app now l1 l2 w :
  replay now (l1 ++ l2) w = replay now l2 (replay now l1 w).
Proof. unfold replay. apply fold_left_app. Qed.

Lemma attemptLoop_sameActive now fuel env o : forall attempts lastError sem p,
  nonneg p ->
  fst (replay now (fst (attemptLoop fuel env o attempts lastError)) (sem, p))
  = sem /\
  sameActive p
    (snd (replay now (fst (attemptLoop fuel env o attempts lastError))
            (sem, p))).
Proof.
  induction fuel as [|fuel IH]; intros attempts lastError sem p Hp;
    cbn [attemptLoop].
  - split; [reflexivity | apply sameActive_refl].
  - destruct (attempts <=? retries o)%nat;
      [|split; [reflexivity | apply sameActive_refl]].
    destruct (poolAcquire env attempts) as [inst|e|];
      try (split; [reflexivity | apply sameActive_refl]).
    destruct (race env attempts inst) as [r|e].
    { cbn. split; [reflexivity | apply attempt_sameActive, Hp]. }
    pose proof (attempt_sameActive inst now true p Hp) as Hone.
    specialize (IH (S attempts) (Some e) sem _
                  (nonneg_sameActive _ _ Hp Hone)).
    destruct (attemptLoop fuel env o (S attempts) (Some e)) as [rest out].
    cbn [fst snd] in *. rewrite !replay_app.
    assert (Hb : forall w,
               replay now
                 (if (S attempts <=? retries o)%nat
                  then [Delay (CONFIG.RETRY_DELAY * Z.of_nat (S attempts))]
                  else []) w = w)
      by (intros w; destruct (S attempts <=? retries o)%nat; reflexivity).
    rewrite Hb. cbn [replay fold_left perform fst snd].
    destruct IH as [IH1 IH2]. split; [exact IH1|].
    eapply sameActive_trans; [exact Hone | exact IH2].
Qed.

End InvocationFacts.

(** X9: whatever the pool and the operation answer, an invocation of
    [executeWithInstance] runs the operation once per handle it
    acquires, releases every handle it acquires (with or without the
    error flag), makes at most [retries + 1] attempts and waits at most
    [retries] times between them; a handle is released without the
    error flag exactly when the invocation returns a result. *)
Theorem X9_every_handle_is_released (env : Executor.Env)
    (o : Executor.Options) :
  let events := fst (Executor.executeWithInstance env o) in
  let outcome := snd (Executor.executeWithInstance env o) in
  Executor.count Executor.isPoolAcquire events
  = Executor.count Executor.isOperation events /\
  Executor.count Executor.isPoolAcquire events
  = (Executor.count (Executor.isPoolRelease true) events
     + Executor.count (Executor.isPoolRelease false) events)%nat /\
  (Executor.count Executor.isOperation events <= Executor.retries o + 1)%nat /\
  (Executor.count Handles.isDelay events <= Executor.retries o)%nat /\
  Executor.count (Executor.isPoolRelease false) events
  = (match outcome with Executor.Returned _ => 1 | _ => 0 end)%nat.
Proof.
  unfold Executor.executeWithInstance.
  destruct (Executor.semGranted env); [|cbn; repeat split; lia].
  pose proof (attemptLoop_counts (S (S (Executor.retries o))) env o 0%nat None)
    as H.
  destruct (Executor.attemptLoop (S (S (Executor.retries o))) env o 0%nat None)
    as [body out].
  cbn [fst snd] in H. destruct H as (H1 & H2 & H3 & H4 & H5).
  assert (Hc : forall p, p Executor.SemAcquire = false ->
                 p Executor.SemRelease = false ->
                 Executor.count p (Executor.SemAcquire :: body ++ [Executor.SemRelease])
                 = Executor.count p body /\
                 Executor.count p (Executor.SemAcquire :: body)
                 = Executor.count p body).
  { intros p Ha Hr. rewrite !count_cons, count_app, count_cons, Ha, Hr.
    cbn. lia. }
  destruct (Hc Executor.isPoolAcquire eq_refl eq_refl) as [A1 A2].
  destruct (Hc Executor.isOperation eq_refl eq_refl) as [B1 B2].
  destruct (Hc (Executor.isPoolRelease true) eq_refl eq_refl) as [C1 C2].
  destruct (Hc (Executor.isPoolRelease false) eq_refl eq_refl) as [D1 D2].
  destruct (Hc Handles.isDelay eq_refl eq_refl) as [E1 E2].
  destruct out; cbn [fst snd];
    rewrite ?A1, ?A2, ?B1, ?B2, ?C1, ?C2, ?D1, ?D2, ?E1, ?E2;
    repeat split; try assumption; lia.
Qed.

(** X10: when the gate admits the invocation, the first [k] attempts
    fail and attempt [k] (with [k <= retries]) succeeds, the invocation
    returns the result of that attempt; before it, it has made the [k]
    failed attempts in order, each released with the error flag and
    followed by a wait of [RETRY_DELAY * attempts] milliseconds, and it
    releases the gate last. *)
Theorem X10_returns_the_first_success (env : Executor.Env)
    (o : Executor.Options) (insts : nat -> YouTubeInstancePool.Instance)
    (errs : nat -> Executor.Error) (k : nat) (r : Executor.Value) :
  Executor.semGranted env = true ->
  (k <= Executor.retries o)%nat ->
  (forall j, (j < k)%nat ->
     Executor.poolAcquire env j = Executor.Acquired (insts j) /\
     Executor.race env j (insts j) = Executor.Failed (errs j)) ->
  Executor.poolAcquire env k = Executor.Acquired (insts k) ->
  Executor.race env k (insts k) = Executor.Fulfilled r ->
  Executor.executeWithInstance env o =
  (Executor.SemAcquire
   :: (flat_map
         (fun j =>
            [Executor.PoolAcquire (insts j);
             Executor.Operation (YouTubeInstancePool.instance (insts j))
               (Executor.timeout o);
             Executor.PoolRelease (YouTubeInstancePool.id (insts j)) true;
             Executor.Delay (CONFIG.RETRY_DELAY * Z.of_nat (S j))])
         (seq 0 k)
       ++ Handles.successfulAttempt o (insts k))
   ++ [Executor.SemRelease],
   Executor.Returned r).
Proof.
  intros Hsem Hk Hfail Hp Hr. unfold Executor.executeWithInstance.
  rewrite Hsem.
  rewrite (attemptLoop_then_success env o insts errs r k 0%nat); try assumption;
    try lia.
  2:{ intros j Hj. apply Hfail. lia. }
  simpl. do 4 f_equal.
  apply flat_map_seq_ext. intros j Hj.
  unfold Executor.failedAttempt.
  destruct (Nat.leb_spec (S j) (Executor.retries o)); [reflexivity | lia].
Qed.

Lemma X10_returns_the_first_success_witness :
  snd (Executor.executeWithInstance ExecutorScenario.thirdTimeLucky
         Executor.defaultOptions) = Executor.Returned 7%nat.
Proof.
  rewrite (X10_returns_the_first_success ExecutorScenario.thirdTimeLucky
             Executor.defaultOptions (fun _ => ExecutorScenario.handle)
             (fun _ => ExecutorScenario.timeoutError) 2%nat 7%nat).
  - reflexivity.
  - reflexivity.
  - vm_compute. lia.
  - intros j Hj. destruct j as [|[|j]]; [split; reflexivity..|lia].
  - reflexivity.
  - reflexivity.
Defined.

(** X11: an error thrown by [instancePool.acquire()] is not retried.
    When the first [k] attempts fail and the acquire of attempt [k]
    throws, the invocation throws that error at once, whatever is left
    of the retry budget, after releasing the gate; the operation has
    run [k] times. *)
Theorem X11_pool_error_is_not_retried (env : Executor.Env)
    (o : Executor.Options) (insts : nat -> YouTubeInstancePool.Instance)
    (errs : nat -> Executor.Error) (k : nat) (e : Executor.Error) :
  Executor.semGranted env = true ->
  (k <= Executor.retries o)%nat ->
  (forall j, (j < k)%nat ->
     Executor.poolAcquire env j = Executor.Acquired (insts j) /\
     Executor.race env j (insts j) = Executor.Failed (errs j)) ->
  Executor.poolAcquire env k = Executor.AcquireThrew e ->
  Executor.executeWithInstance env o =
  (Executor.SemAcquire
   :: flat_map (Executor.failedAttempt o insts) (seq 0 k)
   ++ [Executor.SemRelease],
   Executor.Threw (Some e)) /\
  Executor.count Executor.isOperation
    (fst (Executor.executeWithInstance env o)) = k.
Proof.
  intros Hsem Hk Hfail Hp. unfold Executor.executeWithInstance.
  rewrite Hsem.
  rewrite (attemptLoop_then_throw env o insts errs e k 0%nat); try assumption;
    try lia.
  2:{ intros j Hj. apply Hfail. lia. }
  simpl. split; [reflexivity|].
  rewrite count_cons, count_app.
  rewrite (count_failedAttempts Executor.isOperation o insts 1 (seq 0 k)
             (fun j => proj1 (count_failedAttempt o insts j))).
  rewrite length_seq. cbn. lia.
Qed.

Lemma X11_pool_error_is_not_retried_witness :
  Executor.executeWithInstance ExecutorScenario.emptyPool
    Executor.defaultOptions
  = ([Executor.SemAcquire; Executor.SemRelease],
     Executor.Threw (Some ExecutorScenario.noInstanceError)).
Proof.
  refine (proj1 (X11_pool_error_is_not_retried ExecutorScenario.emptyPool
                   Executor.defaultOptions (fun _ => ExecutorScenario.handle)
                   (fun _ => ExecutorScenario.timeoutError) 0%nat
                   ExecutorScenario.noInstanceError _ _ _ _)).
  - reflexivity.
  - vm_compute. lia.
  - intros j Hj. lia.
  - reflexivity.
Defined.

(** X12: an invocation that comes to an end, run with nothing else in
    between on a gate with a free slot and an empty queue, leaves the
    gate exactly as it found it and leaves the pool with the same
    instances and the same number of active requests on every
    instance. *)
Theorem X12_invocation_restores_gate_and_handles (env : Executor.Env)
    (o : Executor.Options) (now : Z) (sem : RequestSemaphore.t)
    (p : YouTubeInstancePool.t) :
  snd (Executor.executeWithInstance env o) <> Executor.Hung ->
  RequestSemaphore.waitingQueue sem = [] ->
  0 <= RequestSemaphore.currentCount sem < RequestSemaphore.maxConcurrent sem ->
  Handles.nonneg p ->
  let w := Executor.replay now (fst (Executor.executeWithInstance env o))
             (sem, p) in
  fst w = sem /\ Handles.sameActive p (snd w).
Proof.
  unfold Executor.executeWithInstance.
  destruct (Executor.semGranted env); [|intros H; contradiction H; reflexivity].
  pose proof (attemptLoop_fuel_enough (S (S (Executor.retries o))) env o
                0%nat None) as HF.
  intros Hend Hq Hc Hp.
  set (sem1 := snd (RequestSemaphore.acquire 0%nat sem)).
  pose proof (attemptLoop_sameActive now (S (S (Executor.retries o))) env o
                0%nat None sem1 p Hp) as [H1 H2].
  destruct (Executor.attemptLoop (S (S (Executor.retries o))) env o 0%nat None)
    as [body out].
  cbn [fst snd] in *.
  assert (Hdone : let w := Executor.replay now
                    (Executor.SemAcquire :: body ++ [Executor.SemRelease])
                    (sem, p) in
                  fst w = sem /\ Handles.sameActive p (snd w)).
  { change (Executor.SemAcquire :: body ++ [Executor.SemRelease])
      with ([Executor.SemAcquire] ++ body ++ [Executor.SemRelease]).
    rewrite !replay_app.
    change (Executor.replay now [Executor.SemAcquire] (sem, p))
      with (sem1, p).
    destruct (Executor.replay now body (sem1, p)) as [sem2 p2].
    cbn [fst snd] in *. subst sem2. split; [|exact H2].
    subst sem1. unfold RequestSemaphore.acquire.
    destruct (Z.ltb_spec (RequestSemaphore.currentCount sem)
                (RequestSemaphore.maxConcurrent sem)); [|lia].
    unfold RequestSemaphore.release. simpl. rewrite Hq.
    destruct sem as [m c q]. simpl in *. subst q. f_equal. lia. }
  destruct out as [r|e| |]; cbn [fst snd] in *.
  - exact Hdone.
  - exact Hdone.
  - contradiction Hend. reflexivity.
  - exfalso. apply HF; [lia | lia | reflexivity].
Qed.

Lemma X12_invocation_restores_gate_and_handles_witness :
  let w := Executor.replay 1000
             (fst (Executor.executeWithInstance ExecutorScenario.thirdTimeLucky
                     Executor.defaultOptions))
             (requestSemaphore, YouTubeInstancePool.pool Scenario.oneInstance) in
  fst w = requestSemaphore /\
  Handles.sameActive (YouTubeInstancePool.pool Scenario.oneInstance) (snd w).
Proof.
  apply (X12_invocation_restores_gate_and_handles
           ExecutorScenario.thirdTimeLucky Executor.defaultOptions 1000
           requestSemaphore (YouTubeInstancePool.pool Scenario.oneInstance)).
  - vm_compute. discriminate.
  - reflexivity.
  - vm_compute. split; [discriminate | reflexivity].
  - intros i st Hst. rewrite oneInstance_eq in Hst. simpl in Hst.
    apply lookup_singleton_Some in Hst as [_ <-]. simpl. lia.
Defined.


Section WalkerShape.
Import Js Walker.

Lemma firstMatch_shape (P : Val -> Prop) w h :
  (forall n token, self w h n = Some token -> P token) ->
  forall l, firstMatch w h l = Null \/ P (firstMatch w h l).
Proof.
  intros Hs. induction l as [|n l IH]; simpl; [left; reflexivity|].
  destruct (self w h n) as [token|] eqn:E; [right; eauto | exact IH].
Qed.

Lemma selfPlaylists_long h n token :
  selfPlaylists h n = Some token ->
  exists s, token = Str s /\ (20 < String.length s)%nat.
Proof.
  unfold selfPlaylists.
  assert (Hlong : forall v, truthy v && isString v && (20 <? strlen v) = true ->
                    exists s, v = Str s /\ (20 < String.length s)%nat).
  { intros v Hv. apply andb_true_iff in Hv as [Hv Hlen].
    apply andb_true_iff in Hv as [_ Hstr].
    destruct v; try discriminate. eexists. split; [reflexivity|].
    simpl in Hlen. apply Z.ltb_lt in Hlen. lia. }
  destruct (truthy (field h n "token") && _ && _) eqn:E1.
  - intros [= <-]. apply Hlong, E1.
  - destruct (truthy (field h n "continuation") && _ && _) eqn:E2;
      [|discriminate].
    intros [= <-]. apply Hlong, E2.
Qed.

End WalkerShape.

(** X13: the cursor walker of [getPlaylistsViaBrowse] returns [null] or
    a string of more than 20 characters; the walker of the channel-video
    cache returns [null] or some truthy value (not necessarily a
    string: [continuationCommand.token] is passed on unchecked); and
    both return [null] for a root that is not an object. *)
Theorem X13_walker_results (h : Js.Heap) (obj : Js.Val) (depth : nat) :
  (Walker.findContinuationTokenBrowse h obj depth = Js.Null \/
   exists s, Walker.findContinuationTokenBrowse h obj depth = Js.Str s /\
             (20 < String.length s)%nat) /\
  (Walker.findContinuationToken h obj depth = Js.Null \/
   Js.truthy (Walker.findContinuationToken h obj depth) = true) /\
  (Js.isObject obj = false ->
   Walker.findContinuationToken h obj depth = Js.Null /\
   Walker.findContinuationTokenBrowse h obj depth = Js.Null).
Proof.
  split; [|split].
  - unfold Walker.findContinuationTokenBrowse.
    rewrite playlists_visitOrder.
    apply (firstMatch_shape
             (fun v => exists s, v = Js.Str s /\ (20 < String.length s)%nat)).
    intros n token. apply selfPlaylists_long.
  - unfold Walker.findContinuationToken.
    rewrite videos_visitOrder.
    apply firstMatch_truthy_or_null, selfVideos_truthy.
  - intros Hobj. unfold Walker.findContinuationToken,
      Walker.findContinuationTokenBrowse.
    destruct (16 - depth)%nat; [split; reflexivity|].
    destruct obj; try discriminate; split; reflexivity.
Qed.

Lemma X13_walker_results_witness :
  Walker.findContinuationToken Walker.cyclic (Js.Str "cursor") 0 = Js.Null /\
  Walker.findContinuationTokenBrowse Walker.cyclic (Js.Str "cursor") 0
  = Js.Null.
Proof.
  refine (proj2 (proj2 (X13_walker_results Walker.cyclic (Js.Str "cursor") 0))
            _).
  reflexivity.
Defined.

Section VideoIdFacts.
Import Js ChannelVideos VideoIds.
Context {RT : Runtime}.

Lemma keeps_ret {A} (a : A) : keeps (ret a).
Proof. intros st G. exact G. Qed.

Lemma keeps_lift {A} (r : Res A) : keeps (lift r).
Proof. intros st G. exact G. Qed.

Lemma keeps_has idv : keeps (has idv).
Proof. intros st G. exact G. Qed.

Lemma keeps_bind {A B} (m : M A) (k : A -> M B) :
  keeps m -> (forall a, keeps (k a)) -> keeps (bind m k).
Proof.
  intros Hm Hk st G. unfold bind. specialize (Hm st G).
  destruct (m st) as [[a|msg] st']; simpl in *; [|exact Hm].
  apply Hk, Hm.
Qed.

Lemma keeps_when b (m : M unit) : keeps m -> keeps (when b m).
Proof. intros Hm. destruct b; simpl; [exact Hm | apply keeps_ret]. Qed.

Lemma keeps_forEach f xs : (forall x, keeps (f x)) -> keeps (forEach f xs).
Proof.
  intros Hf. induction xs as [|x xs IH]; simpl.
  - apply keeps_ret.
  - apply keeps_bind; [apply Hf | intros _; exact IH].
Qed.

Lemma keeps_forOf h v f : (forall x, keeps (f x)) -> keeps (forOf h v f).
Proof.
  intros Hf. unfold forOf. apply keeps_bind; [apply keeps_lift|].
  intros xs. apply keeps_forEach, Hf.
Qed.

Lemma formatVideo_wellFormed h v f :
  formatVideo h v = Ok (Some f) -> wellFormed f.
Proof.
  unfold formatVideo. destruct (get h v "id") as [x|m]; [|discriminate].
  destruct (validVideoId _) as [s|] eqn:E; [|discriminate].
  destruct (formatFields h v) as [fs|m]; [|discriminate].
  intros [= <-]. unfold wellFormed. simpl.
  unfold validVideoId in E.
  destruct (or _ _) as [| | | |s'| |]; try discriminate.
  destruct (truthy (Str s') && (String.length s' =? 11)%nat && idChars s')
    eqn:Ec; [|discriminate].
  injection E as <-.
  apply andb_true_iff in Ec as [Ec Hchars].
  apply andb_true_iff in Ec as [_ Hlen].
  apply Nat.eqb_eq in Hlen. auto.
Qed.

Lemma keeps_addVideo h idv v : keeps (addVideo h idv v).
Proof.
  intros st G. unfold addVideo.
  destruct (formatVideo h v) as [[f|]|m] eqn:Ef; simpl; try exact G.
  apply Forall_app. split; [exact G|].
  apply Forall_singleton. eapply formatVideo_wellFormed, Ef.
Qed.

Lemma keeps_addLiteral h idv fs : keeps (addLiteral h idv fs).
Proof.
  unfold addLiteral. destruct (literal h _) as [h' videoData].
  apply keeps_addVideo.
Qed.

Lemma keeps_considerItem h v : keeps (considerItem h v).
Proof.
  unfold considerItem. apply keeps_bind; [apply keeps_lift|]. intros x.
  apply keeps_bind; [apply keeps_has|]. intros known.
  apply keeps_when, keeps_addVideo.
Qed.

Lemma keeps_considerContent h v : keeps (considerContent h v).
Proof.
  unfold considerContent. apply keeps_bind; [apply keeps_has|].
  intros known. apply keeps_when, keeps_addVideo.
Qed.

Lemma keeps_considerNode h obj : keeps (considerNode h obj).
Proof.
  unfold considerNode. apply keeps_when.
  apply keeps_bind; [apply keeps_has|]. intros known.
  apply keeps_when, keeps_addLiteral.
Qed.

Lemma keeps_considerRenderer h vr duration :
  keeps (considerRenderer h vr duration).
Proof.
  unfold considerRenderer. apply keeps_when.
  apply keeps_bind; [apply keeps_has|]. intros known.
  apply keeps_when, keeps_addLiteral.
Qed.

Lemma keeps_findVideos h budget : forall obj, keeps (findVideos budget h obj).
Proof.
  induction budget as [|budget IH]; intros obj; simpl.
  - apply keeps_ret.
  - destruct obj; try apply keeps_ret.
    apply keeps_bind; [apply keeps_considerNode|]. intros _.
    apply keeps_bind; [apply keeps_considerRenderer|]. intros _.
    apply keeps_bind; [apply keeps_considerRenderer|]. intros _.
    apply keeps_forEach, IH.
Qed.

Lemma keeps_processContents h stack :
  forall contents, keeps (processContents stack h contents).
Proof.
  induction stack as [|stack IH]; intros contents; simpl.
  - apply keeps_lift.
  - destruct (isArray h contents); [|apply keeps_ret].
    apply keeps_forOf. intros item.
    apply keeps_bind; [apply keeps_lift|]. intros content.
    apply keeps_bind; [apply keeps_considerContent|]. intros _.
    apply keeps_bind; [apply keeps_when, IH|]. intros _.
    apply keeps_when, IH.
Qed.

Lemma keeps_tab h data :
  keeps (bind (fromVideos h data) (fun _ =>
         bind (fromCurrentTab h data) (fun _ => fromContents h data))).
Proof.
  apply keeps_bind.
  { unfold fromVideos. apply keeps_bind; [apply keeps_lift|]. intros videos.
    apply keeps_when, keeps_forOf. intros v. apply keeps_considerItem. }
  intros _. apply keeps_bind.
  { unfold fromCurrentTab. apply keeps_when, keeps_forOf. intros section.
    apply keeps_bind; [apply keeps_lift|]. intros contents.
    apply keeps_when, keeps_forOf. intros item.
    apply keeps_bind; [apply keeps_lift|]. intros content.
    apply keeps_considerItem. }
  intros _. unfold fromContents. apply keeps_when, keeps_processContents.
Qed.

Lemma extractVideosFromTab_wellFormed h data s vids :
  fst (extractVideosFromTab h data s) = Ok vids -> Forall wellFormed vids.
Proof.
  unfold extractVideosFromTab.
  pose proof (keeps_tab h data {| seen := s; out := [] |}) as H.
  destruct (bind _ _ _) as [r st]. simpl in H.
  destruct r; simpl; [|discriminate].
  intros [= <-]. apply H. constructor.
Qed.

Lemma extractVideosFromBrowse_wellFormed h data s vids :
  fst (extractVideosFromBrowse h data s) = Ok vids -> Forall wellFormed vids.
Proof.
  unfold extractVideosFromBrowse. destruct (truthy data).
  - pose proof (keeps_findVideos h 16 data {| seen := s; out := [] |}) as H.
    destruct (findVideos _ _ _ _) as [r st]. simpl in H.
    destruct r; simpl; [|discriminate].
    intros [= <-]. apply H. constructor.
  - simpl. intros [= <-]. constructor.
Qed.

(** An invariant of the entry that every merge keeps is kept by a page
    loop, and holds of every state the loop has written. *)
Lemma pageLoop_invariant (J : CacheEntry -> Prop) (L : Loop) clock fuel :
  (forall page c vids s' now, J c ->
     extract L page (seenIds c) = (Ok vids, s') -> J (merge vids s' now c)) ->
  (forall c s', J c -> J (withSeen s' c)) ->
  forall page pc ce calls c done e,
    J c -> Forall J done ->
    pageLoop fuel L clock page pc ce calls c done = Some e ->
    J (entry e) /\ Forall J (merges e).
Proof.
  intros Hmerge Hseen. induction fuel as [|fuel IH];
    intros page pc ce calls c done e Hc Hdone; cbn [pageLoop]; [discriminate|].
  destruct ((pc <? cap L)%nat && belowStuck L ce).
  - pose proof (Hmerge page c) as Hm.
    destruct (extract L page (seenIds c)) as [[pageVideos|msg] seen'].
    + specialize (Hm pageVideos seen' (clock (length done)) Hc eq_refl).
      assert (Hdone' : Forall J (done ++ [merge pageVideos seen'
                                            (clock (length done)) c])).
      { apply Forall_app. split; [exact Hdone|]. apply Forall_singleton, Hm. }
      destruct (next L page (S pc)) as [[page'|msg]|].
      * apply IH; assumption.
      * intros [= <-]. simpl. auto.
      * intros [= <-]. simpl. auto.
    + intros [= <-]. simpl. auto.
  - intros [= <-]. simpl. auto.
Qed.

Lemma phase_invariant (J : CacheEntry -> Prop) (L : Loop) u first
    c done r c' done' :
  (forall page c vids s' now, J c ->
     extract L page (seenIds c) = (Ok vids, s') -> J (merge vids s' now c)) ->
  (forall c s', J c -> J (withSeen s' c)) ->
  J c -> Forall J done ->
  phase L u first c done = Some (r, c', done') ->
  J c' /\ Forall J done'.
Proof.
  intros Hmerge Hseen Hc Hdone. unfold phase. destruct first as [page|m].
  - unfold runLoop.
    destruct (pageLoop _ _ _ _ _ _ _ _ _) as [e|] eqn:He; [|discriminate].
    intros [= _ <- <-].
    eapply pageLoop_invariant; eassumption.
  - intros [= _ <- <-]. auto.
Qed.

(** The shape of a fetch: nothing when the entry is being fetched or
    complete; otherwise the loops run on the entry with its fetching
    flag set, and the entry is then marked complete, or given an error,
    and its fetching flag is cleared. *)
Lemma backgroundFetchVideos_invariant (J : CacheEntry -> Prop) u cache
    final history :
  (forall L, L = videosLoop u \/ L = browseLoop u \/ L = shortsLoop u
             \/ L = liveLoop u ->
     forall page c vids s' now, J c ->
       extract L page (seenIds c) = (Ok vids, s') -> J (merge vids s' now c)) ->
  (forall c s', J c -> J (withSeen s' c)) ->
  J (setFetching true cache) ->
  backgroundFetchVideos u cache = Some (final, history) ->
  ((isFetching cache || isComplete cache) = true /\
   final = cache /\ history = []) \/
  ((isFetching cache || isComplete cache) = false /\
   Forall J history /\
   exists c, J c /\
     (final = setFetching false (setComplete c) \/
      exists m, final = setFetching false (setError m c))).
Proof.
  intros Hmerge Hseen H0. unfold backgroundFetchVideos.
  destruct (isFetching cache || isComplete cache);
    [intros [= <- <-]; left; auto|].
  destruct (phase (videosLoop u) u (getVideos u) (setFetching true cache) [])
    as [[[r1 c1] d1]|] eqn:E1; [|discriminate].
  destruct (phase_invariant J _ _ _ _ _ _ _ _
              (Hmerge _ (or_introl eq_refl)) Hseen H0 (Forall_nil_2 _) E1)
    as [H1 D1].
  assert (H2 : forall r2 c2 d2,
             match r1 with
             | Ok _ => Some (Ok tt, c1, d1)
             | Throw _ => phase (browseLoop u) u (browse u) c1 d1
             end = Some (r2, c2, d2) -> J c2 /\ Forall J d2).
  { intros r2 c2 d2. destruct r1.
    - intros [= _ <- <-]. auto.
    - intros E2.
      exact (phase_invariant J _ _ _ _ _ _ _ _
               (Hmerge _ (or_intror (or_introl eq_refl))) Hseen H1 D1 E2). }
  destruct (match r1 with
            | Ok _ => Some (Ok tt, c1, d1)
            | Throw _ => phase (browseLoop u) u (browse u) c1 d1
            end) as [[[r2 c2] d2]|]; [|discriminate].
  destruct (H2 r2 c2 d2 eq_refl) as [J2 D2].
  destruct r2 as [[]|m].
  - destruct (phase (shortsLoop u) u (getShorts u) c2 d2)
      as [[[r3 c3] d3]|] eqn:E3; [|discriminate].
    destruct (phase_invariant J _ _ _ _ _ _ _ _
                (Hmerge _ (or_intror (or_intror (or_introl eq_refl))))
                Hseen J2 D2 E3) as [J3 D3].
    destruct (phase (liveLoop u) u (getLiveStreams u) c3 d3)
      as [[[r4 c4] d4]|] eqn:E4; [|discriminate].
    destruct (phase_invariant J _ _ _ _ _ _ _ _
                (Hmerge _ (or_intror (or_intror (or_intror eq_refl))))
                Hseen J3 D3 E4) as [J4 D4].
    intros [= <- <-]. right. split; [reflexivity|]. split; [exact D4|].
    exists c4. auto.
  - intros [= <- <-]. right. split; [reflexivity|]. split; [exact D2|].
    exists c2. split; [exact J2|]. right. exists m. reflexivity.
Qed.

Lemma loops_wellFormed u L page s vids s' :
  L = videosLoop u \/ L = browseLoop u \/ L = shortsLoop u \/ L = liveLoop u ->
  extract L page s = (Ok vids, s') -> Forall wellFormed vids.
Proof.
  intros [-> | [-> | [-> | ->]]] He; simpl in He.
  - eapply extractVideosFromTab_wellFormed. rewrite He. reflexivity.
  - eapply extractVideosFromBrowse_wellFormed. rewrite He. reflexivity.
  - eapply extractVideosFromTab_wellFormed. rewrite He. reflexivity.
  - eapply extractVideosFromTab_wellFormed. rewrite He. reflexivity.
Qed.

End VideoIdFacts.

(** X14: every video the two extractions return has an identifier of
    exactly eleven characters out of letters, digits, [_] and [-]; and
    a background fetch on an entry whose videos are so keeps it so, at
    every merge and at the end. *)
Theorem X14_video_ids_are_well_formed {RT : ChannelVideos.Runtime}
    (u : ChannelVideos.Upstream) (cache : ChannelVideos.CacheEntry)
    (h : Js.Heap) (data : Js.Val) (seenIds : gset Js.Val) :
  (forall vids,
     fst (ChannelVideos.extractVideosFromTab h data seenIds) = Js.Ok vids ->
     Forall VideoIds.wellFormed vids) /\
  (forall vids,
     fst (ChannelVideos.extractVideosFromBrowse h data seenIds) = Js.Ok vids ->
     Forall VideoIds.wellFormed vids) /\
  (Forall VideoIds.wellFormed (ChannelVideos.videos cache) ->
   exists final history,
     ChannelVideos.backgroundFetchVideos u cache = Some (final, history) /\
     Forall VideoIds.wellFormed (ChannelVideos.videos final) /\
     forall d, d ∈ history ->
       Forall VideoIds.wellFormed (ChannelVideos.videos d)).
Proof.
  split; [intros vids; apply extractVideosFromTab_wellFormed|].
  split; [intros vids; apply extractVideosFromBrowse_wellFormed|].
  intros Hc.
  destruct (backgroundFetchVideos_ends u cache) as ([final history] & He).
  exists final, history. split; [exact He|].
  destruct (backgroundFetchVideos_invariant
              (fun c => Forall VideoIds.wellFormed (ChannelVideos.videos c))
              u cache final history)
    as [(_ & Ef & Eh)|(_ & Hh & c & Jc & Hf)].
  - intros L HL page c vids s' now Jc Hex. simpl.
    apply Forall_app. split; [exact Jc|].
    eapply loops_wellFormed; eassumption.
  - intros c s' Jc. exact Jc.
  - exact Hc.
  - exact He.
  - subst final history. split; [exact Hc|]. intros d Hd. inversion Hd.
  - split.
    + destruct Hf as [-> | [m ->]]; exact Jc.
    + intros d Hd. rewrite Forall_forall in Hh. apply Hh, Hd.
Qed.

Lemma X14_video_ids_are_well_formed_witness :
  exists final history,
    ChannelVideos.backgroundFetchVideos (RT := VideoScenario.plain)
      VideoScenario.repeating (ChannelVideos.emptyEntry 0)
      = Some (final, history) /\
    Forall VideoIds.wellFormed (ChannelVideos.videos final).
Proof.
  destruct (X14_video_ids_are_well_formed (RT := VideoScenario.plain)
              VideoScenario.repeating (ChannelVideos.emptyEntry 0)
              ∅ Js.Undefined ∅) as (_ & _ & H).
  destruct H as (final & history & He & Hf & _).
  - constructor.
  - exists final, history. split; [exact He | exact Hf].
Defined.

(** X15: a background fetch does nothing to an entry that is being
    fetched or is complete.  On any other entry it returns with the
    fetching flag cleared and the entry either marked complete, with
    the [error] field as it was before, or not complete and carrying the
    message of the exception that ended it.  So the [error] of an
    earlier failed fetch stays on the entry when a later fetch
    completes; and during the fetch, at every merge, the entry is marked
    as fetching and not complete. *)
Theorem X15_fetch_flags {RT : ChannelVideos.Runtime}
    (u : ChannelVideos.Upstream) (cache : ChannelVideos.CacheEntry) :
  exists final history,
    ChannelVideos.backgroundFetchVideos u cache = Some (final, history) /\
    ((ChannelVideos.isFetching cache || ChannelVideos.isComplete cache) = true ->
     final = cache /\ history = []) /\
    ((ChannelVideos.isFetching cache || ChannelVideos.isComplete cache) = false ->
     ChannelVideos.isFetching final = false /\
     (forall d, d ∈ history ->
        ChannelVideos.isFetching d = true /\
        ChannelVideos.isComplete d = false /\
        ChannelVideos.error d = ChannelVideos.error cache) /\
     ((ChannelVideos.isComplete final = true /\
       ChannelVideos.error final = ChannelVideos.error cache) \/
      (ChannelVideos.isComplete final = false /\
       exists m, ChannelVideos.error final = Some m))).
Proof.
  destruct (backgroundFetchVideos_ends u cache) as ([final history] & He).
  exists final, history. split; [exact He|].
  destruct (backgroundFetchVideos_invariant
              (VideoIds.fetchingFrom cache) u cache final history)
    as [(Hb & Ef & Eh)|(Hb & Hh & c & Jc & Hf)].
  - intros L _ page c vids s' now Jc _. exact Jc.
  - intros c s' Jc. exact Jc.
  - repeat split.
  - exact He.
  - subst final history. split; [auto|]. rewrite Hb. discriminate.
  - split; [rewrite Hb; discriminate|]. intros _.
    apply orb_false_iff in Hb as [_ Hcomplete].
    destruct Jc as (_ & Jcomplete & Jerror).
    split; [destruct Hf as [-> | [m ->]]; reflexivity|].
    split.
    + intros d Hd. rewrite Forall_forall in Hh.
      destruct (Hh d Hd) as (D1 & D2 & D3).
      rewrite D2, D3. auto.
    + destruct Hf as [-> | [m ->]]; simpl.
      * left. auto.
      * right. rewrite Jcomplete. eauto.
Qed.

Lemma X15_fetch_flags_witness :
  exists final history,
    ChannelVideos.backgroundFetchVideos (RT := VideoScenario.plain)
      VideoScenario.repeating
      (ChannelVideos.setError "Channel not found" (ChannelVideos.emptyEntry 0))
      = Some (final, history) /\
    ChannelVideos.isFetching final = false /\
    ((ChannelVideos.isComplete final = true /\
      ChannelVideos.error final = Some "Channel not found"%string) \/
     (ChannelVideos.isComplete final = false /\
      exists m, ChannelVideos.error final = Some m)).
Proof.
  destruct (X15_fetch_flags (RT := VideoScenario.plain)
              VideoScenario.repeating
              (ChannelVideos.setError "Channel not found"
                 (ChannelVideos.emptyEntry 0)))
    as (final & history & He & _ & H).
  exists final, history. split; [exact He|].
  destruct (H eq_refl) as (Hf & _ & Hc). auto.
Defined.


Section RangeFacts.
Import Range.

(** A range with [1 <= start] and [0 <= end]: the items number [start]
    to [end], counted from one, as far as the list goes. *)
Lemma cut_range {A} (l : list A) (s e : Z) :
  1 <= s -> 0 <= e ->
  cut l (Int s) (Int e)
  = take (Z.to_nat (e - s + 1)) (drop (Z.to_nat (s - 1)) l).
Proof.
  intros Hs He. unfold cut, slice. simpl.
  set (len := Z.of_nat (length l)).
  assert (Hlen : 0 <= len) by (subst len; lia).
  unfold relative.
  destruct (Z.ltb_spec (Z.max 0 (s - 1)) 0) as [?|_]; [lia|].
  destruct (Z.ltb_spec (Z.min len e) 0) as [?|_]; [lia|].
  rewrite (Z.max_r 0 (s - 1)) by lia.
  rewrite (Z.min_l (Z.min len e) len) by lia.
  destruct (Z.le_gt_cases len (s - 1)) as [Hout|Hin].
  - (* the range starts beyond the list *)
    rewrite (Z.min_r (s - 1) len) by lia.
    rewrite !drop_ge by (subst len; lia). rewrite !take_nil. reflexivity.
  - rewrite (Z.min_l (s - 1) len) by lia.
    destruct (Z.le_gt_cases e len) as [He'|He'].
    + rewrite (Z.min_r len e) by lia. f_equal. lia.
    + rewrite (Z.min_l len e) by lia.
      rewrite !take_ge; [reflexivity| |];
        rewrite length_drop; subst len; lia.
Qed.

Lemma cut_null_end {A} (l : list A) (start : Bound) : cut l start Null = [].
Proof.
  unfold cut, slice. simpl.
  set (len := Z.of_nat (length l)).
  assert (Hlen : 0 <= len) by (subst len; lia).
  rewrite (Z.min_r len 0) by lia. simpl.
  rewrite (Z.min_l 0 len) by lia.
  assert (Hfrom : 0 <= relative len
                         (mathMax 0 ((fun n => n - 1) <$> toNumber start))).
  { unfold relative. destruct (toNumber start) as [n|]; simpl; [|lia].
    destruct (Z.ltb_spec (Z.max 0 (n - 1)) 0); lia. }
  replace (Z.to_nat (0 - _)) with 0%nat by lia. reflexivity.
Qed.

End RangeFacts.

(** X16: for a range that the route [/videos/:identifier] lets through
    ([start] and [end] numbers, [1 <= start <= end]), [getChannelVideos]
    answers with the videos number [start] to [end] of the cache entry,
    counted from one, cut short where the entry ends: at most
    [end - start + 1] videos, the [k]-th of them being video number
    [start + k] of the entry.  Without a range it answers with all
    videos of the entry. *)
Theorem X16_channel_range {RT : ChannelVideos.Runtime}
    (cache : ChannelVideos.CacheEntry) (s e : Z) :
  Range.accepted (Some s) (Some e) = true ->
  let final := ChannelResponse.finalVideos cache (Range.Int s) (Range.Int e) in
  final = take (Z.to_nat (e - s + 1))
            (drop (Z.to_nat (s - 1)) (ChannelVideos.videos cache)) /\
  Z.of_nat (length final) <= e - s + 1 /\
  (length final <= length (ChannelVideos.videos cache))%nat /\
  (forall k, (k < Z.to_nat (e - s + 1))%nat ->
     final !! k = ChannelVideos.videos cache !! (Z.to_nat (s - 1) + k)%nat) /\
  ChannelResponse.finalVideos cache Range.Null Range.Null
  = ChannelVideos.videos cache /\
  ChannelResponse.finalVideos cache Range.Undefined Range.Undefined
  = ChannelVideos.videos cache.
Proof.
  intros Hacc final. unfold Range.accepted in Hacc.
  apply andb_true_iff in Hacc as [Hs He].
  apply negb_true_iff, Z.ltb_ge in Hs.
  apply negb_true_iff, Z.ltb_ge in He.
  assert (Hfinal : final = take (Z.to_nat (e - s + 1))
                     (drop (Z.to_nat (s - 1)) (ChannelVideos.videos cache))).
  { subst final. unfold ChannelResponse.finalVideos. simpl.
    apply cut_range; lia. }
  split; [exact Hfinal|]. rewrite Hfinal.
  split; [rewrite length_take; lia|].
  split; [rewrite length_take, length_drop; lia|].
  split; [|split; reflexivity].
  intros k Hk. rewrite lookup_take_lt by exact Hk.
  apply lookup_drop.
Qed.

Lemma X16_channel_range_witness :
  ChannelResponse.finalVideos (RT := VideoScenario.plain)
    (ChannelVideos.emptyEntry 0) (Range.Int 2) (Range.Int 5)
  = take (Z.to_nat (5 - 2 + 1))
      (drop (Z.to_nat (2 - 1))
         (ChannelVideos.videos (ChannelVideos.emptyEntry 0))).
Proof.
  refine (proj1 (X16_channel_range (RT := VideoScenario.plain)
                   (ChannelVideos.emptyEntry 0) 2 5 _)).
  reflexivity.
Defined.

Section WaitFacts.
Import Js ChannelVideos ChannelResponse.
Context {RT : Runtime}.

Lemma clock_grows clock :
  (forall k, clock k + 100 <= clock (S k)) ->
  forall k, clock 0%nat + 100 * Z.of_nat k <= clock k.
Proof.
  intros Htimer. induction k as [|k IH]; [lia|].
  specialize (Htimer k). lia.
Qed.

Lemma waitLoop_spec view clock startTime requiredCount maxWaitMs :
  (forall k, clock k + 100 <= clock (S k)) ->
  startTime <= clock 0%nat ->
  forall fuel k,
    (forall j, (j < k)%nat -> ~ ready view requiredCount j) ->
    (Z.to_nat (maxWaitMs / 100) + 2 <= k + fuel)%nat -> (1 <= fuel)%nat ->
    exists b,
      waitLoop fuel view clock startTime requiredCount maxWaitMs k = Some b /\
      (b = true ->
       exists j, clock j - startTime < maxWaitMs /\
                 ready view requiredCount j /\
                 forall i, (i < j)%nat -> ~ ready view requiredCount i) /\
      (b = false ->
       exists j, maxWaitMs <= clock j - startTime /\
                 forall i, (i < j)%nat -> ~ ready view requiredCount i).
Proof.
  intros Htimer Hstart. induction fuel as [|fuel IH];
    intros k Hbefore Hfuel H1; [lia|].
  cbn [waitLoop].
  destruct (Z.ltb_spec (clock k - startTime) maxWaitMs) as [Hin|Hout].
  - destruct ((requiredCount <=? Z.of_nat (length (videos (view k))))
              || isComplete (view k)) eqn:Eready.
    + exists true. split; [reflexivity|]. split; [|discriminate].
      intros _. exists k. split; [exact Hin|]. split; [|exact Hbefore].
      apply orb_true_iff in Eready as [E|E]; [left; lia | right; exact E].
    + assert (Hk : ~ ready view requiredCount k).
      { apply orb_false_iff in Eready as [E1 E2].
        intros [R|R]; [lia | congruence]. }
      pose proof (clock_grows clock Htimer k) as Hgrow.
      assert (Hbound : (k <= Z.to_nat (maxWaitMs / 100))%nat).
      { assert (100 * Z.of_nat k < maxWaitMs) by lia.
        assert (Z.of_nat k <= maxWaitMs / 100)
          by (apply Z.div_le_lower_bound; lia).
        lia. }
      apply IH; [|lia|lia].
      intros j Hj. destruct (decide (j = k)) as [->|Hne]; [exact Hk|].
      apply Hbefore. lia.
  - exists false. split; [reflexivity|]. split; [discriminate|].
    intros _. exists k. split; [lia | exact Hbefore].
Qed.

End WaitFacts.

(** X17: [waitForVideos] answers [false] at once for a channel without
    a cache entry.  Otherwise, with timers that never fire early (each
    test of the loop comes at least 100 ms after the one before), it
    returns after at most [maxWaitMs / 100 + 2] tests: [true] at the
    first test, made before [maxWaitMs] has gone by, that finds the
    entry complete or holding [requiredCount] videos; [false] when the
    time is up before any test found that. *)
Theorem X17_waitForVideos_is_bounded {RT : ChannelVideos.Runtime}
    (view : nat -> ChannelVideos.CacheEntry) (clock : nat -> Z)
    (startTime requiredCount maxWaitMs : Z) :
  (forall k, clock k + 100 <= clock (S k)) ->
  startTime <= clock 0%nat ->
  ChannelResponse.waitForVideos 0 None clock startTime requiredCount maxWaitMs
  = Some false /\
  exists b,
    ChannelResponse.waitForVideos (Z.to_nat (maxWaitMs / 100) + 2)
      (Some view) clock startTime requiredCount maxWaitMs = Some b /\
    (b = true ->
     exists j, clock j - startTime < maxWaitMs /\
               ChannelResponse.ready view requiredCount j /\
               forall i, (i < j)%nat ->
                 ~ ChannelResponse.ready view requiredCount i) /\
    (b = false ->
     exists j, maxWaitMs <= clock j - startTime /\
               forall i, (i < j)%nat ->
                 ~ ChannelResponse.ready view requiredCount i).
Proof.
  intros Htimer Hstart. split; [reflexivity|].
  unfold ChannelResponse.waitForVideos.
  apply waitLoop_spec; try assumption; try lia.
Qed.

Lemma X17_waitForVideos_is_bounded_witness :
  exists b,
    ChannelResponse.waitForVideos (RT := VideoScenario.plain)
      (Z.to_nat (30000 / 100) + 2)
      (Some (fun _ => ChannelVideos.emptyEntry 0))
      (fun k => 100 * Z.of_nat k) 0 10 30000 = Some b /\
    (b = false ->
     exists j, 30000 <= (fun k => 100 * Z.of_nat k) j - 0 /\
               forall i, (i < j)%nat ->
                 ~ ChannelResponse.ready (RT := VideoScenario.plain)
                     (fun _ => ChannelVideos.emptyEntry 0) 10 i).
Proof.
  destruct (X17_waitForVideos_is_bounded (RT := VideoScenario.plain)
              (fun _ => ChannelVideos.emptyEntry 0)
              (fun k => 100 * Z.of_nat k) 0 10 30000)
    as (_ & b & Hb & _ & Hfalse).
  - intros k. lia.
  - simpl. lia.
  - exists b. split; [exact Hb | exact Hfalse].
Defined.

(** X18: [initCache] never replaces an entry: a second call returns the
    entry the first one returned and leaves the cache as it is.  After
    [clearCache(channelId)] the channel has no entry ([getCacheStatus]
    answers [exists: false]), the other channels keep theirs, and the
    next [initCache] starts from an empty entry.  [clearCache('')]
    clears every channel, like [clearCache()]. *)
Theorem X18_cache_life_cycle {RT : ChannelVideos.Runtime}
    (channelId other : string) (now later : Z)
    (channelCache : gmap string ChannelVideos.CacheEntry) :
  channelId <> ""%string -> other <> channelId ->
  ChannelVideos.initCache channelId later
    (snd (ChannelVideos.initCache channelId now channelCache))
  = ChannelVideos.initCache channelId now channelCache /\
  ChannelVideos.getCacheStatus channelId
    (ChannelVideos.clearCache (Some channelId) channelCache) = None /\
  ChannelVideos.clearCache (Some channelId) channelCache !! other
  = channelCache !! other /\
  fst (ChannelVideos.initCache channelId later
         (ChannelVideos.clearCache (Some channelId) channelCache))
  = ChannelVideos.emptyEntry later /\
  ChannelVideos.clearCache (Some ""%string) channelCache = ∅ /\
  ChannelVideos.clearCache None channelCache = ∅.
Proof.
  intros Hne Hother.
  assert (Htruthy : Js.truthy (Js.Str channelId) = true).
  { simpl. destruct (String.eqb_spec channelId ""); [contradiction|].
    reflexivity. }
  unfold ChannelVideos.clearCache. rewrite Htruthy.
  split; [|split; [|split; [|split; [|split]]]].
  - unfold ChannelVideos.initCache.
    destruct (channelCache !! channelId) as [entry|] eqn:E; simpl.
    + rewrite E. reflexivity.
    + rewrite lookup_insert_eq. reflexivity.
  - unfold ChannelVideos.getCacheStatus. rewrite lookup_delete_eq.
    reflexivity.
  - apply lookup_delete_ne. congruence.
  - unfold ChannelVideos.initCache. rewrite lookup_delete_eq. reflexivity.
  - reflexivity.
  - reflexivity.
Qed.

Lemma X18_cache_life_cycle_witness :
  ChannelVideos.getCacheStatus "UC123"
    (ChannelVideos.clearCache (Some "UC123"%string) CacheScenario.oneChannel)
  = None.
Proof.
  refine (proj1 (proj2 (X18_cache_life_cycle (RT := VideoScenario.plain)
                          "UC123" "UC456" 0 1 CacheScenario.oneChannel _ _))).
  - discriminate.
  - discriminate.
Defined.


Section FastCacheFacts.
Context {D : Type}.

Lemma FastCache_get_cases (c : FastCache.t D) key now :
  (fst (FastCache.get key now c) = None /\
   snd (FastCache.get key now c) = FastCache.remove key c) \/
  (exists e, FastCache.cache c !! key = Some e /\
             now - FastCache.ts e <= FastCache.ttl c /\
             FastCache.get key now c = (Some (FastCache.data e), c)).
Proof.
  unfold FastCache.get.
  destruct (FastCache.cache c !! key) as [e|] eqn:E.
  - destruct (Z.ltb_spec (FastCache.ttl c) (now - FastCache.ts e)).
    + left. split; reflexivity.
    + right. exists e. auto.
  - left. split; [reflexivity|]. unfold FastCache.remove.
    rewrite delete_id by exact E. destruct c; reflexivity.
Qed.

End FastCacheFacts.

(** X19: a [FastCache] evicts only on a read, and only the key read.
    A [get] leaves every other key as it is and never changes the TTL;
    a hit changes nothing at all; a miss leaves the key absent, so that
    every later [get] of the key misses too, whatever the clock says,
    until the key is set again; an entry whose age is exactly the TTL is
    still a hit; and [size()] counts expired entries until they are
    read: it is the same at every time, and a read lowers it by at most
    one. *)
Theorem X19_cache_evicts_on_read_only {D : Type} (c : FastCache.t D)
    (key other : string) (now later : Z) (e : FastCache.Entry D) :
  other <> key ->
  FastCache.cache (snd (FastCache.get key now c)) !! other
  = FastCache.cache c !! other /\
  FastCache.ttl (snd (FastCache.get key now c)) = FastCache.ttl c /\
  (forall d, fst (FastCache.get key now c) = Some d ->
     snd (FastCache.get key now c) = c) /\
  (fst (FastCache.get key now c) = None ->
   FastCache.cache (snd (FastCache.get key now c)) !! key = None /\
   fst (FastCache.get key later (snd (FastCache.get key now c))) = None) /\
  (FastCache.cache c !! key = Some e ->
   now - FastCache.ts e = FastCache.ttl c ->
   FastCache.get key now c = (Some (FastCache.data e), c)) /\
  (FastCache.size (snd (FastCache.get key now c)) <= FastCache.size c
   <= FastCache.size (snd (FastCache.get key now c)) + 1)%nat.
Proof.
  intros Hne.
  destruct (FastCache_get_cases c key now) as [[Hnone Hrest]|(e' & He & Hage & Hget)].
  - rewrite Hrest, Hnone. simpl.
    split; [apply lookup_delete_ne; congruence|].
    split; [reflexivity|]. split; [discriminate|].
    split.
    { intros _. split; [apply lookup_delete_eq|].
      unfold FastCache.get. simpl. rewrite lookup_delete_eq. reflexivity. }
    split.
    { intros Hk Hexact. apply FastCache_get_fresh; [exact Hk | lia]. }
    unfold FastCache.size. simpl.
    destruct (FastCache.cache c !! key) as [e0|] eqn:E0.
    + rewrite (map_size_delete_Some key (FastCache.cache c)) by (rewrite E0; eauto).
      assert (base.size (FastCache.cache c) <> 0%nat).
      { intros Hz. apply map_size_empty_iff in Hz. rewrite Hz in E0.
        rewrite lookup_empty in E0. discriminate. }
      lia.
    + rewrite (map_size_delete_None key (FastCache.cache c) E0). lia.
  - rewrite Hget. simpl.
    split; [reflexivity|]. split; [reflexivity|].
    split; [reflexivity|]. split; [discriminate|].
    split.
    { intros Hk _. rewrite He in Hk. injection Hk as ->. reflexivity. }
    lia.
Qed.

Lemma X19_cache_evicts_on_read_only_witness :
  let c := FastCache.set "b" 2%nat 0
             (FastCache.set "a" 1%nat 0 (FastCache.new 1000)) in
  FastCache.cache (snd (FastCache.get "a" 5000 c)) !! "b"%string
  = FastCache.cache c !! "b"%string.
Proof.
  refine (proj1 (X19_cache_evicts_on_read_only
                   (FastCache.set "b" 2%nat 0
                      (FastCache.set "a" 1%nat 0 (FastCache.new 1000)))
                   "a" "b" 5000 6000
                   {| FastCache.data := 1%nat; FastCache.ts := 0 |} _)).
  discriminate.
Defined.

(** X20: what the writes of a [FastCache] do to later reads.  A [set]
    of one key does not change what a [get] of another key returns; a
    second [set] of a key replaces the first, data and time stamp;
    after [delete(key)] and after [clear()] a [get] misses; [clear()]
    leaves size 0; and none of them changes the TTL. *)
Theorem X20_cache_writes {D : Type} (c : FastCache.t D)
    (key other : string) (d d' : D) (t t' now : Z) :
  other <> key ->
  fst (FastCache.get other now (FastCache.set key d t c))
  = fst (FastCache.get other now c) /\
  FastCache.set key d' t' (FastCache.set key d t c)
  = FastCache.set key d' t' c /\
  fst (FastCache.get key now (FastCache.remove key c)) = None /\
  fst (FastCache.get other now (FastCache.remove key c))
  = fst (FastCache.get other now c) /\
  fst (FastCache.get key now (FastCache.clear c)) = None /\
  FastCache.size (FastCache.clear c) = 0%nat /\
  FastCache.ttl (FastCache.set key d t c) = FastCache.ttl c /\
  FastCache.ttl (FastCache.remove key c) = FastCache.ttl c /\
  FastCache.ttl (FastCache.clear c) = FastCache.ttl c.
Proof.
  intros Hne. unfold FastCache.get, FastCache.set, FastCache.remove,
    FastCache.clear, FastCache.size. simpl.
  rewrite lookup_insert_ne by congruence.
  rewrite lookup_delete_eq, lookup_delete_ne by congruence.
  rewrite lookup_empty, insert_insert_eq, map_size_empty.
  repeat split.
  - destruct (FastCache.cache c !! other) as [e|]; [|reflexivity].
    destruct (FastCache.ttl c <? now - FastCache.ts e); reflexivity.
  - destruct (FastCache.cache c !! other) as [e|]; [|reflexivity].
    destruct (FastCache.ttl c <? now - FastCache.ts e); reflexivity.
Qed.

Lemma X20_cache_writes_witness :
  fst (FastCache.get "b" 10 (FastCache.set "a" 1%nat 0 (FastCache.new 1000)))
  = fst (FastCache.get "b" 10 (FastCache.new (D := nat) 1000)).
Proof.
  refine (proj1 (X20_cache_writes (FastCache.new 1000) "a" "b"
                   1%nat 2%nat 0 5 10 _)).
  discriminate.
Defined.

Section SearchExtraction.
Import Js Search.
Context {PR : Presentation}.

Lemma formatAs_id k h item i r :
  formatAs k h item i = Ok (Some r) -> truthy (id r) = true.
Proof.
  unfold formatAs. destruct (truthy i) eqn:Et; [|discriminate].
  destruct (present k h item); [|discriminate].
  intros [= <-]. exact Et.
Qed.

Lemma formatResult_id h item r :
  formatResult h item = Ok (Some r) -> truthy (id r) = true.
Proof.
  unfold formatResult, formatVideo, formatChannel, formatPlaylist.
  destruct (negb (truthy item)); [discriminate|].
  repeat match goal with
  | |- context [if ?b then _ else _] => destruct b
  end; try discriminate; apply formatAs_id.
Qed.

Lemma extractItems_spec h items : forall s rs,
  s ⊆ snd (extractItems h items s rs) /\
  forall out, fst (extractItems h items s rs) = Ok out ->
    exists more, out = rs ++ more /\
      size (snd (extractItems h items s rs)) = (size s + length more)%nat /\
      Forall (fun r => truthy (id r) = true) more.
Proof.
  induction items as [|item items IH]; intros s rs; simpl.
  - split; [reflexivity|]. intros out [= <-]. exists [].
    rewrite app_nil_r. simpl. split; [reflexivity|]. split; [lia|constructor].
  - destruct (get h item "id") as [x|m]; simpl;
      [|split; [reflexivity | discriminate]].
    set (i := or (or x (field h (field h item "author") "id"))
                 (field h item "playlist_id")).
    destruct (truthy i && negb (bool_decide (i ∈ s))) eqn:Ec; [|apply IH].
    destruct (formatResult h item) as [[formatted|]|m] eqn:Ef; simpl;
      [|apply IH|split; [reflexivity | discriminate]].
    apply andb_true_iff in Ec as [_ Hnew].
    apply negb_true_iff, bool_decide_eq_false in Hnew.
    destruct (IH ({[ i ]} ∪ s) (rs ++ [formatted])) as [Hsub Hok].
    split.
    + intros y Hy. apply Hsub, elem_of_union_r, Hy.
    + intros out Hout. destruct (Hok out Hout) as (more & -> & Hsize & Hall).
      exists (formatted :: more). rewrite <- app_assoc. simpl.
      split; [reflexivity|]. split.
      * rewrite Hsize, size_union, size_singleton
          by (apply disjoint_singleton_l, Hnew). lia.
      * constructor; [eapply formatResult_id, Ef | exact Hall].
Qed.

Lemma extractSearchResults_spec h data s :
  s ⊆ snd (extractSearchResults h data s) /\
  forall more, fst (extractSearchResults h data s) = Ok more ->
    size (snd (extractSearchResults h data s)) = (size s + length more)%nat /\
    Forall (fun r => truthy (id r) = true) more.
Proof.
  unfold extractSearchResults.
  destruct (truthy (or (field h data "results") (field h data "contents"))).
  - destruct (iterate h _) as [xs|m]; simpl.
    + destruct (extractItems_spec h xs s []) as [Hsub Hok].
      split; [exact Hsub|]. intros more Hmore.
      destruct (Hok more Hmore) as (more' & -> & Hsize & Hall). auto.
    + split; [reflexivity | discriminate].
  - simpl. split; [reflexivity|]. intros more [= <-]. simpl.
    split; [lia | constructor].
Qed.

(** What the loop of [backgroundFetchSearch] does to the state. *)
Lemma searchLoop_grows cacheKey ref continuation clock fuel :
  forall pages st pages' st' c,
    objects st !! ref = Some c ->
    searchLoop fuel cacheKey ref continuation clock pages st
      = Some (pages', st') ->
    (pages <= pages')%nat /\
    activeFetches st' = activeFetches st /\
    FastCache.ttl (searchCache st') = FastCache.ttl (searchCache st) /\
    (forall r, r <> ref -> objects st' !! r = objects st !! r) /\
    (forall k, k <> cacheKey ->
       FastCache.cache (searchCache st') !! k
       = FastCache.cache (searchCache st) !! k) /\
    exists c',
      objects st' !! ref = Some c' /\
      results c `prefix_of` results c' /\
      seenIds c ⊆ seenIds c' /\
      isComplete c' = isComplete c /\
      (length (results c) + (pages' - pages)
       <= length (results c'))%nat.
Proof.
  induction fuel as [|fuel IH]; intros pages st pages' st' c Hc;
    cbn [searchLoop]; [discriminate|].
  rewrite Hc.
  assert (Hstop : forall c0, results c `prefix_of` results c0 ->
            seenIds c ⊆ seenIds c0 -> isComplete c0 = isComplete c ->
            let st0 := store ref c0 st in
            (pages <= pages)%nat /\
            activeFetches st0 = activeFetches st /\
            FastCache.ttl (searchCache st0) = FastCache.ttl (searchCache st) /\
            (forall r, r <> ref -> objects st0 !! r = objects st !! r) /\
            (forall k, k <> cacheKey ->
               FastCache.cache (searchCache st0) !! k
               = FastCache.cache (searchCache st) !! k) /\
            exists c', objects st0 !! ref = Some c' /\
              results c `prefix_of` results c' /\
              seenIds c ⊆ seenIds c' /\
              isComplete c' = isComplete c /\
              (length (results c) + (pages - pages)
               <= length (results c'))%nat).
  { intros c0 Hp Hs Hi. simpl. split; [lia|]. split; [reflexivity|].
    split; [reflexivity|].
    split; [intros r Hr; apply lookup_insert_ne; congruence|].
    split; [reflexivity|].
    exists c0. rewrite lookup_insert_eq. split; [reflexivity|].
    split; [exact Hp|]. split; [exact Hs|]. split; [exact Hi|].
    apply prefix_length in Hp. lia. }
  assert (Hsame : (pages <= pages)%nat /\
            activeFetches st = activeFetches st /\
            FastCache.ttl (searchCache st) = FastCache.ttl (searchCache st) /\
            (forall r, r <> ref -> objects st !! r = objects st !! r) /\
            (forall k, k <> cacheKey ->
               FastCache.cache (searchCache st) !! k
               = FastCache.cache (searchCache st) !! k) /\
            exists c', objects st !! ref = Some c' /\
              results c `prefix_of` results c' /\
              seenIds c ⊆ seenIds c' /\
              isComplete c' = isComplete c /\
              (length (results c) + (pages - pages)
               <= length (results c'))%nat).
  { repeat split; try lia. exists c. repeat split; try assumption;
      try reflexivity. lia. }
  destruct ((length (results c) <? CONFIG.MAX_RESULTS_PER_SEARCH)%nat
            && has_continuation c && (pages <? 20)%nat);
    [|intros [= <- <-]; exact Hsame].
  destruct (continuation pages) as [page|m]; [|intros [= <- <-]; exact Hsame].
  destruct (extractSearchResults_spec (heap page) (root page) (seenIds c))
    as [Hsub Hok].
  destruct (extractSearchResults (heap page) (root page) (seenIds c))
    as [[more|m] seen']; simpl in Hsub.
  - destruct (Nat.eqb_spec (length more) 0) as [Hz|Hnz].
    + intros [= <- <-]. apply Hstop; [reflexivity | exact Hsub | reflexivity].
    + intros Hloop.
      set (c1 := {| results := results c ++ more; seenIds := seen';
                    searchData := Some page; isComplete := isComplete c |}).
      fold c1 in Hloop.
      assert (Hc1 : objects (cacheSet cacheKey ref (clock pages)
                               (store ref c1 st)) !! ref = Some c1)
        by (simpl; apply lookup_insert_eq).
      destruct (IH (S pages) _ pages' st' c1 Hc1 Hloop)
        as (Hp & Ha & Ht & Ho & Hk & c' & Hc' & Hpre & Hseen & Hcomp & Hlen).
      split; [lia|]. split; [exact Ha|]. split; [exact Ht|].
      split.
      { intros r Hr. rewrite (Ho r Hr). simpl.
        apply lookup_insert_ne. congruence. }
      split.
      { intros k Hk'. rewrite (Hk k Hk'). simpl.
        apply lookup_insert_ne. congruence. }
      exists c'. split; [exact Hc'|].
      split; [etransitivity; [|exact Hpre]; apply prefix_app_r; reflexivity|].
      split; [etransitivity; [exact Hsub | exact Hseen]|].
      split; [exact Hcomp|].
      simpl in Hlen. rewrite length_app in Hlen. lia.
  - intros [= <- <-]. apply Hstop; [reflexivity | exact Hsub | reflexivity].
Qed.

End SearchExtraction.

(** X21: [extractSearchResults] only adds to the set of seen
    identifiers, and when it returns it has added exactly one
    identifier per result: the set has grown by the number of results
    returned, so it returns no result exactly when the set has not
    grown.  Every result carries a truthy identifier. *)
Theorem X21_search_extraction_accounting {PR : Search.Presentation}
    (h : Js.Heap) (data : Js.Val) (seenIds : gset Js.Val)
    (more : list Search.Result) :
  fst (Search.extractSearchResults h data seenIds) = Js.Ok more ->
  seenIds ⊆ snd (Search.extractSearchResults h data seenIds) /\
  size (snd (Search.extractSearchResults h data seenIds))
  = (size seenIds + length more)%nat /\
  (more = [] <-> snd (Search.extractSearchResults h data seenIds) = seenIds) /\
  Forall (fun r => Js.truthy (Search.id r) = true) more.
Proof.
  intros Hmore.
  destruct (extractSearchResults_spec h data seenIds) as [Hsub Hok].
  destruct (Hok more Hmore) as [Hsize Hall].
  split; [exact Hsub|]. split; [exact Hsize|]. split; [|exact Hall].
  split.
  - intros ->. simpl in Hsize.
    apply set_eq. intros x. split; [|apply Hsub].
    intros Hx. destruct (decide (x ∈ seenIds)) as [|Hn]; [assumption|].
    exfalso.
    assert (Hlt : (size seenIds < size (snd (Search.extractSearchResults h data seenIds)))%nat).
    { apply subset_size. split; [exact Hsub|].
      intros Hback. apply Hn, Hback, Hx. }
    lia.
  - intros Heq. rewrite Heq in Hsize.
    destruct more; [reflexivity | simpl in Hsize; lia].
Qed.

Lemma X21_search_extraction_accounting_witness :
  (@nil (@Search.Result CacheScenario.blank) = []
   <-> snd (Search.extractSearchResults (PR := CacheScenario.blank)
              ∅ Js.Undefined ∅) = ∅) /\
  Forall (fun r => Js.truthy (Search.id r) = true)
    (@nil (@Search.Result CacheScenario.blank)).
Proof.
  refine (proj2 (proj2 (X21_search_extraction_accounting
                          (PR := CacheScenario.blank)
                          ∅ Js.Undefined ∅ [] _))).
  reflexivity.
Defined.

(** X22: the range of a search answer.  With numbers [1 <= start] and
    [0 <= end] the answer holds the results number [start] to [end] of
    the cache entry, counted from one, as far as the entry goes.  A
    call that leaves [start] and [end] out gets the defaults 1 and 20,
    the first twenty results.  But the defaults do not replace [null]:
    with [end] null, which is what the search routes pass when the
    query has no [end] parameter, the entry counts as long enough to be
    served from the cache alone, however short it is, and the answer
    holds no result at all. *)
Theorem X22_search_range {PR : Search.Presentation} (cached : Search.Cached)
    (s e : Z) (start : Range.Bound) (parsed : option Z) :
  1 <= s -> 0 <= e ->
  SearchResponse.results
    (SearchResponse.buildSearchResponse cached
       (SearchResponse.startOf (Range.Int s))
       (SearchResponse.endOf (Range.Int e)))
  = take (Z.to_nat (e - s + 1))
      (drop (Z.to_nat (s - 1)) (Search.results cached)) /\
  SearchResponse.results
    (SearchResponse.buildSearchResponse cached
       (SearchResponse.startOf Range.Undefined)
       (SearchResponse.endOf Range.Undefined))
  = take 20 (Search.results cached) /\
  SearchResponse.servedFromCache (Some cached)
    (SearchResponse.endOf (Range.ofQuery None parsed)) = true /\
  SearchResponse.results
    (SearchResponse.buildSearchResponse cached
       (SearchResponse.startOf start)
       (SearchResponse.endOf (Range.ofQuery None parsed)))
  = [].
Proof.
  intros Hs He. unfold SearchResponse.buildSearchResponse. simpl.
  split; [apply cut_range; assumption|].
  split; [rewrite cut_range by lia; simpl; rewrite drop_0; reflexivity|].
  split; [apply Z.leb_le; lia|].
  apply cut_null_end.
Qed.

Lemma X22_search_range_witness :
  SearchResponse.results (PR := CacheScenario.blank)
    (SearchResponse.buildSearchResponse
       {| Search.results := []; Search.seenIds := ∅;
          Search.searchData := None; Search.isComplete := true |}
       (SearchResponse.startOf Range.Null)
       (SearchResponse.endOf (Range.ofQuery None None)))
  = [].
Proof.
  refine (proj2 (proj2 (proj2
            (X22_search_range (PR := CacheScenario.blank)
               {| Search.results := []; Search.seenIds := ∅;
                  Search.searchData := None; Search.isComplete := true |}
               1 20 Range.Null None _ _)))).
  - lia.
  - lia.
Defined.

(** X23: a background search on a stored object returns with the
    object marked complete and stored under its key with the time of
    that last [set].  The results the object had are still there, in
    place, followed by at least one new result for each of the (at most
    20) pages counted; its set of seen identifiers has only grown; and
    no other object, no other key, the TTL and the set of active
    fetches are touched. *)
Theorem X23_background_search_end_state {PR : Search.Presentation}
    (cacheKey : string) (ref : nat) (continuation : nat -> Js.Res Search.Page)
    (clock : nat -> Z) (finished : Z) (st : Search.State) (c : Search.Cached) :
  Search.objects st !! ref = Some c ->
  exists pages st' c',
    Search.backgroundFetchSearch cacheKey ref continuation clock finished st
      = Some (pages, st') /\
    (pages <= 20)%nat /\
    Search.objects st' !! ref = Some c' /\
    Search.isComplete c' = true /\
    Search.results c `prefix_of` Search.results c' /\
    (length (Search.results c) + pages <= length (Search.results c'))%nat /\
    Search.seenIds c ⊆ Search.seenIds c' /\
    FastCache.cache (Search.searchCache st') !! cacheKey
    = Some {| FastCache.data := ref; FastCache.ts := finished |} /\
    (forall r, r <> ref -> Search.objects st' !! r = Search.objects st !! r) /\
    (forall k, k <> cacheKey ->
       FastCache.cache (Search.searchCache st') !! k
       = FastCache.cache (Search.searchCache st) !! k) /\
    FastCache.ttl (Search.searchCache st')
    = FastCache.ttl (Search.searchCache st) /\
    Search.activeFetches st' = Search.activeFetches st.
Proof.
  intros Hc. unfold Search.backgroundFetchSearch.
  destruct (searchLoop_ends cacheKey ref continuation clock 21 0 st)
    as (pages & st1 & He & Hle); try lia.
  rewrite He.
  destruct (searchLoop_grows cacheKey ref continuation clock 21 0 st pages
              st1 c Hc He)
    as (_ & Ha & Ht & Ho & Hk & c1 & Hc1 & Hpre & Hseen & _ & Hlen).
  rewrite Hc1.
  eexists pages, _, _. split; [reflexivity|].
  split; [lia|]. simpl. rewrite lookup_insert_eq.
  split; [reflexivity|]. simpl.
  split; [reflexivity|]. split; [exact Hpre|].
  split; [lia|]. split; [exact Hseen|].
  split; [apply lookup_insert_eq|].
  split; [intros r Hr; rewrite lookup_insert_ne by congruence; apply Ho, Hr|].
  split; [intros k Hk'; rewrite lookup_insert_ne by congruence;
          apply Hk, Hk'|].
  split; [exact Ht | exact Ha].
Qed.

Lemma X23_background_search_end_state_witness :
  exists pages st' c',
    Search.backgroundFetchSearch (PR := CacheScenario.blank) "s|cats" 1%nat
      (fun _ => Js.Throw "offline") (fun _ => 0) 10 CacheScenario.fetching
      = Some (pages, st') /\
    Search.objects st' !! 1%nat = Some c' /\
    Search.isComplete c' = true.
Proof.
  destruct (X23_background_search_end_state (PR := CacheScenario.blank)
              "s|cats" 1%nat (fun _ => Js.Throw "offline") (fun _ => 0) 10
              CacheScenario.fetching
              {| Search.results := []; Search.seenIds := ∅;
                 Search.searchData := None; Search.isComplete := false |})
    as (pages & st' & c' & He & _ & Hc & Hcomplete & _).
  - vm_compute. reflexivity.
  - exists pages, st', c'. auto.
Defined.


Section PlaylistFacts.
Import Js Playlists.

Lemma extends_id : extends (fun ids => ids).
Proof. intros ids. split; [reflexivity | auto]. Qed.

Lemma extends_compose f g : extends f -> extends g -> extends (fun ids => g (f ids)).
Proof.
  intros Hf Hg ids. destruct (Hf ids) as [Pf Tf].
  destruct (Hg (f ids)) as [Pg Tg].
  split; [etransitivity; eassumption | auto].
Qed.

Lemma extends_pushNew x : truthy x = true -> extends (pushNew x).
Proof.
  intros Hx ids. unfold pushNew.
  destruct (bool_decide (x ∈ ids)) eqn:E.
  - split; [reflexivity | auto].
  - apply bool_decide_eq_false in E. split.
    + apply prefix_app_r. reflexivity.
    + intros [Hnd Hall]. split.
      * apply NoDup_app. split; [exact Hnd|]. split.
        -- intros y Hy Hy'. apply list_elem_of_singleton in Hy'. subst y.
           exact (E Hy).
        -- apply NoDup_singleton.
      * apply Forall_app. split; [exact Hall|]. apply Forall_singleton, Hx.
Qed.

Lemma extends_byContentId h obj : extends (byContentId h obj).
Proof.
  unfold byContentId.
  destruct (truthy (field h obj "content_id")) eqn:E; simpl.
  - destruct (equals "PLAYLIST" (field h obj "content_type"));
      [apply extends_pushNew, E | apply extends_id].
  - apply extends_id.
Qed.

Lemma extends_byId h obj : extends (byId h obj).
Proof.
  unfold byId.
  destruct (truthy (field h obj "id")) eqn:E; simpl; [|apply extends_id].
  destruct (isString (field h obj "id") && startsWithPL (field h obj "id"));
    [apply extends_pushNew, E | apply extends_id].
Qed.

Lemma extends_byKey k h obj : extends (byKey k h obj).
Proof.
  unfold byKey.
  destruct (truthy (field h obj k)) eqn:E; simpl; [|apply extends_id].
  destruct (isString (field h obj k));
    [apply extends_pushNew, E | apply extends_id].
Qed.

Lemma extends_fold (f : Val -> list Val -> list Val) xs :
  (forall x, extends (f x)) ->
  extends (fun ids => fold_left (fun acc x => f x acc) xs ids).
Proof.
  intros Hf. induction xs as [|x xs IH]; simpl; [apply extends_id|].
  apply (extends_compose (f x) _ (Hf x) IH).
Qed.

Lemma extends_collect self budget h :
  (forall o, extends (self h o)) ->
  forall obj, extends (collect self budget h obj).
Proof.
  intros Hself. induction budget as [|budget IH]; intros obj; simpl.
  - apply extends_id.
  - destruct obj; try apply extends_id.
    apply (extends_compose (self h (Ref l))
             (fun ids => fold_left (fun acc x => collect self budget h x acc)
                           (descend h l) ids)).
    + apply Hself.
    + apply (extends_fold (fun x acc => collect self budget h x acc)).
      exact IH.
Qed.

Lemma extends_findPlaylistIds h obj : extends (findPlaylistIds h obj).
Proof.
  apply extends_collect. intros o.
  apply (extends_compose (fun ids => byId h o (byKey "playlistId" h o ids))
           (byContentId h o)); [|apply extends_byContentId].
  apply (extends_compose (byKey "playlistId" h o) (byId h o));
    [apply extends_byKey | apply extends_byId].
Qed.

Lemma extends_findPlaylistsTab h obj : extends (findPlaylistsTab h obj).
Proof.
  apply extends_collect. intros o.
  apply (extends_compose (byContentId h o) (byId h o));
    [apply extends_byContentId | apply extends_byId].
Qed.

Lemma extends_findPlaylistsContinuation h obj :
  extends (findPlaylistsContinuation h obj).
Proof.
  apply extends_collect. intros o.
  apply (extends_compose (fun ids => byId h o (byContentId h o ids))
           (byKey "playlist_id" h o)); [|apply extends_byKey].
  apply (extends_compose (byContentId h o) (byId h o));
    [apply extends_byContentId | apply extends_byId].
Qed.

Lemma tidy_nil : tidy [].
Proof. split; constructor. Qed.

Lemma itemIds_tidy h items : forall ids,
  tidy ids -> tidy (snd (itemIds h items ids)).
Proof.
  induction items as [|item items IH]; intros ids Hids; simpl; [exact Hids|].
  destruct (nullish item); [exact Hids|].
  apply IH.
  apply (extends_compose (byContentId h item) (byId h item)
           (extends_byContentId h item) (extends_byId h item)).
  exact Hids.
Qed.

Lemma extractPlaylistIds_tidy h data isContinuation :
  tidy (extractPlaylistIds h data isContinuation).
Proof.
  unfold extractPlaylistIds. destruct isContinuation.
  - destruct (get h data "contents"); [|apply tidy_nil].
    apply extends_findPlaylistsContinuation, tidy_nil.
  - destruct (tabItems h data) as [items|m]; [|apply tidy_nil].
    pose proof (itemIds_tidy h items [] tidy_nil) as Hi.
    destruct (itemIds h items []) as [[[]|m] ids]; simpl in Hi;
      [|exact Hi].
    apply extends_findPlaylistsTab, Hi.
Qed.

Lemma extends_mergeNew more :
  Forall (fun v => truthy v = true) more -> extends (mergeNew more).
Proof.
  intros Hmore. unfold mergeNew.
  induction more as [|x more IH]; simpl; [apply extends_id|].
  apply Forall_cons in Hmore as [Hx Hmore].
  apply (extends_compose (pushNew x) _ (extends_pushNew x Hx) (IH Hmore)).
Qed.

Lemma browseLoop_spec u fuel :
  forall token pageCount ids calls,
    (51 <= pageCount + fuel)%nat -> (1 <= fuel)%nat ->
    exists ids' calls',
      browseLoop fuel u token pageCount ids calls = Some (ids', calls') /\
      ids `prefix_of` ids' /\ (tidy ids -> tidy ids') /\
      (calls' + pageCount <= calls + Nat.max pageCount 50)%nat.
Proof.
  induction fuel as [|fuel IH]; intros token pc ids calls Hf H1; [lia|].
  cbn [browseLoop].
  destruct (truthy token); cbn [andb];
    [|eexists _, _; split; [reflexivity|]; split; [reflexivity|];
      split; [auto | lia]].
  destruct (Nat.ltb_spec pc 50) as [Hlt|Hge];
    [|eexists _, _; split; [reflexivity|]; split; [reflexivity|];
      split; [auto | lia]].
  destruct (browseContinuation u pc token) as [contData|m];
    [|eexists _, _; split; [reflexivity|]; split; [reflexivity|];
      split; [auto | lia]].
  set (data := field (heap u) contData "data").
  destruct (IH (Walker.findContinuationTokenBrowse (heap u) data 0) (S pc)
              (findPlaylistIds (heap u) data ids) (S calls))
    as (ids' & calls' & He & Hp & Ht & Hc); try lia.
  destruct (extends_findPlaylistIds (heap u) data ids) as [Pe Te].
  exists ids', calls'. split; [exact He|].
  split; [etransitivity; eassumption|]. split; [auto | lia].
Qed.

Lemma getPlaylistsViaBrowse_spec u :
  exists ids calls,
    getPlaylistsViaBrowse u = Some (ids, calls) /\ tidy ids /\
    (calls <= 49)%nat.
Proof.
  unfold getPlaylistsViaBrowse.
  destruct (browse u) as [browseData|m];
    [|exists [], 0%nat; split; [reflexivity|]; split; [apply tidy_nil | lia]].
  destruct (truthy (field (heap u) browseData "data")); simpl;
    [|exists [], 0%nat; split; [reflexivity|]; split; [apply tidy_nil | lia]].
  destruct (browseLoop_spec u 50
              (Walker.findContinuationTokenBrowse (heap u)
                 (field (heap u) browseData "data") 0) 1
              (findPlaylistIds (heap u) (field (heap u) browseData "data") [])
              0) as (ids & calls & He & _ & Ht & Hc); try lia.
  exists ids, calls. split; [exact He|]. split; [|lia].
  apply Ht, extends_findPlaylistIds, tidy_nil.
Qed.

Lemma tabLoop_spec u fuel :
  forall playlistsData pageCount ids calls,
    (101 <= pageCount + fuel)%nat -> (1 <= fuel)%nat ->
    exists r ids' calls',
      tabLoop fuel u playlistsData pageCount ids calls
        = Some (r, ids', calls') /\
      ids `prefix_of` ids' /\ (tidy ids -> tidy ids') /\
      (calls' + pageCount <= calls + Nat.max pageCount 100)%nat.
Proof.
  induction fuel as [|fuel IH]; intros pd pc ids calls Hf H1; [lia|].
  cbn [tabLoop].
  destruct (get (heap u) pd "has_continuation") as [more|m];
    [|eexists _, _, _; split; [reflexivity|]; split; [reflexivity|];
      split; [auto | lia]].
  destruct (truthy more); cbn [andb];
    [|eexists _, _, _; split; [reflexivity|]; split; [reflexivity|];
      split; [auto | lia]].
  destruct (Nat.ltb_spec pc 100) as [Hlt|Hge];
    [|eexists _, _, _; split; [reflexivity|]; split; [reflexivity|];
      split; [auto | lia]].
  destruct (playlistsContinuation u pc) as [next|m];
    [|eexists _, _, _; split; [reflexivity|]; split; [reflexivity|];
      split; [auto | lia]].
  destruct (IH next (S pc)
              (mergeNew (extractPlaylistIds (heap u) next true) ids) (S calls))
    as (r & ids' & calls' & He & Hp & Ht & Hc); try lia.
  destruct (extends_mergeNew (extractPlaylistIds (heap u) next true)
              (proj2 (extractPlaylistIds_tidy (heap u) next true)) ids)
    as [Pe Te].
  exists r, ids', calls'. split; [exact He|].
  split; [etransitivity; eassumption|]. split; [auto | lia].
Qed.

End PlaylistFacts.

(** X24: [getPlaylistsViaBrowse] always returns a list, whatever
    upstream answers or throws; the list holds no identifier twice and
    only truthy values; and the function makes at most 49 continuation
    requests after the first page.  It returns the empty list when the
    first request throws or its answer has no [data]. *)
Theorem X24_browse_playlists (u : Playlists.Upstream) :
  (exists ids calls,
     Playlists.getPlaylistsViaBrowse u = Some (ids, calls) /\
     NoDup ids /\ Forall (fun v => Js.truthy v = true) ids /\
     (calls <= 49)%nat) /\
  ((forall m, Playlists.browse u = Js.Throw m ->
      Playlists.getPlaylistsViaBrowse u = Some ([], 0%nat)) /\
   (forall browseData,
      Playlists.browse u = Js.Ok browseData ->
      Js.truthy (Js.field (Playlists.heap u) browseData "data") = false ->
      Playlists.getPlaylistsViaBrowse u = Some ([], 0%nat))).
Proof.
  split.
  - destruct (getPlaylistsViaBrowse_spec u) as (ids & calls & He & [Hnd Hall] & Hc).
    exists ids, calls. auto.
  - split.
    + intros m Hm. unfold Playlists.getPlaylistsViaBrowse. rewrite Hm.
      reflexivity.
    + intros browseData Hb Hd. unfold Playlists.getPlaylistsViaBrowse.
      rewrite Hb, Hd. reflexivity.
Qed.

Lemma X24_browse_playlists_witness :
  Playlists.getPlaylistsViaBrowse
    {| Playlists.heap := ∅;
       Playlists.getPlaylists := Js.Throw "offline";
       Playlists.playlistsContinuation := fun _ => Js.Throw "offline";
       Playlists.browse := Js.Throw "offline";
       Playlists.browseContinuation := fun _ _ => Js.Throw "offline" |}
  = Some ([], 0%nat).
Proof.
  refine (proj1 (proj2 (X24_browse_playlists _)) "offline"%string _).
  reflexivity.
Defined.

(** X25: [extractPlaylistIds] returns, in both modes and for every
    payload, a list without repetition whose members are all truthy;
    for [null] or [undefined] data it returns the empty list; and when
    [current_tab.content.contents] is there but cannot be iterated, the
    exception ends the extraction before the recursive search has
    run: the result is empty whatever else the payload holds. *)
Theorem X25_extractPlaylistIds (h : Js.Heap) (data : Js.Val)
    (isContinuation : bool) :
  NoDup (Playlists.extractPlaylistIds h data isContinuation) /\
  Forall (fun v => Js.truthy v = true)
    (Playlists.extractPlaylistIds h data isContinuation) /\
  (Js.nullish data = true ->
   Playlists.extractPlaylistIds h data isContinuation = []) /\
  (forall tab m,
     Js.get h data "current_tab" = Js.Ok tab ->
     Js.truthy (Js.field h (Js.field h tab "content") "contents") = true ->
     Js.iterate h (Js.field h (Js.field h tab "content") "contents")
     = Js.Throw m ->
     Playlists.extractPlaylistIds h data false = []).
Proof.
  destruct (extractPlaylistIds_tidy h data isContinuation) as [Hnd Hall].
  split; [exact Hnd|]. split; [exact Hall|]. split.
  - intros Hn. unfold Playlists.extractPlaylistIds, Playlists.tabItems, Js.get.
    rewrite Hn. destruct isContinuation; reflexivity.
  - intros tab m Ht Htruthy Hiter.
    unfold Playlists.extractPlaylistIds, Playlists.tabItems.
    rewrite Ht. simpl. rewrite Htruthy, Hiter. reflexivity.
Qed.

Lemma X25_extractPlaylistIds_witness :
  Playlists.extractPlaylistIds ∅ Js.Null false = [] /\
  Playlists.extractPlaylistIds
    {[ 1%positive := Js.Rec [("current_tab", Js.Ref 2);
                             ("id", Js.Str "PLabc")];
       2%positive := Js.Rec [("content", Js.Ref 3)];
       3%positive := Js.Rec [("contents", Js.Num 7)] ]}
    (Js.Ref 1) false = [].
Proof.
  split.
  - refine (proj1 (proj2 (proj2 (X25_extractPlaylistIds ∅ Js.Null false))) _).
    reflexivity.
  - refine (proj2 (proj2 (proj2 (X25_extractPlaylistIds _ (Js.Ref 1) false)))
              (Js.Ref 2) "is not iterable"%string _ _ _);
      vm_compute; reflexivity.
Defined.

(** X26: the playlist part of [getChannelWithPlaylists] always comes to
    an end: method 1 makes at most 99 continuation requests, method 2
    at most 49.  Method 2 runs exactly when method 1 ended with fewer
    than five identifiers, and then only appends: what method 1 found
    stays at the front, in order.  The list answered holds no
    identifier twice. *)
Theorem X26_channel_playlists (u : Playlists.Upstream) :
  exists found,
    Playlists.channelPlaylists u = Some found /\
    NoDup (Playlists.playlistIds found) /\
    Playlists.fromTab found `prefix_of` Playlists.playlistIds found /\
    (Playlists.browsed found = true <->
     (length (Playlists.fromTab found) < 5)%nat) /\
    (Playlists.browsed found = false ->
     Playlists.playlistIds found = Playlists.fromTab found) /\
    (Playlists.tabCalls found <= 99)%nat /\
    (Playlists.browseCalls found <= 49)%nat.
Proof.
  unfold Playlists.channelPlaylists.
  assert (H1 : exists r ids1 calls1,
             match Playlists.getPlaylists u with
             | Js.Throw m => Some (Js.Throw m, [], 0%nat)
             | Js.Ok playlistsData =>
                 Playlists.tabLoop 100 u playlistsData 1
                   (Playlists.extractPlaylistIds (Playlists.heap u)
                      playlistsData false) 0
             end = Some (r, ids1, calls1) /\
             Playlists.tidy ids1 /\ (calls1 <= 99)%nat).
  { destruct (Playlists.getPlaylists u) as [pd|m].
    - destruct (tabLoop_spec u 100 pd 1
                  (Playlists.extractPlaylistIds (Playlists.heap u) pd false) 0)
        as (r & ids' & calls' & He & _ & Ht & Hc); try lia.
      exists r, ids', calls'. split; [exact He|]. split; [|lia].
      apply Ht, extractPlaylistIds_tidy.
    - exists (Js.Throw m), [], 0%nat. split; [reflexivity|].
      split; [apply tidy_nil | lia]. }
  destruct H1 as (r & ids1 & calls1 & -> & Htidy & Hcalls).
  destruct (Nat.ltb_spec (length ids1) 5) as [Hfew|Hmany].
  - destruct (getPlaylistsViaBrowse_spec u) as (ids2 & calls2 & -> & [_ Hall2] & Hc2).
    destruct (extends_mergeNew ids2 Hall2 ids1) as [Hp Ht].
    eexists. split; [reflexivity|]. simpl.
    split; [apply Ht, Htidy|]. split; [exact Hp|].
    split; [split; auto|]. split; [discriminate|]. split; assumption.
  - eexists. split; [reflexivity|]. simpl.
    split; [apply Htidy|]. split; [reflexivity|].
    split; [split; [discriminate | lia]|].
    split; [reflexivity|]. split; [assumption | lia].
Qed.


Section SearchInstanceFacts.
Import SearchInstance.

Lemma inv_init : inv init.
Proof.
  split; simpl.
  - intros q Hq. rewrite lookup_nil in Hq. discriminate.
  - discriminate.
Qed.

Lemma inv_create s :
  inv s -> instancePromise s = None -> inv (snd (create s)).
Proof.
  intros [Hpending Hinst] Hnone. split; simpl.
  - intros q Hq. destruct (decide (q < length (promises s))%nat) as [Hlt|Hge].
    + rewrite lookup_app_l in Hq by exact Hlt.
      specialize (Hpending q Hq). congruence.
    + rewrite lookup_app_r in Hq by lia.
      destruct (q - length (promises s))%nat as [|k] eqn:Ek;
        [f_equal; lia | simpl in Hq; rewrite lookup_nil in Hq; discriminate].
  - intros c Hc. destruct (Hinst c Hc) as (p & Hp & _). congruence.
Qed.

Lemma getYouTube_inv now s :
  inv s ->
  inv (snd (getYouTube false now s)) /\
  (forall c, youtubeInstance s = Some c ->
     snd (getYouTube false now s) = s /\
     yields s (fst (getYouTube false now s)) c).
Proof.
  intros Hs. pose proof Hs as [Hpending Hinst]. unfold getYouTube. simpl.
  destruct (youtubeInstance s) as [client|] eqn:Ey.
  - destruct (Hinst client eq_refl) as (p & Hp & Hr). rewrite Hp.
    destruct (now - instanceCreatedAt s <? INSTANCE_TTL); simpl.
    + split; [exact Hs|]. intros c [= <-]. split; reflexivity.
    + split; [exact Hs|]. intros c [= <-]. split; [reflexivity | exact Hr].
  - split; [|discriminate].
    destruct (instancePromise s) as [p|] eqn:Ep; [exact Hs|].
    apply inv_create; assumption.
Qed.

Lemma settle_inv p r now s :
  inv s ->
  inv (settle p r now s) /\
  (forall c, youtubeInstance s = Some c -> settle p r now s = s).
Proof.
  intros Hs. pose proof Hs as [Hpending Hinst]. unfold settle.
  destruct (promises s !! p) as [[| |]|] eqn:Ep;
    try (split; [exact Hs | reflexivity]).
  pose proof (Hpending p Ep) as Hcur.
  assert (Hlen : (p < length (promises s))%nat)
    by (apply lookup_lt_is_Some; rewrite Ep; eauto).
  split.
  - destruct r as [client|]; split; simpl.
    + intros q Hq. apply list_lookup_insert_Some in Hq as [(_ & Hq & _)|[_ Hq]];
        [discriminate | apply Hpending, Hq].
    + intros c [= <-]. exists p. split; [exact Hcur|].
      apply list_lookup_insert_eq, Hlen.
    + intros q Hq. apply list_lookup_insert_Some in Hq as [(_ & Hq & _)|[Hne Hq]];
        [discriminate|].
      specialize (Hpending q Hq). congruence.
    + intros c Hc. destruct (Hinst c Hc) as (p' & Hp' & Hr).
      rewrite Hcur in Hp'. injection Hp' as <-. congruence.
  - intros c Hc. destruct (Hinst c Hc) as (p' & Hp' & Hr).
    rewrite Hcur in Hp'. injection Hp' as <-. congruence.
Qed.

Lemma step_inv e s :
  inv s ->
  inv (step e s) /\
  (forall c, youtubeInstance s = Some c -> step e s = s).
Proof.
  intros Hs. destruct e as [now|p r now]; simpl.
  - destruct (getYouTube_inv now s Hs) as [Hi Hc]. split; [exact Hi|].
    intros c Hy. apply (Hc c Hy).
  - apply settle_inv, Hs.
Qed.

Lemma run_inv es : forall s,
  inv s ->
  inv (run es s) /\
  (forall c, youtubeInstance s = Some c -> run es s = s).
Proof.
  induction es as [|e es IH]; intros s Hs; simpl; [auto|].
  destruct (step_inv e s Hs) as [Hi Hc].
  destruct (IH (step e s) Hi) as [Hi' Hc'].
  split; [exact Hi'|]. intros c Hy.
  rewrite (Hc c Hy) in *. apply (Hc' c Hy).
Qed.

End SearchInstanceFacts.

(** X27: the client of the search handlers is made once.  However the
    calls of [getYouTube()] without [forceNew] and the settling of the
    creations they started interleave, once a creation has succeeded
    the module never changes again: every later call, at any time,
    answers with that same client, at once or through the promise
    that resolved to it, and starts no new creation.  [INSTANCE_TTL]
    does not bring a new client: after it has passed the call falls
    through to the resolved [instancePromise]. *)
Theorem X27_search_client_is_never_renewed
    (before after : list SearchInstance.event) (now : Z) (client : nat) :
  let s := SearchInstance.run before SearchInstance.init in
  SearchInstance.youtubeInstance s = Some client ->
  SearchInstance.run after s = s /\
  snd (SearchInstance.getYouTube false now s) = s /\
  SearchInstance.yields s (fst (SearchInstance.getYouTube false now s)) client.
Proof.
  intros s Hc.
  destruct (run_inv before SearchInstance.init inv_init) as [Hs _].
  fold s in Hs.
  destruct (run_inv after s Hs) as [_ Hafter].
  destruct (getYouTube_inv now s Hs) as [_ Hcall].
  split; [apply (Hafter client Hc)|]. apply (Hcall client Hc).
Qed.

Lemma X27_search_client_is_never_renewed_witness :
  let s := SearchInstance.run
             [SearchInstance.Call 0; SearchInstance.Settle 0 (Some 7%nat) 5]
             SearchInstance.init in
  SearchInstance.run [SearchInstance.Call 9000000] s = s /\
  snd (SearchInstance.getYouTube false 9000000 s) = s /\
  SearchInstance.yields s
    (fst (SearchInstance.getYouTube false 9000000 s)) 7%nat.
Proof.
  exact (X27_search_client_is_never_renewed
           [SearchInstance.Call 0; SearchInstance.Settle 0 (Some 7%nat) 5]
           [SearchInstance.Call 9000000] 9000000 7%nat eq_refl).
Defined.


Section SearchCallFacts.
Import Js Search Range SearchResponse SearchCall.
Context {PR : Presentation}.

Lemma syncLoop_spec ref env end_ fuel :
  forall pages calls st,
    (4 <= pages + fuel)%nat -> (1 <= fuel)%nat ->
    is_Some (objects st !! ref) ->
    exists pages' calls' st',
      syncLoop fuel ref env end_ pages calls st = Some (pages', calls', st') /\
      (calls' + pages <= calls + Nat.max pages 3)%nat /\
      is_Some (objects st' !! ref) /\
      searchCache st' = searchCache st /\
      activeFetches st' = activeFetches st.
Proof.
  induction fuel as [|fuel IH]; intros pages calls st Hf H1 [c Hc]; [lia|].
  cbn [syncLoop]. rewrite Hc.
  assert (Hstay : exists pages' calls' st',
            Some (pages, calls, st) = Some (pages', calls', st') /\
            (calls' + pages <= calls + Nat.max pages 3)%nat /\
            is_Some (objects st' !! ref) /\
            searchCache st' = searchCache st /\
            activeFetches st' = activeFetches st).
  { eexists _, _, _. split; [reflexivity|]. split; [lia|].
    split; [rewrite Hc; eauto|]. split; reflexivity. }
  assert (Hstop : forall c0, (pages < 3)%nat ->
            exists pages' calls' st',
            Some (pages, S calls, store ref c0 st) = Some (pages', calls', st') /\
            (calls' + pages <= calls + Nat.max pages 3)%nat /\
            is_Some (objects st' !! ref) /\
            searchCache st' = searchCache st /\
            activeFetches st' = activeFetches st).
  { intros c0 Hlt. eexists _, _, _. split; [reflexivity|]. split; [lia|].
    split; [simpl; rewrite lookup_insert_eq; eauto|]. split; reflexivity. }
  destruct (shorterThan (length (Search.results c)) end_ && has_continuation c);
    cbn [andb]; [|exact Hstay].
  destruct (Nat.ltb_spec pages 3) as [Hlt|Hge]; [|exact Hstay].
  destruct (continuation env pages) as [page|m].
  2:{ eexists _, _, _. split; [reflexivity|]. split; [lia|].
      split; [rewrite Hc; eauto|]. split; reflexivity. }
  destruct (extractSearchResults (heap page) (root page) (seenIds c))
    as [[more|m] seen']; [|apply Hstop, Hlt].
  destruct (length more =? 0)%nat; [apply Hstop, Hlt|].
  destruct (IH (S pages) (S calls)
              (store ref (withPage page seen' more c) st))
    as (pages' & calls' & st' & He & Hcalls & Hsome & Hcache & Hactive);
    try lia.
  { simpl. rewrite lookup_insert_eq. eauto. }
  exists pages', calls', st'. split; [exact He|]. split; [lia|].
  split; [exact Hsome|]. split; assumption.
Qed.

Lemma launch_spec cacheKey ref st :
  objects (snd (launch cacheKey ref st)) = objects st /\
  (cacheKey ∈ activeFetches st -> fst (launch cacheKey ref st) = false) /\
  (fst (launch cacheKey ref st) = true ->
   (cacheKey ∉ activeFetches st) /\
   activeFetches (snd (launch cacheKey ref st))
   = {[ cacheKey ]} ∪ activeFetches st) /\
  (fst (launch cacheKey ref st) = false -> snd (launch cacheKey ref st) = st).
Proof.
  unfold launch. destruct (objects st !! ref) as [c|];
    [|simpl; repeat split; try discriminate; auto].
  destruct (negb (Search.isComplete c)); cbn [andb];
    [|simpl; repeat split; try discriminate; auto].
  destruct (decide (cacheKey ∈ activeFetches st)) as [Hin|Hout].
  - rewrite (bool_decide_eq_true_2 _ Hin). simpl.
    repeat split; try discriminate; auto.
  - rewrite (bool_decide_eq_false_2 _ Hout). simpl.
    split; [reflexivity|]. split; [intros Hin; contradiction|].
    split; [auto | discriminate].
Qed.

Lemma finish_spec cacheKey ref env start end_ calls st :
  is_Some (objects st !! ref) ->
  exists out,
    finish cacheKey ref env start end_ calls st = Some out /\
    (requests out <= calls + 3)%nat /\
    (exists r, answer out = Built r) /\
    (cacheKey ∈ activeFetches st -> launched out = false) /\
    (launched out = true ->
     (cacheKey ∉ activeFetches st) /\
     activeFetches (state out) = {[ cacheKey ]} ∪ activeFetches st) /\
    (launched out = false -> activeFetches (state out) = activeFetches st).
Proof.
  intros Href. unfold finish.
  destruct (syncLoop_spec ref env end_ 4 0 calls st)
    as (pages' & calls' & st1 & -> & Hcalls & [c1 Hc1] & _ & Hactive);
    try lia; [exact Href|].
  cbv zeta.
  set (st2 := cacheSet cacheKey ref (stored env) (settleComplete ref st1)).
  assert (Hobj : exists c2, objects st2 !! ref = Some c2).
  { subst st2. unfold settleComplete. rewrite Hc1. simpl.
    rewrite lookup_insert_eq. eauto. }
  assert (Hact2 : activeFetches st2 = activeFetches st).
  { subst st2. unfold settleComplete. rewrite Hc1. simpl. exact Hactive. }
  destruct Hobj as [c2 Hc2].
  destruct (launch_spec cacheKey ref st2) as (Lobj & Lin & Ltrue & Lfalse).
  destruct (launch cacheKey ref st2) as [started st3]. simpl in *.
  rewrite Lobj, Hc2.
  eexists. split; [reflexivity|]. simpl.
  split; [lia|]. split; [eauto|].
  rewrite Hact2 in *.
  split; [exact Lin|]. split; [exact Ltrue|].
  intros Hs. rewrite (Lfalse Hs). exact Hact2.
Qed.

End SearchCallFacts.

(** X28: a call of [search] always comes to an end, after at most four
    requests upstream (the search itself and three continuations).
    When the key is already marked in [activeFetches] it starts no
    background fetch; when it starts one it marks the key; otherwise
    it leaves [activeFetches] alone.  And when the cache holds, at the
    time of the call, a live entry with as many results as [end] asks
    for, the call answers from that entry with no request at all and
    changes no object. *)
Theorem X28_search_call {PR : Search.Presentation} (cacheKey : string)
    (start end_ : Range.Bound) (env : SearchCall.Env) (st : Search.State) :
  SearchCall.wellStored st ->
  exists out,
    SearchCall.search cacheKey start end_ env st = Some out /\
    (SearchCall.requests out <= 4)%nat /\
    (cacheKey ∈ Search.activeFetches st -> SearchCall.launched out = false) /\
    (SearchCall.launched out = true ->
     Search.activeFetches (SearchCall.state out)
     = {[ cacheKey ]} ∪ Search.activeFetches st) /\
    (SearchCall.launched out = false ->
     Search.activeFetches (SearchCall.state out) = Search.activeFetches st) /\
    (forall c,
       fst (Search.cacheGet cacheKey (SearchCall.asked env) st) = Some c ->
       SearchResponse.servedFromCache (Some c) (SearchResponse.endOf end_)
       = true ->
       SearchCall.answer out
       = SearchCall.Built
           (SearchResponse.buildSearchResponse c
              (SearchResponse.startOf start) (SearchResponse.endOf end_)) /\
       SearchCall.requests out = 0%nat /\
       SearchCall.launched out = false /\
       Search.objects (SearchCall.state out) = Search.objects st).
Proof.
  intros Hst. unfold SearchCall.search, Search.cacheGet.
  destruct (FastCache_get_cases (Search.searchCache st) cacheKey
              (SearchCall.asked env))
    as [[Hnone Hrest]|(e & He & Hage & Hget)].
  - (* no live entry *)
    destruct (FastCache.get cacheKey (SearchCall.asked env)
                (Search.searchCache st)) as [r c'].
    simpl in Hnone, Hrest. subst r c'.
    set (st0 := {| Search.objects := Search.objects st;
                   Search.searchCache :=
                     FastCache.remove cacheKey (Search.searchCache st);
                   Search.activeFetches := Search.activeFetches st |}).
    destruct (SearchCall.client env) as [[]|m].
    2:{ eexists. split; [reflexivity|]. simpl. split; [lia|].
        split; [reflexivity|]. split; [discriminate|].
        split; [reflexivity|]. intros c Hc. discriminate. }
    destruct (SearchCall.firstPage env) as [searchData|m].
    2:{ eexists. split; [reflexivity|]. simpl. split; [lia|].
        split; [reflexivity|]. split; [discriminate|].
        split; [reflexivity|]. intros c Hc. discriminate. }
    destruct (Search.extractSearchResults (Search.heap searchData)
                (Search.root searchData) ∅) as [[results|m] seenIds].
    2:{ eexists. split; [reflexivity|]. simpl. split; [lia|].
        split; [reflexivity|]. split; [discriminate|].
        split; [reflexivity|]. intros c Hc. discriminate. }
    match goal with
    | |- context [SearchCall.finish cacheKey ?ref env ?s ?e 1%nat ?st1] =>
        destruct (finish_spec cacheKey ref env s e 1%nat st1)
          as (out & Hout & Hreq & _ & Hactive & Hstart & Hnot)
    end.
    { simpl. rewrite lookup_insert_eq. eauto. }
    exists out. split; [exact Hout|]. split; [lia|].
    split; [exact Hactive|]. split; [intros Hl; apply (Hstart Hl)|].
    split; [exact Hnot|]. intros c Hc. discriminate.
  - (* a live entry *)
    rewrite Hget. cbv beta iota zeta.
    destruct (Hst cacheKey e He) as [c Hc].
    assert (Heta : {| Search.objects := Search.objects st;
                      Search.searchCache := Search.searchCache st;
                      Search.activeFetches := Search.activeFetches st |} = st)
      by (destruct st; reflexivity).
    rewrite Heta, Hc.
    destruct (SearchResponse.servedFromCache (Some c)
                (SearchResponse.endOf end_)) eqn:Eserved.
    + eexists. split; [reflexivity|]. simpl. split; [lia|].
      split; [reflexivity|]. split; [discriminate|].
      split; [reflexivity|]. intros c0 Hc0 _. simpl in Hc0.
      injection Hc0 as <-. auto.
    + destruct (SearchCall.client env) as [[]|m].
      2:{ eexists. split; [reflexivity|]. simpl. split; [lia|].
          split; [reflexivity|]. split; [discriminate|].
          split; [reflexivity|]. intros c0 Hc0 Hs. simpl in Hc0.
          injection Hc0 as <-.
          unfold SearchResponse.servedFromCache in Eserved. congruence. }
      destruct (finish_spec cacheKey (FastCache.data e) env
                  (SearchResponse.startOf start) (SearchResponse.endOf end_)
                  0%nat st)
        as (out & Hout & Hreq & _ & Hactive & Hstart & Hnot);
        [rewrite Hc; eauto|].
      exists out. split; [exact Hout|]. split; [lia|].
      split; [exact Hactive|]. split; [intros Hl; apply (Hstart Hl)|].
      split; [exact Hnot|]. intros c0 Hc0 Hs. simpl in Hc0.
      injection Hc0 as <-.
      unfold SearchResponse.servedFromCache in Eserved, Hs. congruence.
Qed.

Lemma X28_search_call_witness :
  exists out,
    SearchCall.search (PR := CacheScenario.blank) "s|cats"
      Range.Undefined Range.Undefined
      {| SearchCall.client := Js.Ok tt;
         SearchCall.firstPage := Js.Throw "offline";
         SearchCall.continuation := fun _ => Js.Throw "offline";
         SearchCall.asked := 10; SearchCall.created := 11;
         SearchCall.stored := 12 |}
      CacheScenario.fetching = Some out /\
    (SearchCall.requests out <= 4)%nat /\
    SearchCall.launched out = false.
Proof.
  destruct (X28_search_call (PR := CacheScenario.blank) "s|cats"
              Range.Undefined Range.Undefined
              {| SearchCall.client := Js.Ok tt;
                 SearchCall.firstPage := Js.Throw "offline";
                 SearchCall.continuation := fun _ => Js.Throw "offline";
                 SearchCall.asked := 10; SearchCall.created := 11;
                 SearchCall.stored := 12 |}
              CacheScenario.fetching)
    as (out & Hout & Hreq & Hactive & _).
  - intros k e He. vm_compute in He.
    destruct (decide (k = "s|cats"%string)) as [->|Hne].
    + vm_compute in He. injection He as <-. vm_compute. eauto.
    + exfalso. revert He.
      change (FastCache.cache (Search.searchCache CacheScenario.fetching) !! k
              = Some e -> False).
      unfold CacheScenario.fetching, FastCache.set. simpl.
      rewrite lookup_insert_ne by congruence. rewrite lookup_empty.
      discriminate.
  - exists out. split; [exact Hout|]. split; [exact Hreq|].
    apply Hactive. vm_compute. reflexivity.
Defined.
